(** * Address derivation, validation and shard resolution

    A shallow embedding of [packages/address/src.ts/index.ts] together with
    the collaborators it imports ([@quais/bytes], [@quais/bignumber],
    [@quais/keccak256], [@quais/rlp], [@quais/strings], [@quais/constants]),
    and the properties of the address codec proved over that embedding.

    Conventions.
    - A JavaScript string is a [list ascii]: one element per UTF-16 code unit,
      restricted to the code units U+0000..U+00FF.  The functions below that
      inspect characters only recognise ASCII digits, letters and white
      space.  [toLowerCase] and [toUpperCase] map the ASCII letters, as
      JavaScript does on ASCII strings; the source applies them to strings of
      hex digits and of ASCII letters and digits in all its own calls.
    - A [Uint8Array] is a [list byte].
    - A thrown [Error] is the [Throw] constructor of [result]; the messages
      passed to [logger.throwArgumentError] are the constructors of [error]. *)

From Stdlib Require Import Ascii String.
From Stdlib.Strings Require Import Byte.
From Stdlib Require Import List Bool Arith NArith ZArith QArith Lia.
Import ListNotations.

Local Close Scope Q_scope.
Local Open Scope nat_scope.
Local Open Scope list_scope.

(** ** JavaScript strings *)

Definition jsstring := list ascii.

Definition str (s : String.string) : jsstring := String.list_ascii_of_string s.
Arguments str s%_string.

Definition code (c : ascii) : N := N_of_ascii c.

Definition ascii_in (lo hi c : ascii) : bool :=
  (code lo <=? code c)%N && (code c <=? code hi)%N.

Definition isDigit (c : ascii) : bool := ascii_in "0" "9" c.
Definition isLowerHex (c : ascii) : bool := ascii_in "a" "f" c.
Definition isUpperHex (c : ascii) : bool := ascii_in "A" "F" c.
Definition isLower (c : ascii) : bool := ascii_in "a" "z" c.
Definition isUpper (c : ascii) : bool := ascii_in "A" "Z" c.
Definition isHexDigit (c : ascii) : bool :=
  isDigit c || isLowerHex c || isUpperHex c.
Definition isAlnum (c : ascii) : bool := isDigit c || isUpper c || isLower c.

(** [String.prototype.toLowerCase] and [toUpperCase] on the ASCII letters. *)
Definition lowerChar (c : ascii) : ascii :=
  if isUpper c then ascii_of_N (code c + 32) else c.
Definition upperChar (c : ascii) : ascii :=
  if isLower c then ascii_of_N (code c - 32) else c.

Definition toLowerCase (s : jsstring) : jsstring := map lowerChar s.
Definition toUpperCase (s : jsstring) : jsstring := map upperChar s.

(** [s.substring(a, b)]: both indices are clamped to the length and swapped
    when out of order; [s.substring(a)] runs to the end. *)
Definition substring (a b : nat) (s : jsstring) : jsstring :=
  firstn (Nat.max a b - Nat.min a b) (skipn (Nat.min a b) s).
Definition substringFrom (a : nat) (s : jsstring) : jsstring := skipn a s.

Definition eqb_str (s t : jsstring) : bool :=
  if list_eq_dec ascii_dec s t then true else false.

(** ** Byte arrays *)

Definition Uint8Array : Type := list byte.

Definition byte_of_N (n : N) : byte :=
  match Byte.of_N (n mod 256) with Some b => b | None => x00 end.

Definition byte_of_char (c : ascii) : byte := byte_of_N (code c).

(** ** Keccak-256 *)

Module Keccak.

Definition mask64 : N := 0xFFFFFFFFFFFFFFFF.

Definition rotl (x n : N) : N :=
  N.land (N.lor (N.shiftl x n) (N.shiftr x (64 - n))) mask64.

Definition lane (st : list N) (x y : nat) : N :=
  nth ((x mod 5) + 5 * (y mod 5)) st 0%N.

Definition rotation : list N :=
  [ 0; 1; 62; 28; 27;
    36; 44; 6; 55; 20;
    3; 10; 43; 25; 39;
    41; 45; 15; 21; 8;
    18; 2; 61; 56; 14 ]%N.

Definition round_constants : list N :=
  [ 0x0000000000000001; 0x0000000000008082; 0x800000000000808A;
    0x8000000080008000; 0x000000000000808B; 0x0000000080000001;
    0x8000000080008081; 0x8000000000008009; 0x000000000000008A;
    0x0000000000000088; 0x0000000080008009; 0x000000008000000A;
    0x000000008000808B; 0x800000000000008B; 0x8000000000008089;
    0x8000000000008003; 0x8000000000008002; 0x8000000000000080;
    0x000000000000800A; 0x800000008000000A; 0x8000000080008081;
    0x8000000000008080; 0x0000000080000001; 0x8000000080008008 ]%N.

Definition positions : list (nat * nat) :=
  map (fun i => (i mod 5, i / 5)) (seq 0 25).

Definition column (st : list N) (x : nat) : N :=
  fold_left N.lxor (map (lane st x) (seq 0 5)) 0%N.

Definition theta (st : list N) : list N :=
  map (fun '(x, y) =>
         N.lxor (lane st x y)
                (N.lxor (column st (x + 4)) (rotl (column st (x + 1)) 1)))
      positions.

Definition rho_pi (st : list N) : list N :=
  map (fun '(x, y) =>
         let x0 := (x + 3 * y) mod 5 in
         rotl (lane st x0 x) (nth (x0 + 5 * x) rotation 0%N))
      positions.

Definition chi (st : list N) : list N :=
  map (fun '(x, y) =>
         N.lxor (lane st x y)
                (N.ldiff (lane st (x + 2) y) (lane st (x + 1) y)))
      positions.

Definition iota (rc : N) (st : list N) : list N :=
  match st with
  | [] => []
  | a :: rest => N.lxor a rc :: rest
  end.

Definition round (st : list N) (rc : N) : list N :=
  iota rc (chi (rho_pi (theta st))).

Definition keccak_f (st : list N) : list N :=
  fold_left round round_constants st.

Definition rate : nat := 136.

Definition pad (len : nat) : list N :=
  match rate - len mod rate with
  | 1 => [0x81]%N
  | n => (0x01 :: repeat 0 (n - 2) ++ [0x80])%N
  end.

Fixpoint lane_of_bytes (bs : list N) : N :=
  match bs with
  | [] => 0
  | b :: rest => (b + 256 * lane_of_bytes rest)%N
  end.

Fixpoint lanes_of_bytes (n : nat) (bs : list N) : list N :=
  match n with
  | O => []
  | S n' => lane_of_bytes (firstn 8 bs) :: lanes_of_bytes n' (skipn 8 bs)
  end.

Definition xor_block (st : list N) (block : list N) : list N :=
  map (fun '(a, b) => N.lxor a b)
      (combine st (lanes_of_bytes 25 block)).

Fixpoint absorb (fuel : nat) (st : list N) (data : list N) : list N :=
  match fuel, data with
  | _, [] => st
  | O, _ => st
  | S fuel', _ =>
      absorb fuel' (keccak_f (xor_block st (firstn rate data)))
             (skipn rate data)
  end.

Definition squeeze (st : list N) : list byte :=
  map (fun i => byte_of_N (N.shiftr (nth (i / 8) st 0%N)
                                    (8 * N.of_nat (i mod 8))))
      (seq 0 32).

Definition keccak_256 (msg : list byte) : list byte :=
  let data := map Byte.to_N msg ++ pad (length msg) in
  squeeze (absorb (length data) (repeat 0%N 25) data).

End Keccak.

(** ** Failure signalling *)

(** The failures of the module, one constructor per message the source
    passes to [logger.throwArgumentError], followed by the failures raised
    inside the imported helpers. *)
Inductive error : Type :=
| InvalidAddress        (* "invalid address" *)
| BadChecksum           (* "bad address checksum" *)
| BadIcapChecksum       (* "bad icap checksum" *)
| MissingFromAddress    (* "missing from address" *)
| InvalidSalt           (* "salt must be 32 bytes" *)
| InvalidInitCodeHash   (* "initCodeHash must be 32 bytes" *)
| MissingNonce          (* "missing nonce" *)
| MissingMatchShard     (* "missing matchShard" *)
| InvalidArrayify       (* bytes: "invalid arrayify value" *)
| OddLengthHex          (* bytes: "hex data is odd-length" *)
| InvalidHexData        (* bytes: "invalid hexData" *)
| Bytes32TooLong.       (* strings: "bytes32 string must be less than 32 bytes" *)

Inductive result (A : Type) : Type :=
| Return (a : A)
| Throw (e : error).
Arguments Return {A} a.
Arguments Throw {A} e.

Definition bind {A B : Type} (m : result A) (k : A -> result B) : result B :=
  match m with
  | Return a => k a
  | Throw e => Throw e
  end.

Notation "x <- m ;; k" := (bind m (fun x => k))
  (at level 61, m at next level, right associativity).

(** [try { m } catch (error) { throw e }] *)
Definition catchAs {A : Type} (m : result A) (e : error) : result A :=
  match m with
  | Return a => Return a
  | Throw _ => Throw e
  end.

(** ** JavaScript numbers read from strings *)

(** White space and line terminators among the code units modelled. *)
Definition isLineTerminator (c : ascii) : bool :=
  (code c =? 10)%N || (code c =? 13)%N.
Definition isWhiteSpace (c : ascii) : bool :=
  (code c =? 9)%N || (code c =? 11)%N || (code c =? 12)%N
  || (code c =? 32)%N || (code c =? 160)%N || isLineTerminator c.

Fixpoint trimStart (s : jsstring) : jsstring :=
  match s with
  | c :: rest => if isWhiteSpace c then trimStart rest else s
  | [] => []
  end.
Definition trim (s : jsstring) : jsstring := rev (trimStart (rev (trimStart s))).

(** The value of a character as a digit, for every radix up to 36. *)
Definition digitVal (c : ascii) : option N :=
  if isDigit c then Some (code c - 48)%N
  else if isLower c then Some (code c - 87)%N
  else if isUpper c then Some (code c - 55)%N
  else None.

Definition digitIn (radix : N) (c : ascii) : option N :=
  match digitVal c with
  | Some d => if (d <? radix)%N then Some d else None
  | None => None
  end.

(** The digit characters, lower case, as [Number.prototype.toString] and
    [BN.prototype.toString] print them. *)
Definition digitChar (d : N) : ascii :=
  if (d <? 10)%N then ascii_of_N (48 + d) else ascii_of_N (87 + d).

(** The longest prefix of digits of [s] in the radix, as a number and a
    count of the digits read, and what follows it. *)
Fixpoint readDigits (radix : N) (s : jsstring) (acc : N) (count : nat)
  : N * nat * jsstring :=
  match s with
  | c :: rest =>
      match digitIn radix c with
      | Some d => readDigits radix rest (acc * radix + d)%N (S count)
      | None => (acc, count, s)
      end
  | [] => (acc, count, [])
  end.

(** A JavaScript number that is an integer or [NaN] ([None]). *)
Definition jsint := option Z.

Definition stripSign (s : jsstring) : bool * jsstring :=
  match s with
  | "-"%char :: rest => (true, rest)
  | "+"%char :: rest => (false, rest)
  | _ => (false, s)
  end.

Definition stripHexPrefix (s : jsstring) : jsstring :=
  match s with
  | "0"%char :: "x"%char :: rest => rest
  | "0"%char :: "X"%char :: rest => rest
  | _ => s
  end.

(** [parseInt(s, radix)] for a radix of 2..36. *)
Definition parseInt (s : jsstring) (radix : N) : jsint :=
  let '(neg, body) := stripSign (trimStart s) in
  let body := if (radix =? 16)%N then stripHexPrefix body else body in
  match readDigits radix body 0 0 with
  | (_, O, _) => None
  | (n, _, _) => Some (if neg then (- Z.of_N n)%Z else Z.of_N n)
  end.

(** [x % m] on integers keeps the sign of the dividend; [NaN] propagates. *)
Definition jsRem (x : jsint) (m : Z) : jsint := option_map (fun z => Z.rem z m) x.

Definition jsSubFrom (k : Z) (x : jsint) : jsint := option_map (fun z => (k - z)%Z) x.

(** [n.toString(radix)] and [BN.prototype.toString(radix)] on a non-negative
    integer: no leading zero, ["0"] for zero. *)
Fixpoint toDigits (fuel : nat) (radix n : N) (acc : jsstring) : jsstring :=
  match fuel with
  | O => acc
  | S fuel' =>
      if (n =? 0)%N then acc
      else toDigits fuel' radix (n / radix)%N (digitChar (n mod radix) :: acc)
  end.

Definition toStringRadix (radix n : N) : jsstring :=
  if (n =? 0)%N then ["0"%char]
  else toDigits (N.to_nat (N.size n)) radix n [].

(** [String(x)] for an integer or [NaN]. *)
Definition jsString (x : jsint) : jsstring :=
  match x with
  | None => str "NaN"
  | Some z =>
      if (z <? 0)%Z then "-"%char :: toStringRadix 10 (Z.to_N (- z))
      else toStringRadix 10 (Z.to_N z)
  end.

(** The result of [Number(s)]: the numeric value is kept exact. *)
Inductive jsnumber : Type :=
| NaN
| Infinity (negative : bool)
| Finite (q : Q).

Definition pow10 (m : Z) (k : Z) : Q :=
  if (0 <=? k)%Z then Qmake (m * 10 ^ k) 1
  else Qmake m (Z.to_pos (10 ^ (- k))).

Definition signed (neg : bool) (z : Z) : Z := if neg then (- z)%Z else z.

(** [ExponentPart] of a decimal literal, up to the end of the string. *)
Definition readExponent (s : jsstring) : option Z :=
  match s with
  | [] => Some 0%Z
  | c :: rest =>
      if (code c =? 101)%N || (code c =? 69)%N then
        let '(eneg, digits) := stripSign rest in
        match readDigits 10 digits 0 0 with
        | (_, O, _) => None
        | (e, _, []) => Some (signed eneg (Z.of_N e))
        | _ => None
        end
      else None
  end.

(** [StrDecimalLiteral]: sign, [Infinity] or digits with an optional
    fraction and exponent. *)
Definition decimalLiteral (s : jsstring) : jsnumber :=
  let '(neg, body) := stripSign s in
  if eqb_str body (str "Infinity") then Infinity neg
  else
    let '(ip, ni, r1) := readDigits 10 body 0 0 in
    let '(m, nall, r2) :=
      match r1 with
      | "."%char :: frac => readDigits 10 frac ip ni
      | _ => (ip, ni, r1)
      end in
    match nall with
    | O => NaN
    | _ =>
        match readExponent r2 with
        | Some e =>
            Finite (pow10 (signed neg (Z.of_N m))
                          (e - Z.of_nat (nall - ni)))
        | None => NaN
        end
    end.

(** A literal with a radix prefix: one digit at least and nothing else. *)
Definition prefixedLiteral (radix : N) (digits : jsstring) : jsnumber :=
  match readDigits radix digits 0 0 with
  | (_, O, _) => NaN
  | (n, _, []) => Finite (inject_Z (Z.of_N n))
  | _ => NaN
  end.

(** [Number(s)] on a string ([StringToNumber]). *)
Definition Number (s : jsstring) : jsnumber :=
  let t := trim s in
  match t with
  | [] => Finite 0
  | "0"%char :: "x"%char :: digits => prefixedLiteral 16 digits
  | "0"%char :: "X"%char :: digits => prefixedLiteral 16 digits
  | "0"%char :: "o"%char :: digits => prefixedLiteral 8 digits
  | "0"%char :: "O"%char :: digits => prefixedLiteral 8 digits
  | "0"%char :: "b"%char :: digits => prefixedLiteral 2 digits
  | "0"%char :: "B"%char :: digits => prefixedLiteral 2 digits
  | _ => decimalLiteral t
  end.

(** [a <= b] on numbers: false as soon as one side is [NaN]. *)
Definition jsLe (a b : jsnumber) : bool :=
  match a, b with
  | NaN, _ | _, NaN => false
  | Infinity true, _ => true
  | _, Infinity false => true
  | Infinity false, _ => false
  | _, Infinity true => false
  | Finite x, Finite y => Qle_bool x y
  end.

(** [a >= b] *)
Definition jsGe (a b : jsnumber) : bool := jsLe b a.

(** ** The regular expressions of the module *)

Definition hex40 (s : jsstring) : bool :=
  (length s =? 40) && forallb isHexDigit s.

(** [/^(0x)?[0-9a-fA-F]{40}$/] *)
Definition matchHexAddress (s : jsstring) : bool :=
  hex40 s
  || match s with
     | "0"%char :: "x"%char :: digits => hex40 digits
     | _ => false
     end.

(** [.*p] at the start of [s]: [.] is any character but a line terminator. *)
Fixpoint anyThen (p : ascii -> bool) (s : jsstring) : bool :=
  match s with
  | c :: rest => p c || (negb (isLineTerminator c) && anyThen p rest)
  | [] => false
  end.

(** [p.*q] somewhere in [s]. *)
Fixpoint findPair (p q : ascii -> bool) (s : jsstring) : bool :=
  match s with
  | c :: rest => (p c && anyThen q rest) || findPair p q rest
  | [] => false
  end.

(** [/([A-F].*[a-f])|([a-f].*[A-F])/] *)
Definition matchMixedCase (s : jsstring) : bool :=
  findPair isUpperHex isLowerHex s || findPair isLowerHex isUpperHex s.

(** [/^XE[0-9]{2}[0-9A-Za-z]{30,31}$/] *)
Definition matchIcap (s : jsstring) : bool :=
  match s with
  | "X"%char :: "E"%char :: d1 :: d2 :: body =>
      isDigit d1 && isDigit d2
      && ((length body =? 30) || (length body =? 31))
      && forallb isAlnum body
  | _ => false
  end.

(** ** [@quais/bytes] *)

(** Modelled from the spec: the hex and byte encoding helpers of
    [@quais/bytes], which section 6 lists as collaborators.  A [BytesLike]
    is a string or a [Uint8Array]. *)
Inductive BytesLike : Type :=
| HexString (s : jsstring)
| ByteArray (b : list byte).

(** [isHexString(value, length)]: [/^0x[0-9A-Fa-f]*$/], and the exact
    length when a non-zero one is given. *)
Definition isHexString (value : jsstring) (len : option nat) : bool :=
  match value with
  | "0"%char :: "x"%char :: digits =>
      forallb isHexDigit digits
      && match len with
         | Some (S n) => length value =? 2 + 2 * S n
         | _ => true
         end
  | _ => false
  end.

(** The bytes of an even-length string of hex digits, two digits each. *)
Fixpoint bytesOfHex (hex : jsstring) : list byte :=
  match hex with
  | h :: l :: rest =>
      match parseInt [h; l] 16 with
      | Some z => byte_of_N (Z.to_N z) :: bytesOfHex rest
      | None => x00 :: bytesOfHex rest
      end
  | _ => []
  end.

Definition arrayify (value : BytesLike) : result (list byte) :=
  match value with
  | HexString s =>
      if isHexString s None then
        let hex := substringFrom 2 s in
        if Nat.even (length hex) then Return (bytesOfHex hex)
        else Throw OddLengthHex
      else Throw InvalidArrayify
  | ByteArray b => Return b
  end.

(** [isBytes] on an array of numbers: every element an integer in 0..255. *)
Definition arrayifyNumbers (values : list jsint) : result (list byte) :=
  if forallb (fun v => match v with
                       | Some z => (0 <=? z)%Z && (z <? 256)%Z
                       | None => false
                       end) values
  then Return (map (fun v => match v with
                             | Some z => byte_of_N (Z.to_N z)
                             | None => x00
                             end) values)
  else Throw InvalidArrayify.

Definition hexOfByte (b : byte) : jsstring :=
  [digitChar (Byte.to_N b / 16); digitChar (Byte.to_N b mod 16)].

(** [hexlify] of a [Uint8Array] *)
Definition hexlify (bs : list byte) : jsstring :=
  str "0x" ++ flat_map hexOfByte bs.

Fixpoint mapM {A B : Type} (f : A -> result B) (l : list A) : result (list B) :=
  match l with
  | [] => Return []
  | a :: rest => b <- f a ;; bs <- mapM f rest ;; Return (b :: bs)
  end.

Definition concat (items : list BytesLike) : result (list byte) :=
  objects <- mapM arrayify items ;;
  Return (List.concat objects).

Definition hexDataLength (data : BytesLike) : option nat :=
  match data with
  | ByteArray b => Some ((length (hexlify b) - 2) / 2)
  | HexString s =>
      if negb (isHexString s None) || Nat.odd (length s) then None
      else Some ((length s - 2) / 2)
  end.

Definition hexDataSlice (data : BytesLike) (offset : nat) : result jsstring :=
  data <- match data with
          | ByteArray b => Return (hexlify b)
          | HexString s =>
              if negb (isHexString s None) || Nat.odd (length s)
              then Throw InvalidHexData
              else Return s
          end ;;
  Return (str "0x" ++ substringFrom (2 + 2 * offset) data).

Fixpoint dropZeros (bs : list byte) : list byte :=
  match bs with
  | x00 :: rest => dropZeros rest
  | _ => bs
  end.

Definition stripZeros (value : BytesLike) : result (list byte) :=
  bs <- arrayify value ;;
  Return (dropZeros bs).

(** ** [@quais/keccak256] *)

(** Modelled from the spec: the hash collaborator of section 6, which the
    source imports as [keccak256]: the hex string of the Keccak-256 digest
    of the bytes. *)
Definition keccak256 (data : BytesLike) : result jsstring :=
  bs <- arrayify data ;;
  Return (str "0x" ++ flat_map hexOfByte (Keccak.keccak_256 bs)).

(** ** [@quais/bignumber] *)

(** The value of a string of digits in the radix ([new BN(s, radix)]); the
    callers only pass strings of digits of the radix. *)
Definition fromDigits (radix : N) (s : jsstring) : N :=
  fold_left (fun acc c => match digitVal c with
                          | Some d => acc * radix + d
                          | None => acc * radix
                          end)%N s 0%N.

(** Modelled from the spec: [base16ToBase36] and [base36ToBase16] of
    section 6, arbitrary-precision base conversion. *)
Definition _base16To36 (value : jsstring) : jsstring :=
  toStringRadix 36 (fromDigits 16 value).
Definition _base36To16 (value : jsstring) : jsstring :=
  toStringRadix 16 (fromDigits 36 value).

(** [while (s.length < n) { s = "0" + s; }] *)
Definition padZeros (n : nat) (s : jsstring) : jsstring :=
  repeat "0"%char (n - length s) ++ s.

(** Modelled from the spec: [BigNumber.from(n).toHexString()] on a
    non-negative integer, a whole number of bytes ("0x00" for zero). *)
Definition toHexString_BigNumber (n : N) : jsstring :=
  let hex := toStringRadix 16 n in
  str "0x" ++ (if Nat.odd (length hex) then "0"%char :: hex else hex).

(** ** [@quais/rlp] *)

(** Modelled from the spec: [rlpEncode] of section 6, the canonical RLP
    encoding of nested lists of byte strings. *)
#[warnings="-register-all"]
Inductive RlpItem : Type :=
| RlpBytes (data : BytesLike)
| RlpList (children : list RlpItem).

Fixpoint arrayifyInteger (fuel : nat) (value : N) (acc : list byte) : list byte :=
  match fuel with
  | O => acc
  | S fuel' =>
      if (value =? 0)%N then acc
      else arrayifyInteger fuel' (N.shiftr value 8)
                           (byte_of_N (N.land value 0xff) :: acc)
  end.

Definition lengthBytes (n : nat) : list byte :=
  arrayifyInteger (S n) (N.of_nat n) [].

Definition rlpHeader (short long : N) (payload : list byte) : list byte :=
  if length payload <=? 55
  then byte_of_N (short + N.of_nat (length payload)) :: payload
  else let len := lengthBytes (length payload) in
       byte_of_N (long + N.of_nat (length len)) :: len ++ payload.

Fixpoint _encode (object : RlpItem) : result (list byte) :=
  match object with
  | RlpList children =>
      payload <- (fix encodeAll (l : list RlpItem) : result (list byte) :=
                    match l with
                    | [] => Return []
                    | child :: rest =>
                        b <- _encode child ;;
                        bs <- encodeAll rest ;;
                        Return (b ++ bs)
                    end) children ;;
      Return (rlpHeader 0xc0 0xf7 payload)
  | RlpBytes object =>
      data <- arrayify object ;;
      match data with
      | [b] => if (Byte.to_N b <=? 0x7f)%N then Return data
               else Return (rlpHeader 0x80 0xb7 data)
      | _ => Return (rlpHeader 0x80 0xb7 data)
      end
  end.

Definition encode (object : RlpItem) : result jsstring :=
  bs <- _encode object ;;
  Return (hexlify bs).

(** ** [@quais/strings] *)

(** Modelled from the spec: [fixedSize32PaddedEncoding] of section 6
    ([formatBytes32String]), on a string of ASCII characters: the bytes of
    the text followed by zeros, 32 bytes in all. *)
Definition formatBytes32String (text : jsstring) : result jsstring :=
  let bytes := map byte_of_char text in
  if 31 <? length bytes then Throw Bytes32TooLong
  else Return (hexlify (firstn 32 (bytes ++ repeat x00 32))).

(** ** [@quais/constants] *)

(** An entry of the static shard table [ShardData]: the fields the module
    reads.  The table itself is a parameter of the functions that use it. *)
Record ShardEntry : Type := { shard : jsstring; byte : jsstring * jsstring }.

(** ** [packages/address/src.ts/index.ts] *)

(** [chars[i] = x] *)
Fixpoint setNth {A : Type} (i : nat) (x : A) (l : list A) : list A :=
  match l, i with
  | [], _ => []
  | _ :: rest, O => x :: rest
  | a :: rest, S i' => a :: setNth i' x rest
  end.

(** [chars[i] = chars[i].toUpperCase()] *)
Definition upperAt (i : nat) (chars : jsstring) : jsstring :=
  match nth_error chars i with
  | Some c => setNth i (upperChar c) chars
  | None => chars
  end.

(** The body of the second loop of [getChecksumAddress], at index [i]. *)
Definition checksumStep (hashed : Uint8Array) (chars : jsstring) (i : nat)
  : jsstring :=
  let h := Byte.to_N (nth (i / 2) hashed Byte.x00) in
  let chars := if (8 <=? N.shiftr h 4)%N then upperAt i chars else chars in
  if (8 <=? N.land h 0x0f)%N then upperAt (i + 1) chars else chars.

(** The values of [i] in [for (let i = 0; i < 40; i += 2)]. *)
Definition evenIndices : list nat := map (fun k => 2 * k) (seq 0 20).

Definition getChecksumAddress (address : jsstring) : result jsstring :=
  if negb (isHexString address (Some 20)) then Throw InvalidAddress
  else
    let address := toLowerCase address in
    let chars := substringFrom 2 address in
    let expanded := map byte_of_char (firstn 40 chars) in
    digest <- keccak256 (ByteArray expanded) ;;
    hashed <- arrayify (HexString digest) ;;
    let chars := fold_left (checksumStep hashed) evenIndices chars in
    Return (str "0x" ++ chars).

Definition MAX_SAFE_INTEGER : N := 0x1fffffffffffff.

(** [Math.floor(log10(x))] for a positive integer: one less than the number
    of its decimal digits. *)
Definition floorLog10 (x : N) : nat := length (toStringRadix 10 x) - 1.

Definition safeDigits : nat := floorLog10 MAX_SAFE_INTEGER.

(** [ibanLookup[c]]: [None] is [undefined]. *)
Definition ibanLookup (c : ascii) : option jsstring :=
  if isDigit c then Some [c]
  else if isUpper c then Some (toStringRadix 10 (10 + (code c - 65)))
  else None.

(** [Array.prototype.join("")]: an [undefined] element adds nothing. *)
Definition joinDefined (l : list (option jsstring)) : jsstring :=
  flat_map (fun x => match x with Some t => t | None => [] end) l.

(** The [while (expanded.length >= safeDigits)] loop of [ibanChecksum]; the
    fuel bounds the number of iterations. *)
Fixpoint ibanReduce (fuel : nat) (expanded : jsstring) : jsstring :=
  match fuel with
  | O => expanded
  | S fuel' =>
      if safeDigits <=? length expanded then
        let block := substring 0 safeDigits expanded in
        ibanReduce fuel'
          (jsString (jsRem (parseInt block 10) 97)
             ++ substringFrom (length block) expanded)
      else expanded
  end.

Definition ibanChecksum (address : jsstring) : jsstring :=
  let address := toUpperCase address in
  let address := substringFrom 4 address ++ substring 0 2 address ++ str "00" in
  let expanded := joinDefined (map ibanLookup address) in
  let expanded := ibanReduce (length expanded) expanded in
  let checksum := jsString (jsSubFrom 98 (jsRem (parseInt expanded 10) 97)) in
  padZeros 2 checksum.

Definition getAddress (address : jsstring) : result jsstring :=
  if matchHexAddress address then
    let address :=
      if negb (eqb_str (substring 0 2 address) (str "0x"))
      then str "0x" ++ address else address in
    result <- getChecksumAddress address ;;
    if matchMixedCase address && negb (eqb_str result address)
    then Throw BadChecksum
    else Return result
  else if matchIcap address then
    if negb (eqb_str (substring 2 4 address) (ibanChecksum address))
    then Throw BadIcapChecksum
    else
      let result := _base36To16 (substringFrom 4 address) in
      let result := padZeros 40 result in
      getChecksumAddress (str "0x" ++ result)
  else Throw InvalidAddress.

Definition isAddress (address : jsstring) : bool :=
  match getAddress address with
  | Return _ => true
  | Throw _ => false
  end.

Definition getIcapAddress (address : jsstring) : result jsstring :=
  checksummed <- getAddress address ;;
  let base36 := toUpperCase (_base16To36 (substringFrom 2 checksummed)) in
  let base36 := padZeros 30 base36 in
  Return (str "XE" ++ ibanChecksum (str "XE00" ++ base36) ++ base36).

(** The [transaction] argument of [getContractAddress]; the nonce is a
    non-negative integer. *)
Record Transaction : Type := { from : jsstring; nonce : N }.

Definition getContractAddress (transaction : Transaction) : result jsstring :=
  from <- catchAs (getAddress (from transaction)) MissingFromAddress ;;
  nonce <- stripZeros (HexString (toHexString_BigNumber (nonce transaction))) ;;
  encoded <- encode (RlpList [RlpBytes (HexString from);
                              RlpBytes (ByteArray nonce)]) ;;
  digest <- keccak256 (HexString encoded) ;;
  sliced <- hexDataSlice (HexString digest) 12 ;;
  getAddress sliced.

Definition getCreate2Address (from : jsstring) (salt initCodeHash : BytesLike)
  : result jsstring :=
  if negb (match hexDataLength salt with
           | Some n => n =? 32
           | None => false
           end)
  then Throw InvalidSalt
  else if negb (match hexDataLength initCodeHash with
                | Some n => n =? 32
                | None => false
                end)
  then Throw InvalidInitCodeHash
  else
    from <- getAddress from ;;
    bytes <- concat [HexString (str "0xff"); HexString from;
                     salt; initCodeHash] ;;
    digest <- keccak256 (ByteArray bytes) ;;
    sliced <- hexDataSlice (HexString digest) 12 ;;
    getAddress sliced.

(** [('0' + (byte & 0xFF).toString(16)).slice(-2)], joined. *)
Definition toHexString (byteArray : list jsint) : jsstring :=
  flat_map (fun b =>
              let v := match b with Some z => Z.land z 0xFF | None => 0%Z end in
              let t := "0"%char :: toStringRadix 16 (Z.to_N v) in
              skipn (length t - 2) t)
           byteArray.

(** The loop of [toByteArray]; the fuel bounds the number of iterations. *)
Fixpoint toByteArrayLoop (fuel : nat) (hexString : jsstring) : list jsint :=
  match fuel with
  | O => []
  | S fuel' =>
      if 2 <=? length hexString then
        parseInt (substring 0 2 hexString) 16
        :: toByteArrayLoop fuel' (substring 2 (length hexString) hexString)
      else []
  end.

Definition toByteArray (hexString : jsstring) : list jsint :=
  toByteArrayLoop (length hexString) hexString.

Definition validShard (ShardData : list ShardEntry) (shard0 : jsstring) : bool :=
  let shardData := filter (fun obj => eqb_str (shard obj) shard0) ShardData in
  if length shardData =? 0 then false else true.

Definition getShardFromAddress (ShardData : list ShardEntry) (address : jsstring)
  : option jsstring :=
  let shardData :=
    filter (fun obj =>
              let num := Number (substring 0 4 address) in
              let start := Number (str "0x" ++ fst (byte obj)) in
              let end_ := Number (str "0x" ++ snd (byte obj)) in
              jsGe num start && jsLe num end_)
           ShardData in
  if length shardData =? 0 then None
  else option_map shard (nth_error shardData 0).

Definition bytesAsNumbers (bs : Uint8Array) : list jsint :=
  map (fun b => Some (Z.of_N (Byte.to_N b))) bs.

(** What a run of [grindContractAddress] gives on the bytes that
    [randomBytes(1)] returns one call after the other: a value, a failure,
    or a loop still searching when the bytes supplied are used up. *)
Inductive GrindOutcome : Type :=
| Found (initCode : jsstring)
| Failed (e : error)
| Searching.

(** One candidate: the init code bytes for a salt and the address they give. *)
Definition grindCandidate (nonceBytes sendAddress bytecode : jsstring)
           (salt : Uint8Array) : result (list jsint * jsstring) :=
  let initCode := substring 0 (length bytecode - 2) bytecode
                  ++ toHexString (bytesAsNumbers salt) in
  let contractBytes := toByteArray initCode in
  addressAndNonce <- concat [HexString sendAddress; HexString nonceBytes] ;;
  contractArray <- arrayifyNumbers contractBytes ;;
  createInput <- concat [ByteArray addressAndNonce; ByteArray contractArray] ;;
  digest <- keccak256 (ByteArray createInput) ;;
  sliced <- hexDataSlice (HexString digest) 12 ;;
  preComputedAddress <- getAddress sliced ;;
  Return (contractBytes, preComputedAddress).

Fixpoint grindLoop (ShardData : list ShardEntry)
         (nonceBytes matchShard sendAddress bytecode : jsstring)
         (random : list Uint8Array) : GrindOutcome :=
  match random with
  | [] => Searching
  | salt :: random' =>
      match grindCandidate nonceBytes sendAddress bytecode salt with
      | Throw e => Failed e
      | Return (contractBytes, preComputedAddress) =>
          match getShardFromAddress ShardData preComputedAddress with
          | None =>
              grindLoop ShardData nonceBytes matchShard sendAddress bytecode random'
          | Some shard0 =>
              if eqb_str shard0 matchShard then Found (toHexString contractBytes)
              else grindLoop ShardData nonceBytes matchShard sendAddress
                             bytecode random'
          end
      end
  end.

(** [nonce] and [matchShard] are [None] when [undefined]; a nonce is a
    non-negative integer up to [MAX_SAFE_INTEGER], which [nonce.toString()]
    prints with its decimal digits.  [random] lists the results of the
    successive calls of [randomBytes(1)]. *)
Definition grindContractAddress (ShardData : list ShardEntry)
           (nonce : option N) (matchShard : option jsstring)
           (sendAddress bytecode : jsstring) (random : list Uint8Array)
  : GrindOutcome :=
  match nonce with
  | None => Failed MissingNonce
  | Some nonce =>
      match matchShard with
      | None => Failed MissingMatchShard
      | Some matchShard =>
          if negb (validShard ShardData matchShard) then Failed MissingMatchShard
          else
            match formatBytes32String (toStringRadix 10 nonce) with
            | Throw e => Failed e
            | Return nonceBytes =>
                grindLoop ShardData nonceBytes matchShard sendAddress bytecode random
            end
      end
  end.


(** ** Reference definitions for the statements *)

(** The nibble of the digest that decides the case of character [i]: the
    high nibble of byte [i / 2] for an even [i], the low nibble for an odd
    one. *)
Definition digestNibble (hashed : Uint8Array) (i : nat) : N :=
  let h := Byte.to_N (nth (i / 2) hashed Byte.x00) in
  if Nat.even i then (h / 16)%N else (h mod 16)%N.

(** Character [i] after the case adjustment. *)
Definition caseAt (hashed : Uint8Array) (i : nat) (c : ascii) : ascii :=
  if (8 <=? digestNibble hashed i)%N then upperChar c else c.


Arguments Keccak.keccak_256 : simpl never.

(** The 40 characters [getChecksumAddress] returns after "0x" for the
    digits of an address. *)
Definition checksumChars (digits : jsstring) : jsstring :=
  let lower := toLowerCase digits in
  fold_left (checksumStep (Keccak.keccak_256 (map byte_of_char lower)))
            evenIndices lower.

(** A string with no upper-case letter, and one with no lower-case letter. *)
Definition allLowerCase (s : jsstring) : bool := forallb (fun c => negb (isUpper c)) s.
Definition allUpperCase (s : jsstring) : bool := forallb (fun c => negb (isLower c)) s.

(** What the hex branch of [getAddress] does once the prefix is in place. *)
Definition hexPath (d : jsstring) : result jsstring :=
  if matchMixedCase (str "0x" ++ d)
     && negb (eqb_str (str "0x" ++ checksumChars d) (str "0x" ++ d))
  then Throw BadChecksum
  else Return (str "0x" ++ checksumChars d).

(** The byte that two hex digits denote. *)
Definition byteOfPair (h l : ascii) : Init.Byte.byte :=
  match parseInt [h; l] 16 with
  | Some z => byte_of_N (Z.to_N z)
  | None => Byte.x00
  end.

(** Every character, by code. *)
Definition allChars : list ascii := map ascii_of_nat (seq 0 256).

(** The address of the example in section 8 of the specification. *)
Definition allCapsExample : jsstring :=
  str "0x52908400098527886E0F7030069857D2E4169EE7".

(** A 20-byte value and two spellings of it, for the instances below. *)
Definition sampleBytes : Uint8Array :=
  [x8b; xa1; xf1; x09; x55; x1b; xd4; x32; x80; x30;
   x12; x64; x5a; xc1; x36; xdd; xd6; x4d; xba; x72].
Definition sampleLower : jsstring := str "8ba1f109551bd432803012645ac136ddd64dba72".
Definition sampleChecksummed : jsstring :=
  str "0x8ba1f109551bD432803012645Ac136ddd64DBA72".

(** One step of reading a numeral in a radix, most significant digit first. *)
Definition digitStep (radix acc : N) (c : ascii) : N :=
  match digitVal c with
  | Some d => acc * radix + d
  | None => acc * radix
  end%N.

(** The [k] least significant digits of [n] in a radix, most significant
    first. *)
Fixpoint fixedDigits (k : nat) (radix n : N) : jsstring :=
  match k with
  | O => []
  | S k' => fixedDigits k' radix (n / radix) ++ [digitChar (n mod radix)]
  end.

(** A character that is a digit of the radix. *)
Definition validIn (radix : N) (c : ascii) : bool :=
  match digitIn radix c with Some _ => true | None => false end.

(** The digit character [toString] prints for the value of a character. *)
Definition normDigit (c : ascii) : ascii :=
  match digitVal c with Some d => digitChar d | None => c end.

(** The number that a sequence of bytes denotes, most significant first. *)
Definition beValue (bs : Uint8Array) : N :=
  fold_left (fun acc b => acc * 256 + Byte.to_N b)%N bs 0%N.

(** The address that the low 20 bytes of the digest of [bytes] spell. *)
Definition addressOfDigest (bytes : Uint8Array) : result jsstring :=
  getChecksumAddress (hexlify (skipn 12 (Keccak.keccak_256 bytes))).

(** Inputs for the instances below. *)
Definition zeros (n : nat) : BytesLike := ByteArray (repeat Byte.x00 n).
Definition sampleTransaction : Transaction :=
  {| from := sampleChecksummed; nonce := 5 |}.

(** The same sender at nonce 0, the one nonce whose bytes start with a zero
    byte. *)
Definition zeroNonceTransaction : Transaction :=
  {| from := sampleChecksummed; nonce := 0 |}.

(** The RLP encoding of a byte string. *)
Definition rlpItem (bs : Uint8Array) : Uint8Array :=
  match bs with
  | [b] => if (Byte.to_N b <=? 0x7f)%N then bs else rlpHeader 0x80 0xb7 bs
  | _ => rlpHeader 0x80 0xb7 bs
  end.

(** The first byte that a string of hex digits denotes. *)
Definition firstByte (d : jsstring) : N :=
  match bytesOfHex d with
  | b :: _ => Byte.to_N b
  | [] => 0%N
  end.

(** A table entry whose two bounds are hex numerals. *)
Definition hexNumeral (s : jsstring) : bool :=
  forallb isHexDigit s && negb (length s =? 0).
Definition hexBounds (obj : ShardEntry) : bool :=
  hexNumeral (fst (byte obj)) && hexNumeral (snd (byte obj)).

(** [v] lies between the two bounds of the entry, read in base 16. *)
Definition shardCovers (v : N) (obj : ShardEntry) : bool :=
  (fromDigits 16 (fst (byte obj)) <=? v)%N
  && (v <=? fromDigits 16 (snd (byte obj)))%N.

(** The shard resolver as section 4.4 of the specification words it: the
    first four hex characters of the address are read as a decimal numeral,
    and the first entry whose bounds enclose that number is returned. *)
Definition decimalNumeral (s : jsstring) : jsnumber :=
  if forallb isDigit s && negb (length s =? 0)
  then Finite (inject_Z (Z.of_N (fromDigits 10 s)))
  else NaN.
Definition specShardValue (address : jsstring) : jsnumber :=
  decimalNumeral (firstn 4 (stripHexPrefix address)).
Definition specResolveShard (ShardData : list ShardEntry) (address : jsstring)
  : option jsstring :=
  option_map shard
    (find (fun obj =>
             jsGe (specShardValue address) (Number (str "0x" ++ fst (byte obj)))
             && jsLe (specShardValue address) (Number (str "0x" ++ snd (byte obj))))
          ShardData).

(** A table of one entry and an address, for the instances below. *)
Definition sampleTable : list ShardEntry :=
  [ {| shard := str "cyprus1"; byte := (str "0014", str "001d") |} ].
Definition sampleAddress : jsstring :=
  str "0x1400000000000000000000000000000000000000".

(** The checksum of section 4.1 of the specification, on numbers: the string
    is put in upper case and rotated so that the country code and "00" come
    last; each letter counts for two decimal digits (A = 10, ..., Z = 35) and
    each digit for itself; the checksum is 98 minus the number read, modulo
    97, written with two digits. *)
Definition ibanRotated (address : jsstring) : jsstring :=
  let upper := toUpperCase address in
  skipn 4 upper ++ firstn 2 upper ++ str "00".

Definition ibanStep (acc : N) (c : ascii) : N :=
  if isDigit c then acc * 10 + (code c - 48)
  else if isUpper c then acc * 100 + (code c - 55)
  else acc.

Definition ibanNumber (address : jsstring) : N :=
  fold_left ibanStep (ibanRotated address) 0%N.

Definition twoDigits (n : N) : jsstring :=
  [digitChar (n / 10); digitChar (n mod 10)].

(** The characters on which the case mappings of the embedding are those of
    JavaScript. *)
Definition isAscii (c : ascii) : bool := (code c <? 128)%N.

(** The digits that [ibanLookup] contributes for a character. *)
Definition ibanChunk (c : ascii) : jsstring :=
  match ibanLookup c with Some t => t | None => [] end.
Definition ibanScale (c : ascii) : N :=
  if isDigit c then 10 else if isUpper c then 100 else 1.
Definition ibanVal (c : ascii) : N :=
  if isDigit c then code c - 48 else if isUpper c then code c - 55 else 0.

(** An ICAP string for the instances below. *)
Definition sampleIcap : jsstring := str "XE65GB6LDNXYOFTX0NSV3FUWKOWIXAMJK36".

(** The ICAP payload of a number: its base-36 digits in upper case, padded
    to 30 characters. *)
Definition icapPayload (n : N) : jsstring :=
  padZeros 30 (toUpperCase (toStringRadix 36 n)).

(** A salt that the search of [grindContractAddress] passes over: its
    candidate address is computed without failure and resolves to no shard,
    or to another shard than the one looked for. *)
Definition skipped (ShardData : list ShardEntry)
           (nonceBytes matchShard sendAddress bytecode : jsstring)
           (salt : Uint8Array) : Prop :=
  exists contractBytes address,
    grindCandidate nonceBytes sendAddress bytecode salt
    = Return (contractBytes, address)
    /\ getShardFromAddress ShardData address <> Some matchShard.

(** A table whose only entry covers every first byte, for the instances
    below. *)
Definition wideTable : list ShardEntry :=
  [ {| shard := str "zone"; byte := (str "00", str "ff") |} ].

(** A table of two entries that share the first bytes between them, for the
    instances below. *)
Definition splitTable : list ShardEntry :=
  [ {| shard := str "low"; byte := (str "00", str "7f") |};
    {| shard := str "high"; byte := (str "80", str "ff") |} ].

(** A mis-cased spelling of [sampleChecksummed], for the instances below:
    its first letter is in upper case. *)
Definition sampleMiscased : jsstring :=
  str "8Ba1f109551bD432803012645Ac136ddd64DBA72".

(** An ICAP string whose 31 characters after the checksum denote a number of
    more than 160 bits, for the instances below. *)
Definition sampleIcapTooLarge : jsstring := str "XE54ZZZZZZZZZZZZZZZZZZZZZZZZZZZZZZZ".

(** The 32 bytes that [formatBytes32String] makes of the decimal text of a
    nonce. *)
Definition nonce32 (nonce : N) : Uint8Array :=
  firstn 32 (map byte_of_char (toStringRadix 10 nonce) ++ repeat Byte.x00 32).

(** * Properties *)

(** ** Characters *)

Ltac each_char c := destruct c as [[] [] [] [] [] [] [] []].

Lemma lowerChar_idem (c : ascii) : lowerChar (lowerChar c) = lowerChar c.
Proof. each_char c; reflexivity. Qed.

Lemma lower_upper_lower (c : ascii) :
  lowerChar (upperChar (lowerChar c)) = lowerChar c.
Proof. each_char c; reflexivity. Qed.

Lemma isHexDigit_lowerChar (c : ascii) :
  isHexDigit (lowerChar c) = isHexDigit c.
Proof. each_char c; reflexivity. Qed.

Lemma isHexDigit_upperChar (c : ascii) :
  isHexDigit (upperChar c) = isHexDigit c.
Proof. each_char c; reflexivity. Qed.

Lemma digitVal_lowerChar (c : ascii) : digitVal (lowerChar c) = digitVal c.
Proof. each_char c; reflexivity. Qed.

Lemma digitVal_upperChar (c : ascii) : digitVal (upperChar c) = digitVal c.
Proof. each_char c; reflexivity. Qed.

Lemma toLowerCase_length (s : jsstring) : length (toLowerCase s) = length s.
Proof. apply length_map. Qed.

Lemma toLowerCase_idem (s : jsstring) : toLowerCase (toLowerCase s) = toLowerCase s.
Proof.
  unfold toLowerCase. rewrite map_map. apply map_ext, lowerChar_idem.
Qed.

Lemma forallb_isHexDigit_lower (s : jsstring) :
  forallb isHexDigit (toLowerCase s) = forallb isHexDigit s.
Proof.
  induction s as [|c s IH]; simpl; [reflexivity|].
  now rewrite isHexDigit_lowerChar, IH.
Qed.

Lemma eqb_str_true (s t : jsstring) : eqb_str s t = true <-> s = t.
Proof. unfold eqb_str. destruct (list_eq_dec ascii_dec s t); split; congruence. Qed.

Lemma eqb_str_refl (s : jsstring) : eqb_str s s = true.
Proof. now apply eqb_str_true. Qed.

(** ** Bytes and their hex digits *)

Lemma byte_of_to_N (b : Init.Byte.byte) : byte_of_N (Byte.to_N b) = b.
Proof. destruct b; reflexivity. Qed.

Lemma parseInt_hexOfByte (b : Init.Byte.byte) :
  parseInt (hexOfByte b) 16 = Some (Z.of_N (Byte.to_N b)).
Proof. destruct b; reflexivity. Qed.

Lemma isHexDigit_hexOfByte (b : Init.Byte.byte) :
  forallb isHexDigit (hexOfByte b) = true.
Proof. destruct b; reflexivity. Qed.

Lemma hexOfByte_lower (b : Init.Byte.byte) :
  toLowerCase (hexOfByte b) = hexOfByte b.
Proof. destruct b; reflexivity. Qed.

Lemma bytesOfHex_hex (bs : Uint8Array) :
  bytesOfHex (flat_map hexOfByte bs) = bs.
Proof.
  induction bs as [|b bs IH]; [reflexivity|].
  change (flat_map hexOfByte (b :: bs))
    with (digitChar (Byte.to_N b / 16) :: digitChar (Byte.to_N b mod 16)
            :: flat_map hexOfByte bs).
  cbn [bytesOfHex].
  change [digitChar (Byte.to_N b / 16); digitChar (Byte.to_N b mod 16)]
    with (hexOfByte b).
  rewrite parseInt_hexOfByte, N2Z.id, byte_of_to_N, IH. reflexivity.
Qed.

Lemma hex_length (bs : Uint8Array) :
  length (flat_map hexOfByte bs) = 2 * length bs.
Proof. induction bs as [|b bs IH]; simpl; lia. Qed.

Lemma hex_isHexDigit (bs : Uint8Array) :
  forallb isHexDigit (flat_map hexOfByte bs) = true.
Proof.
  induction bs as [|b bs IH]; [reflexivity|].
  change (flat_map hexOfByte (b :: bs)) with (hexOfByte b ++ flat_map hexOfByte bs).
  rewrite forallb_app, isHexDigit_hexOfByte, IH. reflexivity.
Qed.

Lemma hex_lower (bs : Uint8Array) :
  toLowerCase (flat_map hexOfByte bs) = flat_map hexOfByte bs.
Proof.
  induction bs as [|b bs IH]; [reflexivity|].
  change (flat_map hexOfByte (b :: bs)) with (hexOfByte b ++ flat_map hexOfByte bs).
  unfold toLowerCase in *. rewrite map_app.
  fold (toLowerCase (hexOfByte b)). now rewrite hexOfByte_lower, IH.
Qed.

Lemma hex_skipn (k : nat) (bs : Uint8Array) :
  skipn (2 * k) (flat_map hexOfByte bs) = flat_map hexOfByte (skipn k bs).
Proof.
  revert bs. induction k as [|k IH]; intros bs; [reflexivity|].
  destruct bs as [|b bs]; [reflexivity|].
  replace (2 * S k) with (S (S (2 * k))) by lia. simpl. apply IH.
Qed.

Lemma isHexString_hexlify (bs : Uint8Array) : isHexString (hexlify bs) None = true.
Proof. unfold hexlify. simpl. now rewrite hex_isHexDigit. Qed.

Lemma arrayify_hexlify (bs : Uint8Array) :
  arrayify (HexString (hexlify bs)) = Return bs.
Proof.
  unfold arrayify. rewrite isHexString_hexlify.
  unfold hexlify, substringFrom. simpl skipn.
  rewrite hex_length, bytesOfHex_hex.
  replace (Nat.even (2 * length bs)) with true; [reflexivity|].
  symmetry. apply Nat.even_spec. now exists (length bs).
Qed.

Lemma keccak_256_length (msg : Uint8Array) : length (Keccak.keccak_256 msg) = 32.
Proof. unfold Keccak.keccak_256, Keccak.squeeze. now rewrite length_map, length_seq. Qed.

Lemma keccak256_bytes (bs : Uint8Array) :
  keccak256 (ByteArray bs) = Return (hexlify (Keccak.keccak_256 bs)).
Proof. reflexivity. Qed.

(** ** The case-adjustment loop of [getChecksumAddress] *)

Lemma setNth_length {A} (i : nat) (x : A) (l : list A) :
  length (setNth i x l) = length l.
Proof.
  revert i. induction l as [|a l IH]; intros [|i]; simpl; auto.
Qed.

Lemma nth_setNth {A} (i j : nat) (x d : A) (l : list A) :
  i < length l ->
  nth j (setNth i x l) d = if j =? i then x else nth j l d.
Proof.
  revert i j. induction l as [|a l IH]; intros i j Hi; simpl in Hi; [lia|].
  destruct i as [|i], j as [|j]; simpl; auto.
  apply IH. lia.
Qed.

Lemma upperAt_length (i : nat) (l : jsstring) : length (upperAt i l) = length l.
Proof.
  unfold upperAt. destruct (nth_error l i); [apply setNth_length|reflexivity].
Qed.

Lemma nth_upperAt (i j : nat) (d : ascii) (l : jsstring) :
  j < length l ->
  nth j (upperAt i l) d = if j =? i then upperChar (nth j l d) else nth j l d.
Proof.
  intros Hj. unfold upperAt.
  destruct (nth_error l i) as [c|] eqn:E.
  - assert (Hi : i < length l) by (apply nth_error_Some; congruence).
    rewrite nth_setNth by exact Hi.
    destruct (Nat.eqb_spec j i) as [->|]; [|reflexivity].
    now rewrite (nth_error_nth _ _ d E).
  - apply nth_error_None in E.
    destruct (Nat.eqb_spec j i); [lia|reflexivity].
Qed.

Lemma digestNibble_even (hashed : Uint8Array) (k : nat) :
  N.shiftr (Byte.to_N (nth ((2 * k) / 2) hashed Byte.x00)) 4
  = digestNibble hashed (2 * k).
Proof.
  unfold digestNibble.
  replace (Nat.even (2 * k)) with true
    by (symmetry; apply Nat.even_spec; now exists k).
  now rewrite N.shiftr_div_pow2.
Qed.

Lemma digestNibble_odd (hashed : Uint8Array) (k : nat) :
  N.land (Byte.to_N (nth ((2 * k) / 2) hashed Byte.x00)) 0x0f
  = digestNibble hashed (2 * k + 1).
Proof.
  unfold digestNibble.
  replace (Nat.even (2 * k + 1)) with false
    by (symmetry; rewrite Nat.add_1_r, Nat.even_succ, <- Nat.negb_even;
        apply negb_false_iff, Nat.even_spec; now exists k).
  replace ((2 * k + 1) / 2) with k
    by (apply (Nat.div_unique _ 2 k 1); lia).
  replace ((2 * k) / 2) with k
    by (apply (Nat.div_unique _ 2 k 0); lia).
  change 0x0f%N with (N.ones 4). now rewrite N.land_ones.
Qed.

Lemma checksumStep_length (hashed : Uint8Array) (chars : jsstring) (i : nat) :
  length (checksumStep hashed chars i) = length chars.
Proof.
  unfold checksumStep.
  repeat match goal with |- context [if ?b then _ else _] => destruct b end;
    now rewrite ?upperAt_length.
Qed.

Lemma nth_checksumStep (hashed : Uint8Array) (chars : jsstring) (k j : nat) (d : ascii) :
  j < length chars ->
  nth j (checksumStep hashed chars (2 * k)) d
  = if (j =? 2 * k) || (j =? 2 * k + 1)
    then caseAt hashed j (nth j chars d) else nth j chars d.
Proof.
  intros Hj. unfold checksumStep.
  rewrite digestNibble_even, digestNibble_odd. unfold caseAt.
  assert (C : j = 2 * k \/ j = 2 * k + 1 \/ (j <> 2 * k /\ j <> 2 * k + 1)) by lia.
  destruct C as [E|[E|[N0 N1]]].
  - rewrite <- E. rewrite Nat.eqb_refl. simpl orb.
    assert (F : (j =? j + 1) = false) by (apply Nat.eqb_neq; lia).
    destruct (8 <=? digestNibble hashed (j + 1))%N;
      destruct (8 <=? digestNibble hashed j)%N;
      rewrite ?nth_upperAt by (rewrite ?upperAt_length; exact Hj);
      rewrite ?F, ?Nat.eqb_refl; reflexivity.
  - rewrite <- E.
    assert (F : (j =? 2 * k) = false) by (apply Nat.eqb_neq; lia).
    rewrite F, Nat.eqb_refl. simpl orb.
    destruct (8 <=? digestNibble hashed j)%N;
      destruct (8 <=? digestNibble hashed (2 * k))%N;
      rewrite ?nth_upperAt by (rewrite ?upperAt_length; exact Hj);
      rewrite ?F, ?Nat.eqb_refl; reflexivity.
  - apply Nat.eqb_neq in N0, N1. rewrite N0, N1. simpl orb.
    destruct (8 <=? digestNibble hashed (2 * k + 1))%N;
      destruct (8 <=? digestNibble hashed (2 * k))%N;
      rewrite ?nth_upperAt by (rewrite ?upperAt_length; exact Hj);
      rewrite ?N0, ?N1; reflexivity.
Qed.

Lemma fold_checksumStep (hashed : Uint8Array) (n : nat) (chars : jsstring) :
  length (fold_left (checksumStep hashed) (map (fun k => 2 * k) (seq 0 n)) chars)
  = length chars
  /\ forall j d, j < length chars ->
       nth j (fold_left (checksumStep hashed) (map (fun k => 2 * k) (seq 0 n)) chars) d
       = if j <? 2 * n then caseAt hashed j (nth j chars d) else nth j chars d.
Proof.
  induction n as [|n [IHl IHn]].
  - split; [reflexivity|]. intros j d _. reflexivity.
  - rewrite seq_S, map_app, fold_left_app.
    cbn [map fold_left Nat.add].
    split; [now rewrite checksumStep_length|].
    intros j d Hj.
    rewrite nth_checksumStep by (rewrite IHl; exact Hj).
    rewrite IHn by exact Hj.
    destruct (Nat.eqb_spec j (2 * n)); destruct (Nat.eqb_spec j (2 * n + 1));
      destruct (Nat.ltb_spec j (2 * n)); destruct (Nat.ltb_spec j (2 * S n));
      try lia; reflexivity.
Qed.

(** ** getChecksumAddress on 40 hex digits *)

Lemma hex40_length (d : jsstring) : hex40 d = true -> length d = 40.
Proof. unfold hex40. intros H. apply andb_prop in H as [H _]. now apply Nat.eqb_eq. Qed.

Lemma hex40_digits (d : jsstring) : hex40 d = true -> forallb isHexDigit d = true.
Proof. unfold hex40. intros H. now apply andb_prop in H as [_ H]. Qed.

Lemma hex40_lower (d : jsstring) : hex40 (toLowerCase d) = hex40 d.
Proof. unfold hex40. now rewrite toLowerCase_length, forallb_isHexDigit_lower. Qed.

Lemma isHexString_prefixed (d : jsstring) :
  hex40 d = true -> isHexString (str "0x" ++ d) (Some 20) = true.
Proof.
  intros H. cbn [str String.list_ascii_of_string app isHexString].
  rewrite (hex40_digits _ H). cbn [length]. rewrite (hex40_length _ H). reflexivity.
Qed.

Lemma isHexString_20_inv (s : jsstring) :
  isHexString s (Some 20) = true -> exists d, s = str "0x" ++ d /\ hex40 d = true.
Proof.
  unfold isHexString. intros H.
  destruct s as [|c0 [|c1 d]]; try discriminate; [destruct c0 as [[][][][][][][][]]; discriminate|].
  each_char c0; try discriminate; each_char c1; try discriminate.
  exists d. split; [reflexivity|].
  apply andb_prop in H as [H1 H2]. unfold hex40. rewrite H1, andb_true_r.
  cbn [length] in H2. apply Nat.eqb_eq in H2. apply Nat.eqb_eq. lia.
Qed.

Lemma getChecksumAddress_eq (d : jsstring) :
  hex40 d = true ->
  getChecksumAddress (str "0x" ++ d) = Return (str "0x" ++ checksumChars d).
Proof.
  intros H. unfold getChecksumAddress.
  rewrite (isHexString_prefixed _ H). cbn [negb].
  change (toLowerCase (str "0x" ++ d)) with (str "0x" ++ toLowerCase d).
  change (substringFrom 2 (str "0x" ++ toLowerCase d)) with (toLowerCase d).
  rewrite firstn_all2 by (rewrite toLowerCase_length, (hex40_length _ H); lia).
  rewrite keccak256_bytes. cbn [bind].
  rewrite arrayify_hexlify. cbn [bind]. unfold checksumChars. cbv zeta.
  f_equal.
Qed.

Lemma getChecksumAddress_invalid (s : jsstring) :
  isHexString s (Some 20) = false -> getChecksumAddress s = Throw InvalidAddress.
Proof. intros H. unfold getChecksumAddress. now rewrite H. Qed.

Lemma checksumChars_length (d : jsstring) : length (checksumChars d) = length d.
Proof.
  unfold checksumChars, evenIndices.
  now rewrite (proj1 (fold_checksumStep _ _ _)), toLowerCase_length.
Qed.

Lemma checksumChars_nth (d : jsstring) (i : nat) (c : ascii) :
  length d = 40 -> i < 40 ->
  nth i (checksumChars d) c
  = caseAt (Keccak.keccak_256 (map byte_of_char (toLowerCase d))) i
           (nth i (toLowerCase d) c).
Proof.
  intros Hl Hi. unfold checksumChars, evenIndices.
  rewrite (proj2 (fold_checksumStep _ _ _)) by (rewrite toLowerCase_length; lia).
  destruct (Nat.ltb_spec i (2 * 20)); [reflexivity|lia].
Qed.

Lemma checksumChars_lower (d : jsstring) : checksumChars (toLowerCase d) = checksumChars d.
Proof. unfold checksumChars. now rewrite toLowerCase_idem. Qed.

Lemma nth_toLowerCase (s : jsstring) (i : nat) :
  nth i (toLowerCase s) (lowerChar "000") = lowerChar (nth i s "000"%char).
Proof. unfold toLowerCase. apply map_nth. Qed.

Lemma toLowerCase_checksumChars (d : jsstring) :
  length d = 40 -> toLowerCase (checksumChars d) = toLowerCase d.
Proof.
  intros Hl.
  apply (nth_ext _ _ (lowerChar "000") (lowerChar "000")).
  - now rewrite !toLowerCase_length, checksumChars_length.
  - intros i Hi. rewrite toLowerCase_length, checksumChars_length, Hl in Hi.
    rewrite !nth_toLowerCase, checksumChars_nth by assumption.
    change "000"%char with (lowerChar "000") at 2. rewrite nth_toLowerCase.
    unfold caseAt. destruct (_ <=? _)%N; [apply lower_upper_lower|apply lowerChar_idem].
Qed.

(** ** Letter case and the mixed-case test *)

Lemma isUpperHex_isUpper (c : ascii) : isUpperHex c = true -> isUpper c = true.
Proof. each_char c; intros H; try discriminate H; reflexivity. Qed.

Lemma isLowerHex_isLower (c : ascii) : isLowerHex c = true -> isLower c = true.
Proof. each_char c; intros H; try discriminate H; reflexivity. Qed.

Lemma anyThen_none (p : ascii -> bool) (s : jsstring) :
  forallb (fun c => negb (p c)) s = true -> anyThen p s = false.
Proof.
  induction s as [|c s IH]; [reflexivity|]. cbn [forallb anyThen].
  intros H. apply andb_prop in H as [H1 H2].
  apply negb_true_iff in H1. rewrite H1, (IH H2). now rewrite andb_false_r.
Qed.

Lemma findPair_no_first (p q : ascii -> bool) (s : jsstring) :
  forallb (fun c => negb (p c)) s = true -> findPair p q s = false.
Proof.
  induction s as [|c s IH]; [reflexivity|]. cbn [forallb findPair].
  intros H. apply andb_prop in H as [H1 H2].
  apply negb_true_iff in H1. now rewrite H1, (IH H2).
Qed.

Lemma findPair_no_second (p q : ascii -> bool) (s : jsstring) :
  forallb (fun c => negb (q c)) s = true -> findPair p q s = false.
Proof.
  induction s as [|c s IH]; [reflexivity|]. cbn [forallb findPair].
  intros H. apply andb_prop in H as [H1 H2].
  rewrite (anyThen_none _ _ H2), (IH H2). now rewrite andb_false_r.
Qed.

Lemma forallb_impl {A} (p q : A -> bool) (l : list A) :
  (forall a, p a = true -> q a = true) ->
  forallb p l = true -> forallb q l = true.
Proof.
  intros I. induction l as [|a l IH]; [reflexivity|]. cbn [forallb].
  intros H. apply andb_prop in H as [H1 H2]. now rewrite (I _ H1), (IH H2).
Qed.

Lemma no_upperHex (s : jsstring) :
  allLowerCase s = true -> forallb (fun c => negb (isUpperHex c)) s = true.
Proof.
  apply forallb_impl. intros c H. apply negb_true_iff in H. apply negb_true_iff.
  destruct (isUpperHex c) eqn:E; [|reflexivity].
  apply isUpperHex_isUpper in E. congruence.
Qed.

Lemma no_lowerHex (s : jsstring) :
  allUpperCase s = true -> forallb (fun c => negb (isLowerHex c)) s = true.
Proof.
  apply forallb_impl. intros c H. apply negb_true_iff in H. apply negb_true_iff.
  destruct (isLowerHex c) eqn:E; [|reflexivity].
  apply isLowerHex_isLower in E. congruence.
Qed.

Lemma matchMixedCase_prefix (d : jsstring) :
  matchMixedCase (str "0x" ++ d) = matchMixedCase d.
Proof. reflexivity. Qed.

Lemma matchMixedCase_lower (s : jsstring) :
  allLowerCase s = true -> matchMixedCase s = false.
Proof.
  intros H. apply no_upperHex in H. unfold matchMixedCase.
  now rewrite (findPair_no_first _ _ _ H), (findPair_no_second _ _ _ H).
Qed.

Lemma matchMixedCase_upper (s : jsstring) :
  allUpperCase s = true -> matchMixedCase s = false.
Proof.
  intros H. apply no_lowerHex in H. unfold matchMixedCase.
  now rewrite (findPair_no_first _ _ _ H), (findPair_no_second _ _ _ H).
Qed.

(** ** The hex branch of getAddress *)

Lemma hex40_not_prefixed (d : jsstring) :
  hex40 d = true -> eqb_str (substring 0 2 d) (str "0x") = false.
Proof.
  intros H. pose proof (hex40_digits _ H) as D.
  pose proof (hex40_length _ H) as L.
  destruct d as [|c0 [|c1 d]]; try discriminate L.
  cbn [forallb] in D. apply andb_prop in D as [_ D]. apply andb_prop in D as [D _].
  destruct (eqb_str (substring 0 2 (c0 :: c1 :: d)) (str "0x")) eqn:E; [|reflexivity].
  apply eqb_str_true in E. cbn in E. injection E as _ E1. subst c1. discriminate D.
Qed.

Lemma hex40_prefixed_false (d : jsstring) :
  hex40 d = true -> hex40 (str "0x" ++ d) = false.
Proof.
  intros H. unfold hex40. cbn [str String.list_ascii_of_string app length].
  rewrite (hex40_length _ H). reflexivity.
Qed.

Lemma matchHexAddress_inv (s : jsstring) :
  matchHexAddress s = true ->
  exists d, hex40 d = true /\ (s = d \/ s = str "0x" ++ d).
Proof.
  unfold matchHexAddress. intros H. apply orb_prop in H as [H|H].
  - exists s. auto.
  - destruct s as [|c0 [|c1 d]]; try discriminate;
      [destruct c0 as [[][][][][][][][]]; discriminate|].
    each_char c0; try discriminate; each_char c1; try discriminate.
    exists d. auto.
Qed.

Lemma getAddress_bare (d : jsstring) :
  hex40 d = true -> getAddress d = hexPath d.
Proof.
  intros H. unfold getAddress, matchHexAddress.
  rewrite H. cbn [orb]. rewrite (hex40_not_prefixed _ H). cbn [negb].
  rewrite (getChecksumAddress_eq _ H). reflexivity.
Qed.

Lemma matchHexAddress_prefixed (d : jsstring) :
  hex40 d = true -> matchHexAddress (str "0x" ++ d) = true.
Proof.
  intros H. unfold matchHexAddress.
  change (str "0x" ++ d) with ("0"%char :: "x"%char :: d).
  cbv beta iota. rewrite H. apply orb_true_r.
Qed.

Lemma getAddress_prefixed (d : jsstring) :
  hex40 d = true -> getAddress (str "0x" ++ d) = hexPath d.
Proof.
  intros H. unfold getAddress.
  rewrite (matchHexAddress_prefixed _ H).
  change (str "0x" ++ d) with ("0"%char :: "x"%char :: d).
  change (eqb_str (substring 0 2 ("0"%char :: "x"%char :: d)) (str "0x")) with true.
  cbn [negb].
  change ("0"%char :: "x"%char :: d) with (str "0x" ++ d).
  rewrite (getChecksumAddress_eq _ H). reflexivity.
Qed.

Lemma getAddress_hex (d s : jsstring) :
  hex40 d = true -> s = d \/ s = str "0x" ++ d -> getAddress s = hexPath d.
Proof.
  intros H [->| ->]; [now apply getAddress_bare|now apply getAddress_prefixed].
Qed.

Lemma hexPath_inv (d r : jsstring) :
  hexPath d = Return r -> r = str "0x" ++ checksumChars d.
Proof.
  unfold hexPath. destruct (_ && _); [discriminate|]. now intros [= <-].
Qed.

Lemma hexPath_uniform (d : jsstring) :
  allLowerCase d = true \/ allUpperCase d = true ->
  hexPath d = Return (str "0x" ++ checksumChars d).
Proof.
  intros U. unfold hexPath. rewrite matchMixedCase_prefix.
  replace (matchMixedCase d) with false; [reflexivity|].
  symmetry. destruct U; [now apply matchMixedCase_lower|now apply matchMixedCase_upper].
Qed.

Lemma hex40_checksumChars (d : jsstring) :
  hex40 d = true -> hex40 (checksumChars d) = true.
Proof.
  intros H. rewrite <- hex40_lower, toLowerCase_checksumChars, hex40_lower; auto.
  now apply hex40_length.
Qed.

Lemma checksumChars_idem (d : jsstring) :
  length d = 40 -> checksumChars (checksumChars d) = checksumChars d.
Proof.
  intros H. rewrite <- (checksumChars_lower (checksumChars d)).
  rewrite toLowerCase_checksumChars by exact H. apply checksumChars_lower.
Qed.

Lemma hexPath_checksummed (d : jsstring) :
  hex40 d = true ->
  hexPath (checksumChars d) = Return (str "0x" ++ checksumChars d).
Proof.
  intros H. unfold hexPath.
  rewrite (checksumChars_idem _ (hex40_length _ H)), eqb_str_refl.
  now rewrite andb_false_r.
Qed.

(** ** Hex digits and the bytes they denote *)

Ltac splits := repeat match goal with |- _ /\ _ => split end.

(** The digest is never computed on an open term. *)
Opaque Keccak.keccak_256.

Lemma toLowerCase_app (s t : jsstring) :
  toLowerCase (s ++ t) = toLowerCase s ++ toLowerCase t.
Proof. apply map_app. Qed.

(** A decidable property of characters holds of all of them as soon as it
    holds of the 256 of [allChars]. *)
Lemma all_chars (p : ascii -> bool) :
  forallb p allChars = true -> forall c, p c = true.
Proof.
  intros H c. rewrite forallb_forall in H. apply H.
  rewrite <- (ascii_nat_embedding c). unfold allChars.
  apply in_map, in_seq. pose proof (nat_ascii_bounded c). lia.
Qed.

Lemma all_hexDigits (p : ascii -> bool) :
  forallb (fun c => if isHexDigit c then p c else true) allChars = true ->
  forall c, isHexDigit c = true -> p c = true.
Proof.
  intros H c Hc. pose proof (all_chars _ H c) as P. cbv beta in P.
  now rewrite Hc in P.
Qed.

Lemma all_hexPairs (p : ascii -> ascii -> bool) :
  forallb (fun h => if isHexDigit h
                    then forallb (fun l => if isHexDigit l then p h l else true)
                                 allChars
                    else true)
          allChars = true ->
  forall h l, isHexDigit h = true -> isHexDigit l = true -> p h l = true.
Proof.
  intros H h l Hh Hl.
  pose proof (all_hexDigits _ H h Hh) as P. cbv beta in P.
  exact (all_hexDigits _ P l Hl).
Qed.

Lemma hexOfByte_pair (h l : ascii) :
  isHexDigit h = true -> isHexDigit l = true ->
  hexOfByte (byteOfPair h l) = [lowerChar h; lowerChar l].
Proof.
  intros Hh Hl. apply eqb_str_true.
  revert h l Hh Hl.
  apply (all_hexPairs
           (fun h l => eqb_str (hexOfByte (byteOfPair h l)) [lowerChar h; lowerChar l])).
  vm_compute. reflexivity.
Qed.

Lemma bytesOfHex_cons (h l : ascii) (rest : jsstring) :
  bytesOfHex (h :: l :: rest) = byteOfPair h l :: bytesOfHex rest.
Proof. unfold byteOfPair. cbn [bytesOfHex]. now destruct (parseInt [h; l] 16). Qed.

Lemma hex_bytesOfHex (n : nat) (d : jsstring) :
  length d = 2 * n -> forallb isHexDigit d = true ->
  flat_map hexOfByte (bytesOfHex d) = toLowerCase d.
Proof.
  revert d. induction n as [|n IH]; intros d L D.
  - destruct d; [reflexivity|discriminate L].
  - destruct d as [|h [|l d]]; try (cbn in L; lia).
    cbn [forallb] in D. apply andb_prop in D as [Hh D]. apply andb_prop in D as [Hl D].
    rewrite bytesOfHex_cons.
    change (flat_map hexOfByte (byteOfPair h l :: bytesOfHex d))
      with (hexOfByte (byteOfPair h l) ++ flat_map hexOfByte (bytesOfHex d)).
    rewrite (hexOfByte_pair _ _ Hh Hl), IH; [reflexivity| cbn in L; lia | exact D].
Qed.

Lemma bytesOfHex_length (n : nat) (d : jsstring) :
  length d = 2 * n -> length (bytesOfHex d) = n.
Proof.
  revert d. induction n as [|n IH]; intros d L.
  - destruct d; [reflexivity|discriminate L].
  - destruct d as [|h [|l d]]; try (cbn in L; lia).
    rewrite bytesOfHex_cons. cbn [length]. f_equal. apply IH. cbn in L. lia.
Qed.

Lemma bytesOfHex_lower (n : nat) (d : jsstring) :
  length d = 2 * n -> forallb isHexDigit d = true ->
  bytesOfHex (toLowerCase d) = bytesOfHex d.
Proof.
  intros L D. rewrite <- (hex_bytesOfHex n d L D). apply bytesOfHex_hex.
Qed.

Lemma hex40_hex (value : Uint8Array) :
  length value = 20 -> hex40 (flat_map hexOfByte value) = true.
Proof.
  intros L. unfold hex40. now rewrite hex_length, L, hex_isHexDigit.
Qed.

Lemma bytesOfHex_checksumChars (d : jsstring) :
  hex40 d = true -> bytesOfHex (checksumChars d) = bytesOfHex d.
Proof.
  intros H. pose proof (hex40_length _ H) as L.
  rewrite <- (bytesOfHex_lower 20 (checksumChars d)).
  - rewrite toLowerCase_checksumChars by exact L.
    apply (bytesOfHex_lower 20); [exact L|now apply hex40_digits].
  - now rewrite checksumChars_length.
  - apply hex40_digits. now apply hex40_checksumChars.
Qed.

Lemma arrayify_checksummed (d : jsstring) :
  hex40 d = true ->
  arrayify (HexString (str "0x" ++ checksumChars d)) = Return (bytesOfHex d).
Proof.
  intros H. unfold arrayify.
  pose proof (hex40_checksumChars _ H) as H'.
  change (str "0x" ++ checksumChars d) with ("0"%char :: "x"%char :: checksumChars d).
  unfold isHexString. cbv beta iota. rewrite (hex40_digits _ H'). cbn [andb].
  change (substringFrom 2 ("0"%char :: "x"%char :: checksumChars d))
    with (checksumChars d).
  rewrite (hex40_length _ H'). cbn [Nat.even].
  now rewrite bytesOfHex_checksumChars.
Qed.

Lemma getChecksumAddress_bytes (d : jsstring) :
  hex40 d = true ->
  getChecksumAddress (hexlify (bytesOfHex d)) = Return (str "0x" ++ checksumChars d).
Proof.
  intros H. unfold hexlify.
  rewrite (hex_bytesOfHex 20) by (auto using hex40_length, hex40_digits).
  rewrite getChecksumAddress_eq by now rewrite hex40_lower.
  now rewrite checksumChars_lower.
Qed.

(** ** The mixed-case checksum *)

(** C4: for every 20-byte value, [getChecksumAddress] returns "0x" followed by
    40 characters; character [i] is the lower-case hex digit [i] of the value,
    upper-cased exactly when the nibble of the 32-byte Keccak-256 digest of the
    40 lower-case digits (as ASCII bytes) that corresponds to it is 8 or more:
    the high nibble of byte [i / 2] for an even [i], the low nibble for an odd
    one.  The digits are those of the value: they are lower case and decode
    back to it. *)
Theorem getChecksumAddress_spec (value : Uint8Array) :
  length value = 20 ->
  let digits := flat_map hexOfByte value in
  let digest := Keccak.keccak_256 (map byte_of_char digits) in
  exists chars,
    getChecksumAddress (hexlify value) = Return (str "0x" ++ chars)
    /\ length chars = 40
    /\ length digest = 32
    /\ toLowerCase digits = digits
    /\ bytesOfHex digits = value
    /\ forall i, i < 40 ->
         nth i chars "0"%char
         = if (8 <=? digestNibble digest i)%N
           then upperChar (nth i digits "0"%char)
           else nth i digits "0"%char.
Proof.
  intros L digits digest.
  pose proof (hex40_hex _ L) as H.
  exists (checksumChars digits). splits.
  - unfold hexlify, digits. rewrite (getChecksumAddress_eq _ H). reflexivity.
  - rewrite checksumChars_length. now apply hex40_length.
  - apply keccak_256_length.
  - apply hex_lower.
  - apply bytesOfHex_hex.
  - intros i Hi.
    rewrite checksumChars_nth by (auto using hex40_length).
    unfold caseAt, digits, digest. now rewrite hex_lower.
Qed.

(** An instance of C4: the checksum form of [sampleBytes]. *)
Lemma getChecksumAddress_spec_sample :
  let digits := flat_map hexOfByte sampleBytes in
  let digest := Keccak.keccak_256 (map byte_of_char digits) in
  exists chars,
    getChecksumAddress (hexlify sampleBytes) = Return (str "0x" ++ chars)
    /\ length chars = 40
    /\ length digest = 32
    /\ toLowerCase digits = digits
    /\ bytesOfHex digits = sampleBytes
    /\ forall i, i < 40 ->
         nth i chars "0"%char
         = if (8 <=? digestNibble digest i)%N
           then upperChar (nth i digits "0"%char)
           else nth i digits "0"%char.
Proof. apply (getChecksumAddress_spec sampleBytes). reflexivity. Defined.

(** ** getAddress on 40 hex digits *)

(** C10: when [getAddress] accepts 40 hex digits, with or without the "0x"
    prefix, the string it returns differs from "0x" and the digits by letter
    case only, and it denotes the same 20 bytes as the digits. *)
Theorem getAddress_changes_case_only (d s r : jsstring) :
  hex40 d = true ->
  s = d \/ s = str "0x" ++ d ->
  getAddress s = Return r ->
  toLowerCase r = str "0x" ++ toLowerCase d
  /\ arrayify (HexString r) = Return (bytesOfHex d)
  /\ length (bytesOfHex d) = 20.
Proof.
  intros H S G. rewrite (getAddress_hex d s H S) in G.
  apply hexPath_inv in G. subst r. splits.
  - rewrite toLowerCase_app.
    now rewrite toLowerCase_checksumChars by now apply hex40_length.
  - now apply arrayify_checksummed.
  - apply bytesOfHex_length. now apply hex40_length.
Qed.

(** An instance of C10: the lower-case digits of [sampleBytes]. *)
Lemma getAddress_changes_case_only_sample :
  toLowerCase sampleChecksummed = str "0x" ++ toLowerCase sampleLower
  /\ arrayify (HexString sampleChecksummed) = Return (bytesOfHex sampleLower)
  /\ length (bytesOfHex sampleLower) = 20.
Proof.
  apply (getAddress_changes_case_only sampleLower sampleLower sampleChecksummed).
  - reflexivity.
  - left. reflexivity.
  - vm_compute. reflexivity.
Defined.

(** C3: 40 hex digits whose letters are all lower case, or all upper case,
    are accepted by [getAddress] with or without the "0x" prefix, whatever
    the checksum asks for; the result is the checksum form of the 20 bytes
    the digits denote. *)
Theorem getAddress_uniform_case (d s : jsstring) :
  hex40 d = true ->
  allLowerCase d = true \/ allUpperCase d = true ->
  s = d \/ s = str "0x" ++ d ->
  exists r,
    getAddress s = Return r
    /\ length (bytesOfHex d) = 20
    /\ getChecksumAddress (hexlify (bytesOfHex d)) = Return r.
Proof.
  intros H U S. exists (str "0x" ++ checksumChars d). splits.
  - rewrite (getAddress_hex d s H S). now apply hexPath_uniform.
  - apply bytesOfHex_length. now apply hex40_length.
  - now apply getChecksumAddress_bytes.
Qed.

(** An instance of C3: the upper-case digits of the example of section 8,
    with the prefix. *)
Lemma getAddress_uniform_case_sample :
  exists r,
    getAddress allCapsExample = Return r
    /\ length (bytesOfHex (skipn 2 allCapsExample)) = 20
    /\ getChecksumAddress (hexlify (bytesOfHex (skipn 2 allCapsExample))) = Return r.
Proof.
  apply (getAddress_uniform_case (skipn 2 allCapsExample) allCapsExample).
  - reflexivity.
  - right. reflexivity.
  - right. reflexivity.
Defined.

(** Against C2: on the example of section 8, [getAddress] returns a value;
    it does not fail, with [BadChecksum] or otherwise. *)
Lemma getAddress_allCapsExample_returns :
  exists r, getAddress allCapsExample = Return r.
Proof. eexists. vm_compute. reflexivity. Qed.

(** C2, as the code has it: the example of section 8 has no lower-case hex
    letter, so the mixed-case test does not match it, the checksum is not
    compared, and [getAddress] returns a value; that value is the input
    itself, which is its own checksum form. *)
Theorem getAddress_allCapsExample :
  matchMixedCase allCapsExample = false
  /\ getAddress allCapsExample = Return allCapsExample.
Proof. split; vm_compute; reflexivity. Qed.

(** ** Numerals *)

Lemma all_below (p : N -> bool) (m : nat) :
  forallb (fun i => p (N.of_nat i)) (seq 0 m) = true ->
  forall d, (d < N.of_nat m)%N -> p d = true.
Proof.
  intros H d Hd. rewrite forallb_forall in H.
  rewrite <- (N2Nat.id d). apply H, in_seq. lia.
Qed.

Lemma digitVal_digitChar (d : N) : (d < 36)%N -> digitVal (digitChar d) = Some d.
Proof.
  intros Hd.
  assert (E : (match digitVal (digitChar d) with
               | Some x => (x =? d)%N
               | None => false
               end) = true).
  { revert d Hd. apply (all_below _ 36). vm_compute. reflexivity. }
  destruct (digitVal (digitChar d)); [|discriminate E].
  apply N.eqb_eq in E. now subst.
Qed.

Lemma fromDigits_fold (radix : N) (s : jsstring) :
  fromDigits radix s = fold_left (digitStep radix) s 0%N.
Proof. reflexivity. Qed.

Lemma fromDigits_snoc (radix : N) (s : jsstring) (c : ascii) :
  fromDigits radix (s ++ [c]) = digitStep radix (fromDigits radix s) c.
Proof. rewrite !fromDigits_fold, fold_left_app. reflexivity. Qed.

Lemma fold_digitStep_zeros (radix : N) (m : nat) :
  fold_left (digitStep radix) (repeat "0"%char m) 0%N = 0%N.
Proof. induction m as [|m IH]; [reflexivity|]. cbn [repeat fold_left]. exact IH. Qed.

Lemma fromDigits_zeros (radix : N) (m : nat) (s : jsstring) :
  fromDigits radix (repeat "0"%char m ++ s) = fromDigits radix s.
Proof. now rewrite !fromDigits_fold, fold_left_app, fold_digitStep_zeros. Qed.

Lemma fromDigits_padZeros (radix : N) (k : nat) (s : jsstring) :
  fromDigits radix (padZeros k s) = fromDigits radix s.
Proof. apply fromDigits_zeros. Qed.

Lemma fold_digitStep_map (radix : N) (f : ascii -> ascii) (s : jsstring) (acc : N) :
  (forall c, digitVal (f c) = digitVal c) ->
  fold_left (digitStep radix) (map f s) acc = fold_left (digitStep radix) s acc.
Proof.
  intros F. revert acc. induction s as [|c s IH]; intros acc; [reflexivity|].
  cbn [map fold_left]. unfold digitStep at 2 4. rewrite F. apply IH.
Qed.

Lemma fromDigits_upper (radix : N) (s : jsstring) :
  fromDigits radix (toUpperCase s) = fromDigits radix s.
Proof. apply fold_digitStep_map, digitVal_upperChar. Qed.

Lemma fromDigits_lower (radix : N) (s : jsstring) :
  fromDigits radix (toLowerCase s) = fromDigits radix s.
Proof. apply fold_digitStep_map, digitVal_lowerChar. Qed.

Lemma fixedDigits_length (k : nat) (radix n : N) : length (fixedDigits k radix n) = k.
Proof.
  revert n. induction k as [|k IH]; intros n; [reflexivity|].
  cbn [fixedDigits]. rewrite length_app, IH. cbn. lia.
Qed.

Lemma fixedDigits_zero (k : nat) (radix : N) :
  radix <> 0%N -> fixedDigits k radix 0 = repeat "0"%char k.
Proof.
  intros R. induction k as [|k IH]; [reflexivity|].
  cbn [fixedDigits]. rewrite N.Div0.div_0_l, N.Div0.mod_0_l, IH.
  change [digitChar 0] with ["0"%char]. cbn [repeat]. apply eq_sym, repeat_cons.
Qed.

Lemma fixedDigits_forallb (p : ascii -> bool) (k : nat) (radix n : N) :
  radix <> 0%N ->
  (forall d, (d < radix)%N -> p (digitChar d) = true) ->
  forallb p (fixedDigits k radix n) = true.
Proof.
  intros R P. revert n. induction k as [|k IH]; intros n; [reflexivity|].
  cbn [fixedDigits]. rewrite forallb_app, IH. cbn [forallb].
  rewrite P; [reflexivity|now apply N.mod_lt].
Qed.

Lemma fixedDigits_value (k : nat) (radix n : N) :
  (0 < radix <= 36)%N -> (n < radix ^ N.of_nat k)%N ->
  fromDigits radix (fixedDigits k radix n) = n.
Proof.
  intros R. revert n. induction k as [|k IH]; intros n Hn.
  - cbn in Hn. cbn. lia.
  - cbn [fixedDigits]. rewrite fromDigits_snoc. unfold digitStep.
    rewrite digitVal_digitChar
      by (pose proof (N.mod_lt n radix); lia).
    rewrite IH.
    + pose proof (N.div_mod n radix). lia.
    + apply N.Div0.div_lt_upper_bound.
      rewrite Nat2N.inj_succ, N.pow_succ_r' in Hn. exact Hn.
Qed.

Lemma toDigits_fixed (fuel : nat) (radix n : N) (acc : jsstring) (k : nat) :
  (2 <= radix)%N -> (n < 2 ^ N.of_nat fuel)%N -> (n < radix ^ N.of_nat k)%N ->
  exists j, j <= k
    /\ length (toDigits fuel radix n acc) = j + length acc
    /\ repeat "0"%char (k - j) ++ toDigits fuel radix n acc
       = fixedDigits k radix n ++ acc.
Proof.
  intros R. revert n acc k.
  assert (Z0 : forall acc k,
             repeat "0"%char (k - 0) ++ acc = fixedDigits k radix 0 ++ acc).
  { intros acc k. rewrite Nat.sub_0_r, fixedDigits_zero by lia. reflexivity. }
  induction fuel as [|fuel IH]; intros n acc k F K.
  - cbn in F. assert (n = 0%N) by lia. subst n.
    exists 0. cbn [toDigits]. split; [lia|]. split; [reflexivity|apply Z0].
  - cbn [toDigits]. destruct (N.eqb_spec n 0) as [->|NZ].
    + exists 0. split; [lia|]. split; [reflexivity|apply Z0].
    + destruct k as [|k]; [cbn in K; lia|].
      rewrite Nat2N.inj_succ, N.pow_succ_r' in F, K.
      destruct (IH (n / radix)%N (digitChar (n mod radix) :: acc) k)
        as (j & Hj & L & E).
      * apply N.Div0.div_lt_upper_bound.
        apply N.lt_le_trans with (1 := F).
        apply N.mul_le_mono_r. exact R.
      * apply N.Div0.div_lt_upper_bound. exact K.
      * exists (S j). split; [lia|]. split; [rewrite L; cbn; lia|].
        cbn [Nat.sub fixedDigits]. rewrite E, <- app_assoc. reflexivity.
Qed.

Lemma toStringRadix_fixed (radix n : N) (k : nat) :
  (2 <= radix)%N -> 1 <= k -> (n < radix ^ N.of_nat k)%N ->
  length (toStringRadix radix n) <= k
  /\ padZeros k (toStringRadix radix n) = fixedDigits k radix n.
Proof.
  intros R K Hn. unfold toStringRadix, padZeros.
  destruct (N.eqb_spec n 0) as [->|NZ].
  - split; [exact K|]. rewrite fixedDigits_zero by lia.
    destruct k as [|k]; [lia|]. cbn [length Nat.sub repeat].
    rewrite Nat.sub_0_r. apply eq_sym, repeat_cons.
  - destruct (toDigits_fixed (N.to_nat (N.size n)) radix n [] k R) as (j & Hj & L & E).
    + rewrite N2Nat.id. apply N.size_gt.
    + exact Hn.
    + cbn [length] in L. rewrite Nat.add_0_r in L. rewrite L.
      split; [exact Hj|]. now rewrite E, app_nil_r.
Qed.

Lemma radix_covers (radix n : N) :
  (2 <= radix)%N -> (n < radix ^ N.of_nat (S (N.to_nat (N.size n))))%N.
Proof.
  intros R. rewrite Nat2N.inj_succ, N2Nat.id, N.pow_succ_r'.
  apply N.lt_le_trans with (2 ^ N.size n)%N; [apply N.size_gt|].
  apply N.le_trans with (radix ^ N.size n)%N.
  - apply N.pow_le_mono_l. exact R.
  - assert (0 < radix ^ N.size n)%N by (apply N.neq_0_lt_0, N.pow_nonzero; lia).
    nia.
Qed.

Lemma toStringRadix_value (radix n : N) :
  (2 <= radix <= 36)%N -> fromDigits radix (toStringRadix radix n) = n.
Proof.
  intros R.
  destruct (toStringRadix_fixed radix n (S (N.to_nat (N.size n)))) as [_ E];
    [lia|lia|apply radix_covers; lia|].
  rewrite <- (fromDigits_padZeros radix (S (N.to_nat (N.size n)))), E.
  apply fixedDigits_value; [lia|apply radix_covers; lia].
Qed.

Lemma forallb_app_r {A} (p : A -> bool) (l1 l2 : list A) :
  forallb p (l1 ++ l2) = true -> forallb p l2 = true.
Proof. rewrite forallb_app. intros H. now apply andb_prop in H. Qed.

Lemma toStringRadix_forallb (p : ascii -> bool) (radix n : N) :
  (2 <= radix)%N ->
  (forall d, (d < radix)%N -> p (digitChar d) = true) ->
  forallb p (toStringRadix radix n) = true.
Proof.
  intros R P.
  destruct (toStringRadix_fixed radix n (S (N.to_nat (N.size n)))) as [_ E];
    [lia|lia|apply radix_covers; lia|].
  apply (forallb_app_r p (repeat "0"%char
                            (S (N.to_nat (N.size n)) - length (toStringRadix radix n)))).
  fold (padZeros (S (N.to_nat (N.size n))) (toStringRadix radix n)).
  rewrite E. apply fixedDigits_forallb; [lia|exact P].
Qed.

Lemma toDigits_nonempty (fuel : nat) (radix n : N) (c : ascii) (acc : jsstring) :
  toDigits fuel radix n (c :: acc) <> [].
Proof.
  revert n c acc. induction fuel as [|fuel IH]; intros n c acc; cbn [toDigits];
    [discriminate|].
  destruct (n =? 0)%N; [discriminate|apply IH].
Qed.

Lemma toStringRadix_nonempty (radix n : N) : toStringRadix radix n <> [].
Proof.
  unfold toStringRadix. destruct (N.eqb_spec n 0) as [|NZ]; [discriminate|].
  assert (F : N.to_nat (N.size n) <> 0).
  { destruct n; [lia|]. cbn. lia. }
  destruct (N.to_nat (N.size n)) as [|fuel]; [lia|].
  cbn [toDigits]. destruct (N.eqb_spec n 0); [lia|].
  apply toDigits_nonempty.
Qed.

Lemma validIn_digitVal (radix : N) (c : ascii) :
  validIn radix c = true -> exists d, digitVal c = Some d /\ (d < radix)%N.
Proof.
  unfold validIn, digitIn. destruct (digitVal c) as [d|]; [|discriminate].
  destruct (N.ltb_spec d radix); [|discriminate]. intros _. now exists d.
Qed.

Lemma fromDigits_bound (radix : N) (s : jsstring) :
  forallb (validIn radix) s = true ->
  (fromDigits radix s < radix ^ N.of_nat (length s))%N.
Proof.
  induction s as [|c s IH] using rev_ind; intros V.
  - cbn. lia.
  - rewrite forallb_app in V. apply andb_prop in V as [V Vc].
    cbn [forallb] in Vc. rewrite andb_true_r in Vc.
    destruct (validIn_digitVal _ _ Vc) as (d & Dv & Dr).
    rewrite fromDigits_snoc, length_app. cbn [length].
    rewrite Nat.add_1_r, Nat2N.inj_succ, N.pow_succ_r'.
    unfold digitStep. rewrite Dv. specialize (IH V). nia.
Qed.

Lemma fromDigits_fixed (radix : N) (s : jsstring) :
  forallb (validIn radix) s = true ->
  fixedDigits (length s) radix (fromDigits radix s) = map normDigit s.
Proof.
  induction s as [|c s IH] using rev_ind; intros V; [reflexivity|].
  rewrite forallb_app in V. apply andb_prop in V as [V Vc].
  cbn [forallb] in Vc. rewrite andb_true_r in Vc.
  destruct (validIn_digitVal _ _ Vc) as (d & Dv & Dr).
  rewrite fromDigits_snoc, length_app, map_app. cbn [length map].
  rewrite Nat.add_1_r. cbn [fixedDigits].
  unfold digitStep, normDigit at 2. rewrite Dv.
  rewrite N.div_add_l, N.div_small, N.add_0_r by lia.
  rewrite N.add_comm, N.Div0.mod_add, N.mod_small by lia.
  now rewrite IH.
Qed.

Lemma normDigit_alnum (c : ascii) : isAlnum c = true -> normDigit c = lowerChar c.
Proof.
  intros H.
  assert (E : (if isAlnum c then Ascii.eqb (normDigit c) (lowerChar c) else true) = true).
  { revert c H. intros c _. revert c. apply all_chars. vm_compute. reflexivity. }
  rewrite H in E. now apply Ascii.eqb_eq.
Qed.

Lemma isHexDigit_isAlnum (c : ascii) : isHexDigit c = true -> isAlnum c = true.
Proof.
  revert c. apply (all_hexDigits isAlnum). vm_compute. reflexivity.
Qed.

Lemma isHexDigit_validIn (c : ascii) : isHexDigit c = true -> validIn 16 c = true.
Proof.
  revert c. apply (all_hexDigits (validIn 16)). vm_compute. reflexivity.
Qed.

Lemma isAlnum_validIn (c : ascii) : isAlnum c = true -> validIn 36 c = true.
Proof.
  intros H.
  assert (E : (if isAlnum c then validIn 36 c else true) = true).
  { revert c H. intros c _. revert c. apply all_chars. vm_compute. reflexivity. }
  now rewrite H in E.
Qed.

Lemma map_normDigit_alnum (s : jsstring) :
  forallb isAlnum s = true -> map normDigit s = toLowerCase s.
Proof.
  induction s as [|c s IH]; [reflexivity|]. cbn [forallb map toLowerCase].
  intros H. apply andb_prop in H as [Hc H].
  now rewrite (normDigit_alnum _ Hc), (IH H).
Qed.

(** Printing the value of a string of hex digits in base 16, padded to the
    length of the string, gives the string back in lower case. *)
Lemma hex_canonical (d : jsstring) :
  d <> [] -> forallb isHexDigit d = true ->
  padZeros (length d) (toStringRadix 16 (fromDigits 16 d)) = toLowerCase d.
Proof.
  intros NE D.
  assert (V : forallb (validIn 16) d = true)
    by (revert D; apply forallb_impl, isHexDigit_validIn).
  destruct (toStringRadix_fixed 16 (fromDigits 16 d) (length d)) as [_ E].
  - lia.
  - destruct d; [congruence|cbn; lia].
  - now apply fromDigits_bound.
  - rewrite E, fromDigits_fixed by exact V.
    apply map_normDigit_alnum. revert D. apply forallb_impl, isHexDigit_isAlnum.
Qed.

(** ** Bytes as numbers *)

Lemma digitStep_pair (h l : ascii) (acc : N) :
  isHexDigit h = true -> isHexDigit l = true ->
  digitStep 16 (digitStep 16 acc h) l = (acc * 256 + Byte.to_N (byteOfPair h l))%N.
Proof.
  intros Hh Hl.
  assert (E : (match digitVal h, digitVal l with
               | Some a, Some b => (Byte.to_N (byteOfPair h l) =? 16 * a + b)%N
               | _, _ => false
               end) = true).
  { revert h l Hh Hl.
    apply (all_hexPairs (fun h l => match digitVal h, digitVal l with
                                    | Some a, Some b =>
                                        (Byte.to_N (byteOfPair h l) =? 16 * a + b)%N
                                    | _, _ => false
                                    end)).
    vm_compute. reflexivity. }
  unfold digitStep.
  destruct (digitVal h) as [a|]; [|discriminate E].
  destruct (digitVal l) as [b|]; [|discriminate E].
  apply N.eqb_eq in E. lia.
Qed.

Lemma fold_bytesOfHex (n : nat) (d : jsstring) (acc : N) :
  length d = 2 * n -> forallb isHexDigit d = true ->
  fold_left (fun acc b => acc * 256 + Byte.to_N b)%N (bytesOfHex d) acc
  = fold_left (digitStep 16) d acc.
Proof.
  revert d acc. induction n as [|n IH]; intros d acc L D.
  - destruct d; [reflexivity|discriminate L].
  - destruct d as [|h [|l d]]; try (cbn in L; lia).
    cbn [forallb] in D. apply andb_prop in D as [Hh D]. apply andb_prop in D as [Hl D].
    rewrite bytesOfHex_cons. cbn [fold_left].
    rewrite (digitStep_pair _ _ _ Hh Hl). apply IH; [cbn in L; lia|exact D].
Qed.

Lemma beValue_bytesOfHex (n : nat) (d : jsstring) :
  length d = 2 * n -> forallb isHexDigit d = true ->
  beValue (bytesOfHex d) = fromDigits 16 d.
Proof. intros L D. unfold beValue. now rewrite (fold_bytesOfHex n). Qed.

Lemma beValue_dropZeros (bs : Uint8Array) : beValue (dropZeros bs) = beValue bs.
Proof.
  unfold beValue. induction bs as [|b bs IH]; [reflexivity|].
  destruct b; try reflexivity. cbn [dropZeros fold_left]. exact IH.
Qed.

Lemma dropZeros_idem (bs : Uint8Array) : dropZeros (dropZeros bs) = dropZeros bs.
Proof.
  induction bs as [|b bs IH]; [reflexivity|].
  destruct b; try reflexivity. cbn [dropZeros]. exact IH.
Qed.

Lemma dropZeros_prefix (bs : Uint8Array) :
  exists k, bs = repeat Byte.x00 k ++ dropZeros bs.
Proof.
  induction bs as [|b bs [k IH]]; [now exists 0|].
  destruct b; try (now exists 0).
  exists (S k). cbn [dropZeros repeat app]. now rewrite <- IH.
Qed.

Lemma dropZeros_head (bs : Uint8Array) : hd_error (dropZeros bs) <> Some Byte.x00.
Proof.
  induction bs as [|b bs IH]; [discriminate|].
  destruct b; try discriminate. exact IH.
Qed.

Lemma fold_beValue_zero (bs : Uint8Array) (acc : N) :
  fold_left (fun acc b => acc * 256 + Byte.to_N b)%N bs acc = 0%N ->
  acc = 0%N /\ dropZeros bs = [].
Proof.
  revert acc. induction bs as [|b bs IH]; intros acc E; [now split|].
  cbn [fold_left] in E. apply IH in E as [E D].
  assert (B : Byte.to_N b = 0%N) by lia.
  split; [lia|].
  destruct b; first [exact D | discriminate B].
Qed.

Lemma beValue_zero (bs : Uint8Array) : beValue bs = 0%N -> dropZeros bs = [].
Proof. intros E. now apply fold_beValue_zero in E. Qed.

(** ** Digests and the addresses cut out of them *)

Lemma allLowerCase_hex (bs : Uint8Array) : allLowerCase (flat_map hexOfByte bs) = true.
Proof.
  unfold allLowerCase. induction bs as [|b bs IH]; [reflexivity|].
  change (flat_map hexOfByte (b :: bs)) with (hexOfByte b ++ flat_map hexOfByte bs).
  rewrite forallb_app, IH, andb_true_r. destruct b; reflexivity.
Qed.

Lemma getAddress_hexlify (bs : Uint8Array) :
  length bs = 20 -> getAddress (hexlify bs) = getChecksumAddress (hexlify bs).
Proof.
  intros L. unfold hexlify.
  rewrite getAddress_prefixed, getChecksumAddress_eq by now apply hex40_hex.
  apply hexPath_uniform. left. apply allLowerCase_hex.
Qed.

Lemma getChecksumAddress_hexlify (bs : Uint8Array) :
  length bs = 20 ->
  getChecksumAddress (hexlify bs)
  = Return (str "0x" ++ checksumChars (flat_map hexOfByte bs)).
Proof. intros L. unfold hexlify. now rewrite getChecksumAddress_eq by now apply hex40_hex. Qed.

Lemma odd_hexlify (bs : Uint8Array) : Nat.odd (length (hexlify bs)) = false.
Proof.
  unfold hexlify. rewrite length_app, hex_length.
  change (length (str "0x")) with 2.
  replace (2 + 2 * length bs) with (2 * (1 + length bs)) by lia.
  rewrite <- Nat.negb_even. apply negb_false_iff, Nat.even_spec.
  now exists (1 + length bs).
Qed.

Lemma hexDataSlice_hexlify (bs : Uint8Array) (k : nat) :
  hexDataSlice (HexString (hexlify bs)) k = Return (hexlify (skipn k bs)).
Proof.
  unfold hexDataSlice. rewrite isHexString_hexlify, odd_hexlify. cbn [negb orb bind].
  unfold substringFrom, hexlify at 1.
  change (str "0x" ++ flat_map hexOfByte bs)
    with ("0"%char :: "x"%char :: flat_map hexOfByte bs).
  cbn [Nat.add skipn]. now rewrite hex_skipn.
Qed.

Lemma keccak256_hexlify (bs : Uint8Array) :
  keccak256 (HexString (hexlify bs)) = Return (hexlify (Keccak.keccak_256 bs)).
Proof. unfold keccak256. now rewrite arrayify_hexlify. Qed.

Lemma digest_tail_length (bytes : Uint8Array) :
  length (skipn 12 (Keccak.keccak_256 bytes)) = 20.
Proof. now rewrite length_skipn, keccak_256_length. Qed.

Lemma addressOfDigest_returns (bytes : Uint8Array) :
  exists r, addressOfDigest bytes = Return r.
Proof.
  unfold addressOfDigest. rewrite getChecksumAddress_hexlify by apply digest_tail_length.
  eauto.
Qed.

(** The last three steps of the two derivations: hash, slice, format. *)
Lemma digest_pipeline (bytes : Uint8Array) :
  (sliced <- hexDataSlice (HexString (hexlify (Keccak.keccak_256 bytes))) 12 ;;
   getAddress sliced)
  = addressOfDigest bytes.
Proof.
  rewrite hexDataSlice_hexlify. cbn [bind].
  apply getAddress_hexlify, digest_tail_length.
Qed.

(** ** What getAddress returns *)

Lemma getChecksumAddress_inv (s r : jsstring) :
  getChecksumAddress s = Return r ->
  exists d, hex40 d = true /\ s = str "0x" ++ d /\ r = str "0x" ++ checksumChars d.
Proof.
  intros G. destruct (isHexString s (Some 20)) eqn:I.
  - destruct (isHexString_20_inv _ I) as (d & -> & H).
    rewrite (getChecksumAddress_eq _ H) in G. injection G as <-. eauto.
  - rewrite (getChecksumAddress_invalid _ I) in G. discriminate G.
Qed.

Lemma getAddress_inv (a r : jsstring) :
  getAddress a = Return r ->
  exists d, hex40 d = true /\ r = str "0x" ++ checksumChars d.
Proof.
  intros G. destruct (matchHexAddress a) eqn:M.
  - destruct (matchHexAddress_inv _ M) as (d & H & S).
    rewrite (getAddress_hex d a H S) in G. apply hexPath_inv in G. eauto.
  - unfold getAddress in G. rewrite M in G.
    destruct (matchIcap a); [|discriminate G].
    destruct (negb _); [discriminate G|].
    destruct (getChecksumAddress_inv _ _ G) as (d & H & _ & R). eauto.
Qed.

Lemma arrayify_address (a r : jsstring) :
  getAddress a = Return r ->
  exists bs, arrayify (HexString r) = Return bs /\ length bs = 20.
Proof.
  intros G. destruct (getAddress_inv _ _ G) as (d & H & ->).
  exists (bytesOfHex d). split; [now apply arrayify_checksummed|].
  apply bytesOfHex_length. now apply hex40_length.
Qed.

(** ** Lengths of byte strings *)

Lemma hexDataLength_arrayify (data : BytesLike) (n : nat) :
  hexDataLength data = Some n ->
  exists bs, arrayify data = Return bs /\ length bs = n.
Proof.
  destruct data as [s|b]; cbn [hexDataLength arrayify].
  - destruct (isHexString s None) eqn:I; [|discriminate].
    cbn [negb orb]. destruct (Nat.odd (length s)) eqn:O; [discriminate|].
    intros E0. assert (N0 : n = (length s - 2) / 2) by congruence.
    subst n. clear E0.
    destruct s as [|c0 [|c1 d]]; try discriminate I;
      [destruct c0 as [[][][][][][][][]]; discriminate I|].
    assert (E : Nat.even (length d) = true).
    { cbn [length] in O. rewrite Nat.odd_succ, Nat.even_succ in O.
      now rewrite <- Nat.negb_odd, O. }
    unfold substringFrom. cbn [skipn]. rewrite E.
    eexists. split; [reflexivity|].
    apply Nat.even_spec in E as [m E].
    rewrite (bytesOfHex_length m) by exact E.
    first [apply (Nat.div_unique _ 2 m 0) | apply eq_sym, (Nat.div_unique _ 2 m 0)];
      cbn [length]; lia.
  - intros E. assert (N0 : n = (length (hexlify b) - 2) / 2) by congruence.
    subst n. clear E. exists b. split; [reflexivity|].
    unfold hexlify. rewrite length_app, hex_length.
    change (length (str "0x")) with 2.
    first [apply (Nat.div_unique _ 2 (length b) 0)
          | apply eq_sym, (Nat.div_unique _ 2 (length b) 0)]; lia.
Qed.

(** ** getCreate2Address *)

Lemma concat_create2 (f : jsstring) (salt initCodeHash : BytesLike)
      (fb sb ib : Uint8Array) :
  arrayify (HexString f) = Return fb ->
  arrayify salt = Return sb ->
  arrayify initCodeHash = Return ib ->
  concat [HexString (str "0xff"); HexString f; salt; initCodeHash]
  = Return (xff :: fb ++ sb ++ ib).
Proof.
  intros F S I. unfold concat. cbn [mapM].
  change (arrayify (HexString (str "0xff"))) with (Return (A:=Uint8Array) [xff]).
  rewrite F, S, I. cbn [bind List.concat app]. now rewrite app_nil_r.
Qed.

Lemma getCreate2Address_valid (a f : jsstring) (salt initCodeHash : BytesLike)
      (fb sb ib : Uint8Array) :
  hexDataLength salt = Some 32 ->
  hexDataLength initCodeHash = Some 32 ->
  getAddress a = Return f ->
  arrayify (HexString f) = Return fb ->
  arrayify salt = Return sb ->
  arrayify initCodeHash = Return ib ->
  getCreate2Address a salt initCodeHash = addressOfDigest (xff :: fb ++ sb ++ ib).
Proof.
  intros Ls Li G F S I. unfold getCreate2Address.
  rewrite Ls, Li, G. cbn [Nat.eqb negb bind].
  rewrite (concat_create2 _ _ _ _ _ _ F S I). cbn [bind].
  rewrite keccak256_bytes. cbn [bind]. apply digest_pipeline.
Qed.

(** C7, as the code has it: [getCreate2Address] fails with [InvalidSalt]
    whenever the salt is not 32 bytes long; it fails with
    [InvalidInitCodeHash] whenever the salt is 32 bytes long and the
    initCodeHash is not; and when both are 32 bytes long and [from] is a
    valid address it returns the checksum address of the last 20 bytes of
    the Keccak-256 digest of the byte 0xff, the 20 bytes of [from], the
    salt and the initCodeHash, in this order. *)
Theorem getCreate2Address_spec (a : jsstring) (salt initCodeHash : BytesLike) :
  (hexDataLength salt <> Some 32 ->
   getCreate2Address a salt initCodeHash = Throw InvalidSalt)
  /\ (hexDataLength salt = Some 32 ->
      hexDataLength initCodeHash <> Some 32 ->
      getCreate2Address a salt initCodeHash = Throw InvalidInitCodeHash)
  /\ (forall f,
        hexDataLength salt = Some 32 ->
        hexDataLength initCodeHash = Some 32 ->
        getAddress a = Return f ->
        exists fromBytes saltBytes hashBytes r,
          arrayify (HexString f) = Return fromBytes /\ length fromBytes = 20
          /\ arrayify salt = Return saltBytes /\ length saltBytes = 32
          /\ arrayify initCodeHash = Return hashBytes /\ length hashBytes = 32
          /\ getCreate2Address a salt initCodeHash = Return r
          /\ getChecksumAddress
               (hexlify (skipn 12 (Keccak.keccak_256
                                     (xff :: fromBytes ++ saltBytes ++ hashBytes))))
             = Return r).
Proof.
  splits.
  - intros Ls. unfold getCreate2Address.
    destruct (hexDataLength salt) as [n|]; [|reflexivity].
    destruct (Nat.eqb_spec n 32); [congruence|reflexivity].
  - intros Ls Li. unfold getCreate2Address. rewrite Ls. cbn [Nat.eqb negb].
    destruct (hexDataLength initCodeHash) as [n|]; [|reflexivity].
    destruct (Nat.eqb_spec n 32); [congruence|reflexivity].
  - intros f Ls Li G.
    destruct (arrayify_address _ _ G) as (fb & F & Lf).
    destruct (hexDataLength_arrayify _ _ Ls) as (sb & S & Lsb).
    destruct (hexDataLength_arrayify _ _ Li) as (ib & I & Lib).
    destruct (addressOfDigest_returns (xff :: fb ++ sb ++ ib)) as (r & R).
    exists fb, sb, ib, r. splits; try assumption.
    now rewrite (getCreate2Address_valid _ _ _ _ _ _ _ Ls Li G F S I).
Qed.

(** An instance of C7: a valid [from] with a salt and an initCodeHash of 32
    zero bytes each. *)
Lemma getCreate2Address_spec_sample :
  exists fromBytes saltBytes hashBytes r,
    arrayify (HexString sampleChecksummed) = Return fromBytes /\ length fromBytes = 20
    /\ arrayify (zeros 32) = Return saltBytes /\ length saltBytes = 32
    /\ arrayify (zeros 32) = Return hashBytes /\ length hashBytes = 32
    /\ getCreate2Address sampleChecksummed (zeros 32) (zeros 32) = Return r
    /\ getChecksumAddress
         (hexlify (skipn 12 (Keccak.keccak_256
                               (xff :: fromBytes ++ saltBytes ++ hashBytes))))
       = Return r.
Proof.
  apply (getCreate2Address_spec sampleChecksummed (zeros 32) (zeros 32)).
  - reflexivity.
  - reflexivity.
  - vm_compute. reflexivity.
Defined.

(** Against C7: with a salt and an initCodeHash of 31 bytes each, the
    initCodeHash is not 32 bytes long and the failure is [InvalidSalt], not
    [InvalidInitCodeHash]. *)
Lemma getCreate2Address_both_short :
  hexDataLength (zeros 31) = Some 31
  /\ getCreate2Address sampleChecksummed (zeros 31) (zeros 31) = Throw InvalidSalt.
Proof. split; reflexivity. Qed.

(** ** getContractAddress *)

Lemma isHexDigit_digitChar (d : N) : (d < 16)%N -> isHexDigit (digitChar d) = true.
Proof.
  revert d. apply (all_below (fun d => isHexDigit (digitChar d)) 16).
  vm_compute. reflexivity.
Qed.

Lemma toHexString_BigNumber_bytes (n : N) :
  exists bs,
    arrayify (HexString (toHexString_BigNumber n)) = Return bs /\ beValue bs = n.
Proof.
  unfold toHexString_BigNumber.
  set (hex := toStringRadix 16 n).
  set (padded := if Nat.odd (length hex) then "0"%char :: hex else hex).
  assert (D : forallb isHexDigit padded = true).
  { assert (Dh : forallb isHexDigit hex = true)
      by (apply toStringRadix_forallb; [lia|apply isHexDigit_digitChar]).
    unfold padded. destruct (Nat.odd (length hex)); [|exact Dh].
    cbn [forallb]. now rewrite Dh. }
  assert (E : Nat.even (length padded) = true).
  { unfold padded. destruct (Nat.odd (length hex)) eqn:O.
    - cbn [length]. now rewrite Nat.even_succ.
    - now rewrite <- Nat.negb_odd, O. }
  assert (V : fromDigits 16 padded = n).
  { unfold padded. destruct (Nat.odd (length hex)).
    - change ("0"%char :: hex) with (repeat "0"%char 1 ++ hex).
      rewrite fromDigits_zeros. apply toStringRadix_value. lia.
    - apply toStringRadix_value. lia. }
  exists (bytesOfHex padded). unfold arrayify.
  change (str "0x" ++ padded) with ("0"%char :: "x"%char :: padded).
  unfold isHexString. cbv beta iota. rewrite D. cbn [andb].
  change (substringFrom 2 ("0"%char :: "x"%char :: padded)) with padded.
  rewrite E. split; [reflexivity|].
  apply Nat.even_spec in E as [m E].
  now rewrite (beValue_bytesOfHex m).
Qed.

Lemma _encode_bytes (x : BytesLike) (bs : Uint8Array) :
  arrayify x = Return bs -> _encode (RlpBytes x) = Return (rlpItem bs).
Proof.
  intros A. cbn [_encode]. rewrite A. cbn [bind]. unfold rlpItem.
  destruct bs as [|b [|b' bs]]; try reflexivity.
  destruct (_ <=? _)%N; reflexivity.
Qed.

Lemma _encode_pair (x y : RlpItem) (a b : Uint8Array) :
  _encode x = Return a -> _encode y = Return b ->
  _encode (RlpList [x; y]) = Return (rlpHeader 0xc0 0xf7 (a ++ b)).
Proof.
  intros X Y. cbn [_encode]. rewrite X, Y. cbn [bind]. now rewrite app_nil_r.
Qed.

(** C6: when [from] is not a valid address [getContractAddress] fails with
    [MissingFromAddress].  When it is, the nonce is first written in bytes,
    most significant first, as [BigNumber.toHexString] and [arrayify] give
    them ([rawNonce], whose value is the nonce); its leading zero bytes are
    taken off: what is left ([nonceBytes]) is [rawNonce] without a run of
    zero bytes in front, does not start with a zero byte, has the value of
    the nonce, and is empty for the nonce 0.  The result is the checksum
    address of the last 20 bytes of the Keccak-256 digest of the RLP
    encoding of the pair of the 20 bytes of [from] and [nonceBytes]. *)
Theorem getContractAddress_spec (transaction : Transaction) :
  (forall e,
      getAddress (from transaction) = Throw e ->
      getContractAddress transaction = Throw MissingFromAddress)
  /\ (forall f,
        getAddress (from transaction) = Return f ->
        exists fromBytes rawNonce nonceBytes encoded r,
          arrayify (HexString f) = Return fromBytes /\ length fromBytes = 20
          /\ arrayify (HexString (toHexString_BigNumber (nonce transaction)))
             = Return rawNonce
          /\ beValue rawNonce = nonce transaction
          /\ (exists k, rawNonce = repeat Byte.x00 k ++ nonceBytes)
          /\ hd_error nonceBytes <> Some Byte.x00
          /\ (nonce transaction = 0%N -> nonceBytes = [])
          /\ beValue nonceBytes = nonce transaction
          /\ dropZeros nonceBytes = nonceBytes
          /\ _encode (RlpList [RlpBytes (ByteArray fromBytes);
                               RlpBytes (ByteArray nonceBytes)]) = Return encoded
          /\ length (skipn 12 (Keccak.keccak_256 encoded)) = 20
          /\ getContractAddress transaction = Return r
          /\ getChecksumAddress (hexlify (skipn 12 (Keccak.keccak_256 encoded)))
             = Return r).
Proof.
  split.
  - intros e G. unfold getContractAddress. now rewrite G.
  - intros f G.
    destruct (arrayify_address _ _ G) as (fb & F & Lf).
    destruct (toHexString_BigNumber_bytes (nonce transaction)) as (nb & A & V).
    set (encoded := rlpHeader 0xc0 0xf7 (rlpItem fb ++ rlpItem (dropZeros nb))).
    destruct (addressOfDigest_returns encoded) as (r & R).
    exists fb, nb, (dropZeros nb), encoded, r. splits.
    + exact F.
    + exact Lf.
    + exact A.
    + exact V.
    + apply dropZeros_prefix.
    + apply dropZeros_head.
    + intros Z. apply beValue_zero. now rewrite V.
    + now rewrite beValue_dropZeros.
    + apply dropZeros_idem.
    + now apply _encode_pair; apply _encode_bytes.
    + apply digest_tail_length.
    + unfold getContractAddress. rewrite G. cbn [catchAs bind].
      unfold stripZeros. rewrite A. cbn [bind].
      unfold encode.
      rewrite (_encode_pair _ _ (rlpItem fb) (rlpItem (dropZeros nb)))
        by now apply _encode_bytes.
      cbn [bind]. rewrite keccak256_hexlify. cbn [bind].
      fold encoded. now rewrite digest_pipeline.
    + exact R.
Qed.

(** An instance of C6: the contract created by [sampleChecksummed] at nonce 0.
    The nonce is written as the one byte 0x00, which is taken off: the pair
    that is encoded holds the 20 bytes of the sender and no byte at all. *)
Lemma getContractAddress_spec_sample :
  exists fromBytes encoded,
    arrayify (HexString sampleChecksummed) = Return fromBytes /\ length fromBytes = 20
    /\ arrayify (HexString (toHexString_BigNumber (nonce zeroNonceTransaction)))
       = Return [Byte.x00]
    /\ _encode (RlpList [RlpBytes (ByteArray fromBytes); RlpBytes (ByteArray [])])
       = Return encoded
    /\ getContractAddress zeroNonceTransaction
       = Return (str "0xcF59cf8A176d2a046d434110bEc2E124496356Ff")
    /\ getChecksumAddress (hexlify (skipn 12 (Keccak.keccak_256 encoded)))
       = Return (str "0xcF59cf8A176d2a046d434110bEc2E124496356Ff").
Proof.
  destruct (getContractAddress_spec zeroNonceTransaction) as [_ H].
  destruct (H sampleChecksummed)
    as (fb & raw & nb & enc & r & F & L & A & _ & _ & _ & Z & _ & _ & E & _ & G & C).
  - vm_compute. reflexivity.
  - assert (N : nb = []) by (apply Z; reflexivity).
    assert (R : getContractAddress zeroNonceTransaction
                = Return (str "0xcF59cf8A176d2a046d434110bEc2E124496356Ff"))
      by (vm_compute; reflexivity).
    assert (Er : r = str "0xcF59cf8A176d2a046d434110bEc2E124496356Ff")
      by congruence.
    rewrite N in E. rewrite Er in C.
    exists fb, enc. splits.
    + exact F.
    + exact L.
    + reflexivity.
    + exact E.
    + exact R.
    + exact C.
Defined.

(** ** Number on hex literals *)

Lemma forallb_rev {A} (p : A -> bool) (l : list A) :
  forallb p (rev l) = forallb p l.
Proof.
  induction l as [|a l IH]; [reflexivity|].
  cbn [rev forallb]. rewrite forallb_app, IH. cbn [forallb].
  rewrite andb_true_r. apply andb_comm.
Qed.

Lemma trimStart_id (s : jsstring) :
  forallb (fun c => negb (isWhiteSpace c)) s = true -> trimStart s = s.
Proof.
  destruct s as [|c s]; [reflexivity|]. cbn [forallb trimStart].
  intros H. apply andb_prop in H as [H _]. apply negb_true_iff in H. now rewrite H.
Qed.

Lemma trim_id (s : jsstring) :
  forallb (fun c => negb (isWhiteSpace c)) s = true -> trim s = s.
Proof.
  intros H. unfold trim. rewrite (trimStart_id s H).
  rewrite trimStart_id by now rewrite forallb_rev. apply rev_involutive.
Qed.

Lemma isHexDigit_not_space (c : ascii) :
  isHexDigit c = true -> negb (isWhiteSpace c) = true.
Proof.
  revert c. apply (all_hexDigits (fun c => negb (isWhiteSpace c))).
  vm_compute. reflexivity.
Qed.

Lemma readDigits_all (radix : N) (s : jsstring) (acc : N) (count : nat) :
  forallb (validIn radix) s = true ->
  readDigits radix s acc count
  = (fold_left (digitStep radix) s acc, count + length s, []).
Proof.
  revert acc count. induction s as [|c s IH]; intros acc count V.
  - cbn. now rewrite Nat.add_0_r.
  - cbn [forallb] in V. apply andb_prop in V as [Vc V].
    cbn [readDigits fold_left length]. unfold validIn in Vc. unfold digitStep at 2.
    unfold digitIn in *. destruct (digitVal c) as [d|]; [|discriminate Vc].
    destruct (d <? radix)%N; [|discriminate Vc].
    rewrite IH by exact V. now rewrite Nat.add_succ_r.
Qed.

Lemma Number_hex (digits : jsstring) :
  hexNumeral digits = true ->
  Number (str "0x" ++ digits)
  = Finite (inject_Z (Z.of_N (fromDigits 16 digits))).
Proof.
  unfold hexNumeral. intros H. apply andb_prop in H as [D NE].
  unfold Number. rewrite trim_id.
  - change (str "0x" ++ digits) with ("0"%char :: "x"%char :: digits).
    cbv beta iota zeta. unfold prefixedLiteral.
    rewrite readDigits_all by (revert D; apply forallb_impl, isHexDigit_validIn).
    destruct digits; [discriminate NE|reflexivity].
  - change (str "0x" ++ digits) with ("0"%char :: "x"%char :: digits).
    cbn [forallb]. change (negb (isWhiteSpace "0")) with true.
    change (negb (isWhiteSpace "x")) with true. cbn [andb].
    revert D. apply forallb_impl, isHexDigit_not_space.
Qed.

Lemma hexNumeral_pair (h l : ascii) :
  isHexDigit h = true -> isHexDigit l = true -> hexNumeral [h; l] = true.
Proof. intros Hh Hl. unfold hexNumeral. cbn [forallb length]. now rewrite Hh, Hl. Qed.

Lemma fromDigits_pair (h l : ascii) :
  isHexDigit h = true -> isHexDigit l = true ->
  fromDigits 16 [h; l] = Byte.to_N (byteOfPair h l).
Proof.
  intros Hh Hl. rewrite fromDigits_fold. cbn [fold_left].
  now rewrite (digitStep_pair _ _ _ Hh Hl).
Qed.

Lemma jsLe_integers (a b : N) :
  jsLe (Finite (inject_Z (Z.of_N a))) (Finite (inject_Z (Z.of_N b))) = (a <=? b)%N.
Proof.
  cbn [jsLe]. unfold Qle_bool, inject_Z. cbn [Qnum Qden].
  rewrite !Z.mul_1_r.
  destruct (N.leb_spec a b), (Z.leb_spec (Z.of_N a) (Z.of_N b)); lia || reflexivity.
Qed.

(** ** getShardFromAddress *)

Lemma hd_error_filter {A} (p : A -> bool) (l : list A) :
  hd_error (filter p l) = find p l.
Proof.
  induction l as [|a l IH]; [reflexivity|]. cbn [filter find].
  destruct (p a); [reflexivity|exact IH].
Qed.

Lemma getShardFromAddress_find (ShardData : list ShardEntry) (address : jsstring) :
  getShardFromAddress ShardData address
  = option_map shard
      (find (fun obj =>
               jsGe (Number (substring 0 4 address)) (Number (str "0x" ++ fst (byte obj)))
               && jsLe (Number (substring 0 4 address))
                       (Number (str "0x" ++ snd (byte obj))))
            ShardData).
Proof.
  unfold getShardFromAddress. rewrite <- hd_error_filter.
  destruct (filter _ ShardData); reflexivity.
Qed.

Lemma find_ext_on {A} (p q : A -> bool) (l : list A) (ok : A -> bool) :
  forallb ok l = true ->
  (forall a, ok a = true -> p a = q a) ->
  find p l = find q l.
Proof.
  intros O E. induction l as [|a l IH]; [reflexivity|].
  cbn [forallb] in O. apply andb_prop in O as [Oa O].
  cbn [find]. rewrite (E a Oa), (IH O). reflexivity.
Qed.

Lemma firstByte_bound (d : jsstring) : (firstByte d < 256)%N.
Proof.
  unfold firstByte. destruct (bytesOfHex d) as [|b bs]; [lia|].
  destruct b; cbn; lia.
Qed.

(** C1, as the code has it: on an address made of "0x" and 40 hex digits,
    and a table whose bounds are hex numerals, [getShardFromAddress] compares
    the first byte of the address, a number from 0 to 255, with the bounds
    read in base 16, and returns the shard of the first entry of the table
    whose closed interval contains it, or nothing when there is none. *)
Theorem getShardFromAddress_first_byte (ShardData : list ShardEntry) (d : jsstring) :
  hex40 d = true ->
  forallb hexBounds ShardData = true ->
  getShardFromAddress ShardData (str "0x" ++ d)
  = option_map shard (find (shardCovers (firstByte d)) ShardData)
  /\ (firstByte d < 256)%N.
Proof.
  intros H B. split; [|apply firstByte_bound].
  rewrite getShardFromAddress_find. f_equal.
  pose proof (hex40_length _ H) as L. pose proof (hex40_digits _ H) as D.
  destruct d as [|h [|l d]]; try discriminate L.
  cbn [forallb] in D. apply andb_prop in D as [Hh D]. apply andb_prop in D as [Hl _].
  change (substring 0 4 (str "0x" ++ h :: l :: d)) with (str "0x" ++ [h; l]).
  rewrite (Number_hex [h; l]) by now apply hexNumeral_pair.
  rewrite (fromDigits_pair _ _ Hh Hl).
  unfold firstByte. rewrite bytesOfHex_cons.
  apply (find_ext_on _ _ _ hexBounds B).
  intros obj O. unfold hexBounds in O. apply andb_prop in O as [O1 O2].
  rewrite (Number_hex _ O1), (Number_hex _ O2).
  unfold jsGe, shardCovers. now rewrite !jsLe_integers.
Qed.

(** An instance of C1: an address whose first byte is 0x14, in a table whose
    only entry runs from 0x0014 to 0x001d. *)
Lemma getShardFromAddress_first_byte_sample :
  getShardFromAddress sampleTable sampleAddress
  = option_map shard (find (shardCovers (firstByte (skipn 2 sampleAddress))) sampleTable)
  /\ (firstByte (skipn 2 sampleAddress) < 256)%N.
Proof.
  apply (getShardFromAddress_first_byte sampleTable (skipn 2 sampleAddress));
    reflexivity.
Defined.

(** Against C1: the first four hex characters of [sampleAddress] are "1400";
    read as a decimal number they give 1400, which no entry of [sampleTable]
    encloses, yet [getShardFromAddress] returns the shard of the entry from
    0x14 to 0x1d, since it compares the number 0x14. *)
Lemma getShardFromAddress_not_decimal :
  getShardFromAddress sampleTable sampleAddress = Some (str "cyprus1")
  /\ specResolveShard sampleTable sampleAddress = None.
Proof. split; reflexivity. Qed.

(** ** Decimal numerals *)

Lemma fold_digitStep_acc (radix : N) (s : jsstring) (acc : N) :
  fold_left (digitStep radix) s acc
  = (acc * radix ^ N.of_nat (length s) + fromDigits radix s)%N.
Proof.
  rewrite fromDigits_fold. revert acc. induction s as [|c s IH]; intros acc.
  - cbn. lia.
  - cbn [fold_left length]. rewrite IH, (IH (digitStep radix 0 c)).
    rewrite Nat2N.inj_succ, N.pow_succ_r'. unfold digitStep.
    destruct (digitVal c); lia.
Qed.

Lemma fromDigits_app (radix : N) (a b : jsstring) :
  fromDigits radix (a ++ b)
  = (fromDigits radix a * radix ^ N.of_nat (length b) + fromDigits radix b)%N.
Proof.
  rewrite (fromDigits_fold radix (a ++ b)), fold_left_app, fold_digitStep_acc.
  reflexivity.
Qed.

Lemma isDigit_validIn (c : ascii) : isDigit c = true -> validIn 10 c = true.
Proof.
  intros H.
  assert (E : (if isDigit c then validIn 10 c else true) = true)
    by (revert c H; intros c _; revert c; apply all_chars; vm_compute; reflexivity).
  now rewrite H in E.
Qed.

Lemma isDigit_head (c : ascii) (rest : jsstring) :
  isDigit c = true ->
  trimStart (c :: rest) = c :: rest /\ stripSign (c :: rest) = (false, c :: rest).
Proof.
  intros H.
  assert (E : (if isDigit c
               then negb (isWhiteSpace c)
                    && negb (Ascii.eqb c "-") && negb (Ascii.eqb c "+")
               else true) = true)
    by (revert c H; intros c _; revert c; apply all_chars; vm_compute; reflexivity).
  rewrite H in E. apply andb_prop in E as [E P]. apply andb_prop in E as [W M].
  apply negb_true_iff in W, M, P. split.
  - cbn [trimStart]. now rewrite W.
  - apply Ascii.eqb_neq in M, P. unfold stripSign.
    destruct (ascii_dec c "-") as [->|_]; [congruence|].
    destruct (ascii_dec c "+") as [->|_]; [congruence|].
    destruct c as [[] [] [] [] [] [] [] []]; try reflexivity; congruence.
Qed.

Lemma parseInt_digits (s : jsstring) :
  forallb isDigit s = true -> s <> [] ->
  parseInt s 10 = Some (Z.of_N (fromDigits 10 s)).
Proof.
  intros D NE. destruct s as [|c s]; [congruence|].
  pose proof D as D'. cbn [forallb] in D'. apply andb_prop in D' as [Dc _].
  destruct (isDigit_head c s Dc) as [T S].
  unfold parseInt. rewrite T, S. cbn [N.eqb Pos.eqb].
  change (10 =? 16)%N with false. cbv iota.
  rewrite readDigits_all by (revert D; apply forallb_impl, isDigit_validIn).
  cbn [length Nat.add]. reflexivity.
Qed.

Lemma isDigit_digitChar (d : N) : (d < 10)%N -> isDigit (digitChar d) = true.
Proof.
  revert d. apply (all_below (fun d => isDigit (digitChar d)) 10).
  vm_compute. reflexivity.
Qed.

Lemma decimal_digits (n : N) : forallb isDigit (toStringRadix 10 n) = true.
Proof. apply toStringRadix_forallb; [lia|apply isDigit_digitChar]. Qed.

Lemma jsString_natural (n : N) : jsString (Some (Z.of_N n)) = toStringRadix 10 n.
Proof.
  unfold jsString. destruct (Z.ltb_spec (Z.of_N n) 0); [lia|].
  now rewrite N2Z.id.
Qed.

Lemma jsRem_natural (n m : N) :
  jsRem (Some (Z.of_N n)) (Z.of_N m) = Some (Z.of_N (n mod m)).
Proof. cbn [jsRem option_map]. now rewrite N2Z.inj_rem. Qed.

Lemma twoDigits_fixed (n : N) :
  (n < 100)%N -> padZeros 2 (toStringRadix 10 n) = twoDigits n.
Proof.
  intros H. destruct (toStringRadix_fixed 10 n 2) as [_ E]; [lia|lia|exact H|].
  rewrite E. cbn [fixedDigits app]. unfold twoDigits.
  rewrite (N.mod_small (n / 10) 10); [reflexivity|].
  apply N.Div0.div_lt_upper_bound. exact H.
Qed.

(** ** ibanChecksum *)

Lemma safeDigits_eq : safeDigits = 15.
Proof. vm_compute. reflexivity. Qed.

Lemma joinDefined_chunks (l : jsstring) :
  joinDefined (map ibanLookup l) = flat_map ibanChunk l.
Proof.
  unfold joinDefined. induction l as [|c l IH]; [reflexivity|].
  cbn [map flat_map]. now rewrite IH.
Qed.

Lemma ibanStep_linear (acc : N) (c : ascii) :
  ibanStep acc c = (acc * ibanScale c + ibanVal c)%N.
Proof.
  unfold ibanStep, ibanScale, ibanVal.
  destruct (isDigit c); [reflexivity|]. destruct (isUpper c); lia.
Qed.

Lemma ibanChunk_spec (c : ascii) :
  forallb isDigit (ibanChunk c) = true
  /\ (10 ^ N.of_nat (length (ibanChunk c)) = ibanScale c)%N
  /\ fromDigits 10 (ibanChunk c) = ibanVal c.
Proof.
  assert (E : forallb isDigit (ibanChunk c)
              && (10 ^ N.of_nat (length (ibanChunk c)) =? ibanScale c)%N
              && (fromDigits 10 (ibanChunk c) =? ibanVal c)%N = true)
    by (revert c; apply all_chars; vm_compute; reflexivity).
  apply andb_prop in E as [E V]. apply andb_prop in E as [D S].
  apply N.eqb_eq in S, V. auto.
Qed.

Lemma expanded_digits (l : jsstring) : forallb isDigit (flat_map ibanChunk l) = true.
Proof.
  induction l as [|c l IH]; [reflexivity|]. cbn [flat_map].
  rewrite forallb_app, IH. now rewrite (proj1 (ibanChunk_spec c)).
Qed.

Lemma expanded_value (l : jsstring) (acc : N) :
  fold_left (digitStep 10) (flat_map ibanChunk l) acc = fold_left ibanStep l acc.
Proof.
  revert acc. induction l as [|c l IH]; intros acc; [reflexivity|].
  cbn [flat_map fold_left]. rewrite fold_left_app, IH. f_equal.
  destruct (ibanChunk_spec c) as (_ & S & V).
  now rewrite fold_digitStep_acc, S, V, ibanStep_linear.
Qed.

Lemma ibanReduce_unfold (fuel : nat) (e : jsstring) :
  ibanReduce (S fuel) e
  = if 15 <=? length e
    then ibanReduce fuel
           (jsString (jsRem (parseInt (firstn 15 e) 10) 97)
              ++ skipn (length (firstn 15 e)) e)
    else e.
Proof. cbn [ibanReduce]. rewrite safeDigits_eq. reflexivity. Qed.

Lemma forallb_firstn {A} (p : A -> bool) (n : nat) (l : list A) :
  forallb p l = true -> forallb p (firstn n l) = true.
Proof.
  intros H. rewrite <- (firstn_skipn n l), forallb_app in H.
  now apply andb_prop in H.
Qed.

Lemma forallb_skipn {A} (p : A -> bool) (n : nat) (l : list A) :
  forallb p l = true -> forallb p (skipn n l) = true.
Proof.
  intros H. rewrite <- (firstn_skipn n l), forallb_app in H.
  now apply andb_prop in H.
Qed.

Lemma ibanReduce_spec (fuel : nat) (e : jsstring) :
  forallb isDigit e = true -> e <> [] -> length e < 15 + fuel ->
  forallb isDigit (ibanReduce fuel e) = true
  /\ ibanReduce fuel e <> []
  /\ length (ibanReduce fuel e) < 15
  /\ (fromDigits 10 (ibanReduce fuel e) mod 97 = fromDigits 10 e mod 97)%N.
Proof.
  revert e. induction fuel as [|fuel IH]; intros e D NE L.
  - cbn [ibanReduce]. auto with arith.
  - rewrite ibanReduce_unfold. destruct (Nat.leb_spec 15 (length e)) as [G|G];
      [|auto with arith].
    assert (Lb : length (firstn 15 e) = 15) by (rewrite length_firstn; lia).
    assert (Db : forallb isDigit (firstn 15 e) = true) by now apply forallb_firstn.
    rewrite parseInt_digits by (exact Db || (destruct (firstn 15 e); [discriminate Lb|discriminate])).
    change 97%Z with (Z.of_N 97). rewrite jsRem_natural, jsString_natural, Lb.
    set (block := fromDigits 10 (firstn 15 e)).
    assert (Lr : length (toStringRadix 10 (block mod 97)) <= 2).
    { apply (toStringRadix_fixed 10 (block mod 97) 2); [lia|lia|].
      assert (block mod 97 < 97)%N by (apply N.mod_lt; lia).
      change (10 ^ N.of_nat 2)%N with 100%N. lia. }
    destruct (IH (toStringRadix 10 (block mod 97) ++ skipn 15 e)) as (D' & NE' & L' & V').
    + rewrite forallb_app, decimal_digits. now apply forallb_skipn.
    + intros E. apply app_eq_nil in E as [E _].
      now apply toStringRadix_nonempty in E.
    + rewrite length_app, length_skipn. lia.
    + splits; try assumption. rewrite V'.
      rewrite <- (firstn_skipn 15 e) at 2.
      rewrite !fromDigits_app, toStringRadix_value by lia. fold block.
      rewrite N.Div0.add_mod, N.Div0.mul_mod, N.Div0.mod_mod.
      rewrite <- N.Div0.mul_mod, <- N.Div0.add_mod. reflexivity.
Qed.

Lemma ibanChecksum_eq (address : jsstring) :
  ibanChecksum address = twoDigits (98 - ibanNumber address mod 97).
Proof.
  unfold ibanChecksum.
  change (substringFrom 4 (toUpperCase address)
            ++ substring 0 2 (toUpperCase address) ++ str "00")
    with (ibanRotated address).
  rewrite joinDefined_chunks.
  set (expanded := flat_map ibanChunk (ibanRotated address)).
  assert (D : forallb isDigit expanded = true) by apply expanded_digits.
  assert (NE : expanded <> []).
  { unfold expanded, ibanRotated. cbv zeta. rewrite !flat_map_app.
    intros E. apply app_eq_nil in E as [_ E]. apply app_eq_nil in E as [_ E].
    discriminate E. }
  assert (V : fromDigits 10 expanded = ibanNumber address)
    by (rewrite fromDigits_fold; apply expanded_value).
  destruct (ibanReduce_spec (length expanded) expanded D NE) as (D' & NE' & _ & V');
    [lia|].
  rewrite parseInt_digits by assumption.
  change 97%Z with (Z.of_N 97). rewrite jsRem_natural, V', V.
  assert (B : (ibanNumber address mod 97 < 97)%N) by (apply N.mod_lt; lia).
  cbn [jsSubFrom option_map].
  generalize dependent (ibanNumber address mod 97)%N. intros m B.
  replace (98 - Z.of_N m)%Z with (Z.of_N (98 - m)) by lia.
  rewrite jsString_natural. apply twoDigits_fixed. lia.
Qed.

Lemma twoDigits_digits (n : N) :
  (n < 100)%N -> forallb isDigit (twoDigits n) = true.
Proof.
  intros H. unfold twoDigits. cbn [forallb].
  rewrite !isDigit_digitChar; [reflexivity| |].
  - apply N.mod_lt. lia.
  - apply N.Div0.div_lt_upper_bound. exact H.
Qed.

Lemma ibanChecksum_digits (address : jsstring) :
  exists c1 c2, ibanChecksum address = [c1; c2]
                /\ isDigit c1 = true /\ isDigit c2 = true.
Proof.
  rewrite ibanChecksum_eq.
  assert (B : (ibanNumber address mod 97 < 97)%N) by (apply N.mod_lt; lia).
  generalize dependent (ibanNumber address mod 97)%N. intros m B.
  assert (D : forallb isDigit (twoDigits (98 - m)) = true)
    by (apply twoDigits_digits; lia).
  unfold twoDigits in *. cbn [forallb] in D.
  do 2 eexists. split; [reflexivity|].
  apply andb_prop in D as [D1 D2]. apply andb_prop in D2 as [D2 _]. auto.
Qed.

(** C8: on a string of ASCII characters, [ibanChecksum] is the checksum of
    section 4.1: with the string in upper case, rotated so that its first two
    characters and "00" come last, letters read as two decimal digits
    (A = 10, ..., Z = 35) and digits as themselves, it is 98 minus the number
    read modulo 97, written with exactly two decimal digits. *)
Theorem ibanChecksum_spec (address : jsstring) :
  forallb isAscii address = true ->
  ibanChecksum address = twoDigits (98 - ibanNumber address mod 97)
  /\ length (ibanChecksum address) = 2
  /\ forallb isDigit (ibanChecksum address) = true
  /\ (2 <= 98 - ibanNumber address mod 97 <= 98)%N.
Proof.
  intros _. rewrite ibanChecksum_eq.
  assert (B : (ibanNumber address mod 97 < 97)%N) by (apply N.mod_lt; lia).
  generalize dependent (ibanNumber address mod 97)%N. intros m B.
  splits; try reflexivity; try lia.
  apply twoDigits_digits. lia.
Qed.

(** An instance of C8: the checksum of [sampleIcap] is the "65" it carries. *)
Lemma ibanChecksum_spec_sample :
  ibanChecksum sampleIcap = twoDigits (98 - ibanNumber sampleIcap mod 97)
  /\ length (ibanChecksum sampleIcap) = 2
  /\ forallb isDigit (ibanChecksum sampleIcap) = true
  /\ (2 <= 98 - ibanNumber sampleIcap mod 97 <= 98)%N.
Proof. apply (ibanChecksum_spec sampleIcap). reflexivity. Defined.

(** ** ICAP addresses *)

Lemma forallb_map {A B} (p : B -> bool) (f : A -> B) (l : list A) :
  forallb p (map f l) = forallb (fun a => p (f a)) l.
Proof. induction l as [|a l IH]; [reflexivity|]. cbn [map forallb]. now rewrite IH. Qed.

Lemma forallb_zeros (p : ascii -> bool) (m : nat) :
  p "0"%char = true -> forallb p (repeat "0"%char m) = true.
Proof. intros P. induction m as [|m IH]; [reflexivity|]. cbn [repeat forallb]. now rewrite P. Qed.

Lemma isAlnum_upper_digitChar (d : N) :
  (d < 36)%N -> isAlnum (upperChar (digitChar d)) = true.
Proof.
  revert d. apply (all_below (fun d => isAlnum (upperChar (digitChar d))) 36).
  vm_compute. reflexivity.
Qed.

Lemma address_number_bound (d : jsstring) :
  hex40 d = true -> (fromDigits 16 d < 36 ^ N.of_nat 31)%N.
Proof.
  intros H. apply N.lt_le_trans with (16 ^ N.of_nat (length d))%N.
  - apply fromDigits_bound. generalize (hex40_digits _ H).
    apply forallb_impl, isHexDigit_validIn.
  - rewrite (hex40_length _ H). vm_compute. discriminate.
Qed.

Lemma icapPayload_spec (n : N) :
  (n < 36 ^ N.of_nat 31)%N ->
  (length (icapPayload n) = 30 \/ length (icapPayload n) = 31)
  /\ forallb isAlnum (icapPayload n) = true
  /\ fromDigits 36 (icapPayload n) = n.
Proof.
  intros B. unfold icapPayload.
  destruct (toStringRadix_fixed 36 n 31) as [L _]; [lia|lia|exact B|].
  splits.
  - unfold padZeros. rewrite length_app, repeat_length.
    unfold toUpperCase. rewrite length_map. lia.
  - unfold padZeros. rewrite forallb_app, forallb_zeros by reflexivity.
    unfold toUpperCase. rewrite forallb_map.
    apply toStringRadix_forallb; [lia|apply isAlnum_upper_digitChar].
  - rewrite fromDigits_padZeros, fromDigits_upper. apply toStringRadix_value. lia.
Qed.

Lemma matchHexAddress_XE (rest : jsstring) :
  matchHexAddress ("X"%char :: "E"%char :: rest) = false.
Proof.
  unfold matchHexAddress, hex40. cbn [forallb].
  change (isHexDigit "X") with false. cbn [andb]. now rewrite andb_false_r.
Qed.

Lemma ibanChecksum_body (x y c1 c2 c1' c2' : ascii) (body : jsstring) :
  ibanChecksum (x :: y :: c1 :: c2 :: body)
  = ibanChecksum (x :: y :: c1' :: c2' :: body).
Proof. now rewrite !ibanChecksum_eq. Qed.

Lemma getAddress_icap (c1 c2 : ascii) (body : jsstring) :
  isDigit c1 = true -> isDigit c2 = true ->
  length body = 30 \/ length body = 31 ->
  forallb isAlnum body = true ->
  ibanChecksum (str "XE00" ++ body) = [c1; c2] ->
  getAddress (str "XE" ++ [c1; c2] ++ body)
  = getChecksumAddress
      (str "0x" ++ padZeros 40 (toStringRadix 16 (fromDigits 36 body))).
Proof.
  intros D1 D2 L A C.
  change (str "XE" ++ [c1; c2] ++ body)
    with ("X"%char :: "E"%char :: c1 :: c2 :: body).
  unfold getAddress. rewrite matchHexAddress_XE.
  assert (M : matchIcap ("X"%char :: "E"%char :: c1 :: c2 :: body) = true).
  { unfold matchIcap. cbv beta iota. rewrite D1, D2, A.
    destruct L as [-> | ->]; reflexivity. }
  rewrite M.
  change (substring 2 4 ("X"%char :: "E"%char :: c1 :: c2 :: body)) with [c1; c2].
  rewrite (ibanChecksum_body _ _ c1 c2 "0" "0").
  change ("X"%char :: "E"%char :: "0"%char :: "0"%char :: body)
    with (str "XE00" ++ body).
  rewrite C, eqb_str_refl. reflexivity.
Qed.

Lemma getIcapAddress_eq (a : jsstring) (d : jsstring) :
  getAddress a = Return (str "0x" ++ d) ->
  getIcapAddress a
  = Return (str "XE" ++ ibanChecksum (str "XE00" ++ icapPayload (fromDigits 16 d))
              ++ icapPayload (fromDigits 16 d)).
Proof. intros G. unfold getIcapAddress. rewrite G. reflexivity. Qed.

Lemma getAddress_getIcapAddress (a c : jsstring) :
  getAddress a = Return c ->
  exists icap, getIcapAddress a = Return icap /\ getAddress icap = Return c.
Proof.
  intros G. destruct (getAddress_inv _ _ G) as (d & H & ->).
  pose proof (hex40_checksumChars _ H) as H'.
  rewrite (getIcapAddress_eq _ _ G).
  set (n := fromDigits 16 (checksumChars d)).
  destruct (icapPayload_spec n) as (L & A & V);
    [now apply address_number_bound|].
  destruct (ibanChecksum_digits (str "XE00" ++ icapPayload n)) as (c1 & c2 & C & D1 & D2).
  eexists. split; [reflexivity|].
  rewrite C, (getAddress_icap c1 c2 (icapPayload n) D1 D2 L A C), V.
  unfold n.
  replace 40 with (length (checksumChars d))
    by (rewrite checksumChars_length; now apply hex40_length).
  rewrite hex_canonical.
  - rewrite toLowerCase_checksumChars by now apply hex40_length.
    rewrite getChecksumAddress_eq by now rewrite hex40_lower.
    now rewrite checksumChars_lower.
  - intros E. apply (f_equal (@length ascii)) in E.
    rewrite checksumChars_length, (hex40_length _ H) in E. discriminate E.
  - now apply hex40_digits.
Qed.

Lemma getAddress_checksummed (bytes : Uint8Array) :
  length bytes = 20 ->
  exists r, getChecksumAddress (hexlify bytes) = Return r /\ getAddress r = Return r.
Proof.
  intros L. pose proof (hex40_hex _ L) as H.
  exists (str "0x" ++ checksumChars (flat_map hexOfByte bytes)). split.
  - now apply getChecksumAddress_hexlify.
  - rewrite getAddress_prefixed by now apply hex40_checksumChars.
    now apply hexPath_checksummed.
Qed.

(** C5: for every input that [getAddress] accepts, [getIcapAddress] returns
    an ICAP string from which [getAddress] gives the same checksum address
    again; and for every 20-byte value, [getAddress] returns the checksum
    string of the value unchanged. *)
Theorem getAddress_round_trips (a c : jsstring) (bytes : Uint8Array) :
  (getAddress a = Return c ->
   exists icap, getIcapAddress a = Return icap /\ getAddress icap = Return c)
  /\ (length bytes = 20 ->
      exists r, getChecksumAddress (hexlify bytes) = Return r
                /\ getAddress r = Return r).
Proof.
  split; [apply getAddress_getIcapAddress|apply getAddress_checksummed].
Qed.

(** An instance of C5: the lower-case digits of [sampleBytes], and
    [sampleBytes]. *)
Lemma getAddress_round_trips_sample :
  (exists icap, getIcapAddress sampleLower = Return icap
                /\ getAddress icap = Return sampleChecksummed)
  /\ (exists r, getChecksumAddress (hexlify sampleBytes) = Return r
                /\ getAddress r = Return r).
Proof.
  destruct (getAddress_round_trips sampleLower sampleChecksummed sampleBytes)
    as [I R].
  split; [apply I; vm_compute; reflexivity|apply R; reflexivity].
Defined.

(** ** toHexString and toByteArray *)

Lemma substring_0 (n : nat) (s : jsstring) : substring 0 n s = firstn n s.
Proof. unfold substring. cbn [Nat.max Nat.min skipn]. now rewrite Nat.sub_0_r. Qed.

Lemma toHexString_bytes (bs : Uint8Array) :
  toHexString (bytesAsNumbers bs) = flat_map hexOfByte bs.
Proof.
  unfold toHexString, bytesAsNumbers.
  induction bs as [|b bs IH]; [reflexivity|].
  cbn [map flat_map]. rewrite IH. f_equal. destruct b; reflexivity.
Qed.

Lemma parseInt_pair (h l : ascii) :
  isHexDigit h = true -> isHexDigit l = true ->
  parseInt [h; l] 16 = Some (Z.of_N (Byte.to_N (byteOfPair h l))).
Proof.
  intros Hh Hl.
  assert (E : (match parseInt [h; l] 16 with
               | Some z => (z =? Z.of_N (Byte.to_N (byteOfPair h l)))%Z
               | None => false
               end) = true).
  { revert h l Hh Hl.
    apply (all_hexPairs (fun h l => match parseInt [h; l] 16 with
                                    | Some z =>
                                        (z =? Z.of_N (Byte.to_N (byteOfPair h l)))%Z
                                    | None => false
                                    end)).
    vm_compute. reflexivity. }
  destruct (parseInt [h; l] 16) as [z|]; [|discriminate E].
  apply Z.eqb_eq in E. now subst.
Qed.

Lemma toByteArrayLoop_hex (n fuel : nat) (s : jsstring) :
  length s = 2 * n -> n <= fuel -> forallb isHexDigit s = true ->
  toByteArrayLoop fuel s = bytesAsNumbers (bytesOfHex s).
Proof.
  revert fuel s. induction n as [|n IH]; intros fuel s L F D.
  - destruct s; [|discriminate L]. destruct fuel; reflexivity.
  - destruct s as [|h [|l s]]; try (cbn in L; lia).
    destruct fuel as [|fuel]; [lia|].
    cbn [forallb] in D. apply andb_prop in D as [Hh D]. apply andb_prop in D as [Hl D].
    cbn [toByteArrayLoop length Nat.leb].
    change (substring 0 2 (h :: l :: s)) with [h; l].
    assert (T : substring 2 (S (S (length s))) (h :: l :: s) = s).
    { unfold substring. cbn [Nat.max Nat.min skipn Nat.sub].
      rewrite Nat.sub_0_r. apply firstn_all. }
    rewrite T, (parseInt_pair _ _ Hh Hl), bytesOfHex_cons.
    rewrite (IH fuel s); [reflexivity|cbn in L; lia|lia|exact D].
Qed.

Lemma toByteArray_hex (n : nat) (s : jsstring) :
  length s = 2 * n -> forallb isHexDigit s = true ->
  toByteArray s = bytesAsNumbers (bytesOfHex s).
Proof. intros L D. apply (toByteArrayLoop_hex n); [exact L|lia|exact D]. Qed.

Lemma to_N_bound (b : Init.Byte.byte) : (Byte.to_N b < 256)%N.
Proof. destruct b; reflexivity. Qed.

Lemma arrayifyNumbers_bytes (bs : Uint8Array) :
  arrayifyNumbers (bytesAsNumbers bs) = Return bs.
Proof.
  unfold arrayifyNumbers, bytesAsNumbers.
  rewrite forallb_map, map_map.
  replace (forallb _ bs) with true.
  - cbv iota. apply f_equal. rewrite <- (map_id bs) at 2. apply map_ext.
    intros b. now rewrite N2Z.id, byte_of_to_N.
  - symmetry. apply forallb_forall. intros b _.
    pose proof (to_N_bound b).
    destruct (Z.leb_spec 0 (Z.of_N (Byte.to_N b)));
      destruct (Z.ltb_spec (Z.of_N (Byte.to_N b)) 256); lia || reflexivity.
Qed.

Lemma bytesOfHex_app (n : nat) (a b : jsstring) :
  length a = 2 * n -> bytesOfHex (a ++ b) = bytesOfHex a ++ bytesOfHex b.
Proof.
  revert a. induction n as [|n IH]; intros a L.
  - destruct a; [reflexivity|discriminate L].
  - destruct a as [|h [|l a]]; try (cbn in L; lia).
    cbn [app]. rewrite !bytesOfHex_cons, IH by (cbn in L; lia). reflexivity.
Qed.

Lemma formatBytes32String_inv (text r : jsstring) :
  formatBytes32String text = Return r ->
  exists nb, r = hexlify nb /\ length nb = 32
             /\ nb = firstn 32 (map byte_of_char text ++ repeat Byte.x00 32).
Proof.
  unfold formatBytes32String. destruct (_ <? _); [discriminate|].
  intros E. exists (firstn 32 (map byte_of_char text ++ repeat Byte.x00 32)).
  split; [congruence|]. split; [|reflexivity].
  rewrite length_firstn, length_app, repeat_length. lia.
Qed.

(** ** grindContractAddress *)

Lemma arrayify_bytes (bs : Uint8Array) : arrayify (ByteArray bs) = Return bs.
Proof. reflexivity. Qed.

Lemma grindCandidate_throw (nonceBytes sendAddress bytecode : jsstring)
      (salt : Uint8Array) (e : error) :
  arrayify (HexString sendAddress) = Throw e ->
  grindCandidate nonceBytes sendAddress bytecode salt = Throw e.
Proof.
  intros A. unfold grindCandidate, concat. cbn [mapM]. now rewrite A.
Qed.

Lemma initCode_hex (n : nat) (bytecode : jsstring) (b : Init.Byte.byte) :
  length bytecode = 2 * n -> forallb isHexDigit bytecode = true ->
  length (firstn (length bytecode - 2) bytecode) = 2 * (n - 1)
  /\ length (firstn (length bytecode - 2) bytecode ++ hexOfByte b) = 2 * S (n - 1)
  /\ forallb isHexDigit (firstn (length bytecode - 2) bytecode ++ hexOfByte b) = true.
Proof.
  intros L D.
  assert (Lf : length (firstn (length bytecode - 2) bytecode) = 2 * (n - 1))
    by (rewrite length_firstn; lia).
  splits.
  - exact Lf.
  - rewrite length_app, Lf. cbn [hexOfByte length]. lia.
  - rewrite forallb_app, isHexDigit_hexOfByte, andb_true_r. now apply forallb_firstn.
Qed.

Lemma grindCandidate_hex (n : nat) (nb sb : Uint8Array)
      (sendAddress bytecode : jsstring) (b : Init.Byte.byte) :
  length bytecode = 2 * n -> forallb isHexDigit bytecode = true ->
  arrayify (HexString sendAddress) = Return sb ->
  grindCandidate (hexlify nb) sendAddress bytecode [b]
  = (address <- addressOfDigest
                  (sb ++ nb ++ bytesOfHex (firstn (length bytecode - 2) bytecode
                                             ++ hexOfByte b)) ;;
     Return (bytesAsNumbers (bytesOfHex (firstn (length bytecode - 2) bytecode
                                           ++ hexOfByte b)),
             address)).
Proof.
  intros L D A. destruct (initCode_hex n bytecode b L D) as (_ & Li & Di).
  unfold grindCandidate.
  rewrite substring_0, toHexString_bytes. cbn [flat_map]. rewrite app_nil_r.
  set (ic := firstn (length bytecode - 2) bytecode ++ hexOfByte b) in *.
  rewrite (toByteArray_hex _ ic Li Di).
  unfold concat. cbn [mapM]. rewrite A, arrayify_hexlify. cbn [bind List.concat].
  rewrite arrayifyNumbers_bytes. cbn [bind mapM]. rewrite !arrayify_bytes.
  cbn [bind List.concat]. rewrite keccak256_bytes. cbn [bind].
  rewrite hexDataSlice_hexlify. cbn [bind].
  rewrite getAddress_hexlify by apply digest_tail_length.
  unfold addressOfDigest. now rewrite !app_nil_r, <- app_assoc.
Qed.

Lemma grindLoop_found (ShardData : list ShardEntry)
      (nonceBytes matchShard sendAddress bytecode : jsstring)
      (random : list Uint8Array) (initCode : jsstring) :
  grindLoop ShardData nonceBytes matchShard sendAddress bytecode random
  = Found initCode ->
  exists before salt after contractBytes address,
    random = before ++ salt :: after
    /\ Forall (skipped ShardData nonceBytes matchShard sendAddress bytecode) before
    /\ grindCandidate nonceBytes sendAddress bytecode salt
       = Return (contractBytes, address)
    /\ initCode = toHexString contractBytes
    /\ getShardFromAddress ShardData address = Some matchShard.
Proof.
  induction random as [|salt random IH]; [discriminate|].
  cbn [grindLoop].
  destruct (grindCandidate nonceBytes sendAddress bytecode salt)
    as [[contractBytes address]|e] eqn:C; [|discriminate].
  assert (Skip : getShardFromAddress ShardData address <> Some matchShard ->
                 grindLoop ShardData nonceBytes matchShard sendAddress bytecode random
                 = Found initCode ->
                 exists before salt0 after contractBytes0 address0,
                   salt :: random = before ++ salt0 :: after
                   /\ Forall (skipped ShardData nonceBytes matchShard sendAddress
                                      bytecode) before
                   /\ grindCandidate nonceBytes sendAddress bytecode salt0
                      = Return (contractBytes0, address0)
                   /\ initCode = toHexString contractBytes0
                   /\ getShardFromAddress ShardData address0 = Some matchShard).
  { intros N G. destruct (IH G) as (before & s & after & cb & ad & -> & Fb & Cs & I & S).
    exists (salt :: before), s, after, cb, ad. splits; try assumption; [reflexivity|].
    constructor; [|exact Fb]. exists contractBytes, address. split; assumption. }
  destruct (getShardFromAddress ShardData address) as [shard0|] eqn:S.
  - destruct (eqb_str shard0 matchShard) eqn:E.
    + apply eqb_str_true in E. subst shard0. intros [= <-].
      exists [], salt, random, contractBytes, address.
      splits; try assumption; try reflexivity. constructor.
    + apply Skip. intros [= ->]. rewrite eqb_str_refl in E. discriminate E.
  - apply Skip. discriminate.
Qed.

(** C9, as the code has it: when [grindContractAddress] returns for a
    nonce that is a safe integer and a bytecode that is an even number of
    hex digits, with one-byte salts, the
    value returned is the bytecode in lower case with its last two digits
    replaced by the two hex digits of a salt; as bytes, it is the bytecode
    with its last byte replaced by that salt.  The address derived from the
    sender, the decimal text of the nonce padded to 32 bytes and these init
    code bytes resolves to the shard asked for, which is in the table.  The
    salt is the first one of the run that does so: every salt before it gave
    a candidate without failure, and was passed over because its address
    resolves to no shard or to another one. *)
Theorem grindContractAddress_spec (ShardData : list ShardEntry)
        (nonce : N) (matchShard sendAddress bytecode : jsstring)
        (random : list Uint8Array) (initCode : jsstring) :
  (nonce <= MAX_SAFE_INTEGER)%N ->
  forallb isHexDigit bytecode = true ->
  Nat.even (length bytecode) = true ->
  Forall (fun salt => length salt = 1) random ->
  grindContractAddress ShardData (Some nonce) (Some matchShard)
                       sendAddress bytecode random = Found initCode ->
  exists b before after sendBytes nonceBytes address,
    random = before ++ [b] :: after
    /\ initCode
       = toLowerCase (firstn (length bytecode - 2) bytecode) ++ hexOfByte b
    /\ bytesOfHex initCode
       = bytesOfHex (firstn (length bytecode - 2) bytecode) ++ [b]
    /\ arrayify (HexString sendAddress) = Return sendBytes
    /\ nonceBytes
       = firstn 32 (map byte_of_char (toStringRadix 10 nonce) ++ repeat Byte.x00 32)
    /\ length nonceBytes = 32
    /\ getChecksumAddress
         (hexlify (skipn 12 (Keccak.keccak_256
                               (sendBytes ++ nonceBytes ++ bytesOfHex initCode))))
       = Return address
    /\ getShardFromAddress ShardData address = Some matchShard
    /\ validShard ShardData matchShard = true
    /\ Forall (skipped ShardData (hexlify nonceBytes) matchShard sendAddress bytecode)
              before.
Proof.
  intros _ D E R G. unfold grindContractAddress in G.
  destruct (validShard ShardData matchShard) eqn:VS; [|discriminate G].
  cbn [negb] in G.
  destruct (formatBytes32String (toStringRadix 10 nonce)) as [nonceHex|] eqn:F;
    [|discriminate G].
  destruct (formatBytes32String_inv _ _ F) as (nb & -> & Ln & Nb).
  destruct (grindLoop_found _ _ _ _ _ _ _ G)
    as (before & salt & after & cb & address & -> & Fb & C & -> & S).
  assert (Ls : length salt = 1).
  { rewrite Forall_forall in R. apply R, in_elt. }
  destruct salt as [|b [|b' salt]]; try discriminate Ls.
  apply Nat.even_spec in E as [n E].
  destruct (arrayify (HexString sendAddress)) as [sb|e] eqn:A;
    [|rewrite (grindCandidate_throw _ _ _ _ _ A) in C; discriminate C].
  rewrite (grindCandidate_hex n nb sb _ _ b E D A) in C.
  destruct (initCode_hex n bytecode b E D) as (Lf & Li & Di).
  remember (firstn (length bytecode - 2) bytecode ++ hexOfByte b) as ic eqn:Eic.
  unfold addressOfDigest in C.
  destruct (getChecksumAddress _) as [address'|] eqn:Ad; [|discriminate C].
  cbn [bind] in C. injection C as <- <-.
  assert (I : toHexString (bytesAsNumbers (bytesOfHex ic))
              = toLowerCase (firstn (length bytecode - 2) bytecode) ++ hexOfByte b).
  { rewrite toHexString_bytes, (hex_bytesOfHex _ ic Li Di).
    now rewrite Eic, toLowerCase_app, hexOfByte_lower. }
  assert (B : bytesOfHex (toHexString (bytesAsNumbers (bytesOfHex ic))) = bytesOfHex ic)
    by (rewrite toHexString_bytes; apply bytesOfHex_hex).
  exists b, before, after, sb, nb, address'.
  splits; try assumption; try reflexivity.
  - rewrite B, Eic, (bytesOfHex_app _ _ _ Lf).
    change (hexOfByte b) with (flat_map hexOfByte [b]). now rewrite bytesOfHex_hex.
  - now rewrite B.
Qed.

(** An instance of C9: one salt, accepted by a table that covers every
    address. *)
Lemma grindContractAddress_spec_sample :
  exists b before after sendBytes nonceBytes address,
    [[x5f]] = before ++ [b] :: after
    /\ str "60805f"
       = toLowerCase (firstn (length (str "608000") - 2) (str "608000")) ++ hexOfByte b
    /\ bytesOfHex (str "60805f")
       = bytesOfHex (firstn (length (str "608000") - 2) (str "608000")) ++ [b]
    /\ arrayify (HexString sampleChecksummed) = Return sendBytes
    /\ nonceBytes
       = firstn 32 (map byte_of_char (toStringRadix 10 7) ++ repeat Byte.x00 32)
    /\ length nonceBytes = 32
    /\ getChecksumAddress
         (hexlify (skipn 12 (Keccak.keccak_256
                               (sendBytes ++ nonceBytes ++ bytesOfHex (str "60805f")))))
       = Return address
    /\ getShardFromAddress wideTable address = Some (str "zone")
    /\ validShard wideTable (str "zone") = true
    /\ Forall (skipped wideTable (hexlify nonceBytes) (str "zone") sampleChecksummed
                       (str "608000"))
              before.
Proof.
  apply (grindContractAddress_spec wideTable 7 (str "zone") sampleChecksummed
                                   (str "608000") [[x5f]] (str "60805f")).
  - vm_compute. discriminate.
  - reflexivity.
  - reflexivity.
  - repeat constructor.
  - vm_compute. reflexivity.
Defined.

(** Against C9: with the bytecode "ABCD" and the salt 0x5f the value returned
    is "ab5f"; the bytecode with its last byte replaced by the hex digits of
    the salt is "AB5f". *)
Lemma grindContractAddress_lower_cases :
  grindContractAddress wideTable (Some 7%N) (Some (str "zone")) sampleChecksummed
                       (str "ABCD") [[x5f]]
  = Found (str "ab5f")
  /\ firstn 2 (str "ABCD") ++ hexOfByte x5f = str "AB5f".
Proof. split; vm_compute; reflexivity. Qed.

(** ** More on getAddress *)

Lemma getChecksumAddress_throws (s : jsstring) (e : error) :
  getChecksumAddress s = Throw e -> e = InvalidAddress.
Proof.
  intros G. destruct (isHexString s (Some 20)) eqn:I.
  - destruct (isHexString_20_inv _ I) as (d & -> & H).
    rewrite (getChecksumAddress_eq _ H) in G. discriminate G.
  - rewrite (getChecksumAddress_invalid _ I) in G. congruence.
Qed.

Lemma getAddress_fixed (a r : jsstring) :
  getAddress a = Return r -> getAddress r = Return r.
Proof.
  intros G. destruct (getAddress_inv _ _ G) as (d & H & ->).
  rewrite getAddress_prefixed by now apply hex40_checksumChars.
  now apply hexPath_checksummed.
Qed.

(** X1: [getAddress] is idempotent: what it returns is an input it accepts
    and returns unchanged. *)
Theorem getAddress_idempotent (a r : jsstring) :
  getAddress a = Return r -> getAddress r = Return r.
Proof. apply getAddress_fixed. Qed.

(** An instance of X1: the lower-case digits of [sampleBytes]. *)
Lemma getAddress_idempotent_sample :
  getAddress sampleChecksummed = Return sampleChecksummed.
Proof.
  apply (getAddress_idempotent sampleLower sampleChecksummed).
  vm_compute. reflexivity.
Defined.

(** X2: every value of [getAddress] is "0x" followed by 40 hex digits, 42
    characters in all, and [isAddress] holds of it; [isAddress] holds of an
    input exactly when [getAddress] returns on it, and then the input
    matches one of the two patterns. *)
Theorem isAddress_spec (a : jsstring) :
  (isAddress a = true <-> exists r, getAddress a = Return r)
  /\ (isAddress a = true -> matchHexAddress a = true \/ matchIcap a = true)
  /\ (forall r, getAddress a = Return r ->
        isAddress r = true
        /\ length r = 42
        /\ exists d, r = str "0x" ++ d /\ hex40 d = true).
Proof.
  splits.
  - unfold isAddress. destruct (getAddress a) as [r|e]; split; eauto; try discriminate.
    intros [r R]. discriminate R.
  - unfold isAddress, getAddress.
    destruct (matchHexAddress a); [auto|]. destruct (matchIcap a); [auto|discriminate].
  - intros r G. splits.
    + unfold isAddress. now rewrite (getAddress_fixed _ _ G).
    + destruct (getAddress_inv _ _ G) as (d & H & ->).
      rewrite length_app, checksumChars_length, (hex40_length _ H). reflexivity.
    + destruct (getAddress_inv _ _ G) as (d & H & ->).
      exists (checksumChars d). split; [reflexivity|now apply hex40_checksumChars].
Qed.

(** An instance of X2: the lower-case digits of [sampleBytes]. *)
Lemma isAddress_spec_sample :
  isAddress sampleLower = true
  /\ isAddress sampleChecksummed = true
  /\ length sampleChecksummed = 42
  /\ exists d, sampleChecksummed = str "0x" ++ d /\ hex40 d = true.
Proof.
  destruct (isAddress_spec sampleLower) as (I & _ & R).
  split.
  - apply I. exists sampleChecksummed. vm_compute. reflexivity.
  - apply R. vm_compute. reflexivity.
Defined.

(** X3: the "0x" prefix is optional and is matched in lower case only: 40
    hex digits give the same result with and without "0x" in front, and fail
    with [InvalidAddress] with "0X" in front. *)
Theorem getAddress_prefix (d : jsstring) :
  hex40 d = true ->
  getAddress (str "0x" ++ d) = getAddress d
  /\ getAddress (str "0X" ++ d) = Throw InvalidAddress.
Proof.
  intros H. split.
  - now rewrite getAddress_prefixed, getAddress_bare.
  - unfold getAddress, matchHexAddress, hex40.
    change (str "0X" ++ d) with ("0"%char :: "X"%char :: d).
    cbn [length]. rewrite (hex40_length _ H). reflexivity.
Qed.

(** An instance of X3: the lower-case digits of [sampleBytes]. *)
Lemma getAddress_prefix_sample :
  getAddress (str "0x" ++ sampleLower) = getAddress sampleLower
  /\ getAddress (str "0X" ++ sampleLower) = Throw InvalidAddress.
Proof. apply (getAddress_prefix sampleLower). reflexivity. Defined.

Lemma existsb_anyThen (q : ascii -> bool) (s : jsstring) :
  forallb (fun c => negb (isLineTerminator c)) s = true ->
  anyThen q s = existsb q s.
Proof.
  induction s as [|c s IH]; [reflexivity|]. cbn [forallb anyThen existsb].
  intros H. apply andb_prop in H as [Hc H]. now rewrite Hc, (IH H).
Qed.

Lemma findPair_both (p q : ascii -> bool) (s : jsstring) :
  (forall c, p c && q c = false) ->
  forallb (fun c => negb (isLineTerminator c)) s = true ->
  findPair p q s || findPair q p s = existsb p s && existsb q s.
Proof.
  intros X. induction s as [|c s IH]; [reflexivity|].
  cbn [forallb findPair existsb]. intros H. apply andb_prop in H as [_ H].
  rewrite !(existsb_anyThen _ _ H). specialize (IH H). specialize (X c).
  destruct (p c), (q c), (existsb p s), (existsb q s),
    (findPair p q s), (findPair q p s); cbn in *; congruence.
Qed.

Lemma isHexDigit_not_terminator (c : ascii) :
  isHexDigit c = true -> negb (isLineTerminator c) = true.
Proof.
  revert c. apply (all_hexDigits (fun c => negb (isLineTerminator c))).
  vm_compute. reflexivity.
Qed.

Lemma upper_lower_disjoint (c : ascii) : isUpperHex c && isLowerHex c = false.
Proof.
  assert (E : negb (isUpperHex c && isLowerHex c) = true)
    by (revert c; apply all_chars; vm_compute; reflexivity).
  now apply negb_true_iff in E.
Qed.

Lemma matchMixedCase_hex (d : jsstring) :
  forallb isHexDigit d = true ->
  matchMixedCase d = existsb isUpperHex d && existsb isLowerHex d.
Proof.
  intros D. unfold matchMixedCase. apply findPair_both.
  - apply upper_lower_disjoint.
  - revert D. apply forallb_impl, isHexDigit_not_terminator.
Qed.

(** X4: checksum rejection.  On 40 hex digits, with or without "0x",
    [getAddress] fails with [BadChecksum] exactly when the digits hold both an
    upper-case and a lower-case letter and are not in their checksum form,
    the form [getChecksumAddress] gives to the bytes they denote; in every
    other case it returns that form. *)
Theorem getAddress_checksum_rejection (d s : jsstring) :
  hex40 d = true ->
  s = d \/ s = str "0x" ++ d ->
  exists form,
    getChecksumAddress (hexlify (bytesOfHex d)) = Return (str "0x" ++ form)
    /\ getAddress s
       = if existsb isUpperHex d && existsb isLowerHex d && negb (eqb_str form d)
         then Throw BadChecksum
         else Return (str "0x" ++ form).
Proof.
  intros H S. exists (checksumChars d). split; [now apply getChecksumAddress_bytes|].
  rewrite (getAddress_hex d s H S). unfold hexPath.
  rewrite matchMixedCase_prefix, (matchMixedCase_hex d) by now apply hex40_digits.
  replace (eqb_str (str "0x" ++ checksumChars d) (str "0x" ++ d))
    with (eqb_str (checksumChars d) d); [reflexivity|].
  destruct (eqb_str (checksumChars d) d) eqn:E.
  - apply eqb_str_true in E. rewrite E. now rewrite eqb_str_refl.
  - destruct (eqb_str (str "0x" ++ checksumChars d) (str "0x" ++ d)) eqn:E';
      [|reflexivity].
    apply eqb_str_true, app_inv_head in E'. rewrite E', eqb_str_refl in E.
    discriminate E.
Qed.

(** An instance of X4: [sampleChecksummed] with one more letter in upper
    case is rejected. *)
Lemma getAddress_checksum_rejection_sample :
  exists form,
    getChecksumAddress (hexlify (bytesOfHex sampleMiscased))
    = Return (str "0x" ++ form)
    /\ getAddress sampleMiscased
       = if existsb isUpperHex sampleMiscased && existsb isLowerHex sampleMiscased
            && negb (eqb_str form sampleMiscased)
         then Throw BadChecksum
         else Return (str "0x" ++ form).
Proof.
  apply (getAddress_checksum_rejection sampleMiscased sampleMiscased).
  - reflexivity.
  - left. reflexivity.
Defined.

(** X5: the failures of [getAddress] are [InvalidAddress], [BadChecksum] and
    [BadIcapChecksum] and no other; [BadChecksum] only arises on an input
    that matches the hex pattern and [BadIcapChecksum] only on one that
    matches the ICAP pattern. *)
Theorem getAddress_failures (a : jsstring) (e : error) :
  getAddress a = Throw e ->
  (e = InvalidAddress /\ matchHexAddress a = false)
  \/ (e = BadChecksum /\ matchHexAddress a = true)
  \/ (e = BadIcapChecksum /\ matchHexAddress a = false /\ matchIcap a = true).
Proof.
  intros G. destruct (matchHexAddress a) eqn:M.
  - destruct (matchHexAddress_inv _ M) as (d & H & S).
    rewrite (getAddress_hex d a H S) in G. unfold hexPath in G.
    destruct (_ && _); [|discriminate G]. right. left. split; congruence.
  - unfold getAddress in G. rewrite M in G.
    destruct (matchIcap a); [|left; split; congruence].
    destruct (negb _); [right; right; splits; congruence|].
    left. split; [|reflexivity]. now apply getChecksumAddress_throws in G.
Qed.

(** An instance of X5: a string that matches neither pattern. *)
Lemma getAddress_failures_sample :
  (InvalidAddress = InvalidAddress /\ matchHexAddress (str "0x1234") = false)
  \/ (InvalidAddress = BadChecksum /\ matchHexAddress (str "0x1234") = true)
  \/ (InvalidAddress = BadIcapChecksum /\ matchHexAddress (str "0x1234") = false
      /\ matchIcap (str "0x1234") = true).
Proof. apply (getAddress_failures (str "0x1234") InvalidAddress). reflexivity. Defined.

(** ** More on ICAP addresses *)

Lemma matchIcap_inv (s : jsstring) :
  matchIcap s = true ->
  exists c1 c2 body,
    s = str "XE" ++ [c1; c2] ++ body
    /\ isDigit c1 = true /\ isDigit c2 = true
    /\ (length body = 30 \/ length body = 31)
    /\ forallb isAlnum body = true.
Proof.
  intros M.
  destruct s as [|x s]; [discriminate M|]. each_char x; try discriminate M.
  destruct s as [|e s]; [discriminate M|]. each_char e; try discriminate M.
  destruct s as [|c1 [|c2 body]]; try discriminate M.
  unfold matchIcap in M. cbv beta iota in M.
  apply andb_prop in M as [M A]. apply andb_prop in M as [M L].
  apply andb_prop in M as [D1 D2].
  exists c1, c2, body. splits; try assumption; [reflexivity|].
  apply orb_prop in L as [L|L]; apply Nat.eqb_eq in L; auto.
Qed.

Lemma matchIcap_intro (c1 c2 : ascii) (body : jsstring) :
  isDigit c1 = true -> isDigit c2 = true ->
  length body = 30 \/ length body = 31 ->
  forallb isAlnum body = true ->
  matchIcap (str "XE" ++ [c1; c2] ++ body) = true.
Proof.
  intros D1 D2 L A.
  change (str "XE" ++ [c1; c2] ++ body)
    with ("X"%char :: "E"%char :: c1 :: c2 :: body).
  unfold matchIcap. cbv beta iota. rewrite D1, D2, A.
  destruct L as [-> | ->]; reflexivity.
Qed.

Lemma getAddress_icap_checked (c1 c2 : ascii) (body : jsstring) :
  matchIcap (str "XE" ++ [c1; c2] ++ body) = true ->
  getAddress (str "XE" ++ [c1; c2] ++ body)
  = if eqb_str [c1; c2] (ibanChecksum (str "XE00" ++ body))
    then getChecksumAddress
           (str "0x" ++ padZeros 40 (toStringRadix 16 (fromDigits 36 body)))
    else Throw BadIcapChecksum.
Proof.
  intros M. unfold getAddress.
  change (str "XE" ++ [c1; c2] ++ body)
    with ("X"%char :: "E"%char :: c1 :: c2 :: body) in *.
  rewrite matchHexAddress_XE, M.
  change (substring 2 4 ("X"%char :: "E"%char :: c1 :: c2 :: body)) with [c1; c2].
  rewrite (ibanChecksum_body _ _ c1 c2 "0" "0").
  change ("X"%char :: "E"%char :: "0"%char :: "0"%char :: body)
    with (str "XE00" ++ body).
  destruct (eqb_str _ _); reflexivity.
Qed.

(** X6: ICAP checksum rejection.  When [getAddress] accepts an ICAP string,
    the same string with any other two digits in the place of its checksum
    fails with [BadIcapChecksum]. *)
Theorem getAddress_icap_rejection (c1 c2 c1' c2' : ascii) (body r : jsstring) :
  getAddress (str "XE" ++ [c1; c2] ++ body) = Return r ->
  isDigit c1' = true -> isDigit c2' = true ->
  [c1'; c2'] <> [c1; c2] ->
  getAddress (str "XE" ++ [c1'; c2'] ++ body) = Throw BadIcapChecksum.
Proof.
  intros G D1' D2' N.
  assert (M : matchIcap (str "XE" ++ [c1; c2] ++ body) = true).
  { destruct (matchIcap (str "XE" ++ [c1; c2] ++ body)) eqn:M; [reflexivity|].
    unfold getAddress in G.
    change (str "XE" ++ [c1; c2] ++ body)
      with ("X"%char :: "E"%char :: c1 :: c2 :: body) in *.
    rewrite matchHexAddress_XE, M in G. discriminate G. }
  rewrite (getAddress_icap_checked _ _ _ M) in G.
  destruct (eqb_str [c1; c2] _) eqn:E; [|discriminate G].
  apply eqb_str_true in E.
  destruct (matchIcap_inv _ M) as (d1 & d2 & body0 & S & _ & _ & L & A).
  injection S as <- <- <-.
  rewrite getAddress_icap_checked by now apply matchIcap_intro.
  rewrite <- E.
  destruct (eqb_str [c1'; c2'] [c1; c2]) eqn:E'; [|reflexivity].
  apply eqb_str_true in E'. congruence.
Qed.

(** An instance of X6: [sampleIcap] with the checksum 66 instead of 65. *)
Lemma getAddress_icap_rejection_sample :
  getAddress (str "XE66GB6LDNXYOFTX0NSV3FUWKOWIXAMJK36") = Throw BadIcapChecksum.
Proof.
  apply (getAddress_icap_rejection "6" "5" "6" "6"
           (str "GB6LDNXYOFTX0NSV3FUWKOWIXAMJK36") sampleChecksummed).
  - vm_compute. reflexivity.
  - reflexivity.
  - reflexivity.
  - discriminate.
Defined.

Lemma validIn_digitChar (d : N) : (d < 16)%N -> validIn 16 (digitChar d) = true.
Proof.
  revert d. apply (all_below (fun d => validIn 16 (digitChar d)) 16).
  vm_compute. reflexivity.
Qed.

Lemma toStringRadix_long (n : N) :
  (16 ^ N.of_nat 40 <= n)%N -> 40 < length (toStringRadix 16 n).
Proof.
  intros B. destruct (Nat.ltb_spec 40 (length (toStringRadix 16 n))) as [|L];
    [assumption|exfalso].
  assert (V : forallb (validIn 16) (toStringRadix 16 n) = true)
    by (apply toStringRadix_forallb; [lia|apply validIn_digitChar]).
  apply fromDigits_bound in V. rewrite toStringRadix_value in V by lia.
  assert (P : (16 ^ N.of_nat (length (toStringRadix 16 n)) <= 16 ^ N.of_nat 40)%N)
    by (apply N.pow_le_mono_r; lia).
  lia.
Qed.

Lemma getChecksumAddress_number (n : N) :
  ((n < 16 ^ N.of_nat 40)%N ->
   exists r,
     getChecksumAddress (str "0x" ++ padZeros 40 (toStringRadix 16 n)) = Return r
     /\ fromDigits 16 (skipn 2 r) = n)
  /\ ((16 ^ N.of_nat 40 <= n)%N ->
      getChecksumAddress (str "0x" ++ padZeros 40 (toStringRadix 16 n))
      = Throw InvalidAddress).
Proof.
  split; intros B.
  - destruct (toStringRadix_fixed 16 n 40) as [_ E]; [lia|lia|exact B|].
    rewrite E.
    assert (H : hex40 (fixedDigits 40 16 n) = true).
    { unfold hex40. rewrite fixedDigits_length.
      rewrite fixedDigits_forallb; [reflexivity|lia|apply isHexDigit_digitChar]. }
    rewrite (getChecksumAddress_eq _ H). eexists. split; [reflexivity|].
    change (skipn 2 (str "0x" ++ checksumChars (fixedDigits 40 16 n)))
      with (checksumChars (fixedDigits 40 16 n)).
    rewrite <- fromDigits_lower, toLowerCase_checksumChars, fromDigits_lower
      by apply fixedDigits_length.
    apply fixedDigits_value; [lia|exact B].
  - apply getChecksumAddress_invalid.
    pose proof (toStringRadix_long n B) as L.
    unfold padZeros.
    replace (40 - length (toStringRadix 16 n)) with 0 by lia.
    cbn [repeat app].
    change (str "0x" ++ toStringRadix 16 n)
      with ("0"%char :: "x"%char :: toStringRadix 16 n).
    unfold isHexString. cbv beta iota. cbn [length].
    replace (S (S (length (toStringRadix 16 n))) =? 2 + 2 * 20) with false;
      [apply andb_false_r|].
    symmetry. apply Nat.eqb_neq. lia.
Qed.

(** X7: the ICAP branch of [getAddress].  On a string that matches the ICAP
    pattern and carries its own checksum, [getAddress] reads the characters
    after the checksum as a number in base 36: when the number is below
    2^160 it returns an address whose 40 hex digits denote that number, and
    when it is not (which 31 characters allow) it fails with
    [InvalidAddress]. *)
Theorem getAddress_icap_value (s : jsstring) :
  matchIcap s = true ->
  substring 2 4 s = ibanChecksum s ->
  ((fromDigits 36 (skipn 4 s) < 16 ^ N.of_nat 40)%N ->
   exists r, getAddress s = Return r
             /\ fromDigits 16 (skipn 2 r) = fromDigits 36 (skipn 4 s))
  /\ ((16 ^ N.of_nat 40 <= fromDigits 36 (skipn 4 s))%N ->
      getAddress s = Throw InvalidAddress).
Proof.
  intros M C.
  destruct (matchIcap_inv _ M) as (c1 & c2 & body & -> & _).
  rewrite (getAddress_icap_checked _ _ _ M).
  change (substring 2 4 (str "XE" ++ [c1; c2] ++ body)) with [c1; c2] in C.
  change (str "XE" ++ [c1; c2] ++ body)
    with ("X"%char :: "E"%char :: c1 :: c2 :: body) in C.
  rewrite (ibanChecksum_body _ _ c1 c2 "0" "0") in C.
  change ("X"%char :: "E"%char :: "0"%char :: "0"%char :: body)
    with (str "XE00" ++ body) in C.
  rewrite <- C, eqb_str_refl.
  change (skipn 4 (str "XE" ++ [c1; c2] ++ body)) with body.
  apply getChecksumAddress_number.
Qed.

(** An instance of X7: [sampleIcap] is read back, and [sampleIcapTooLarge]
    is refused. *)
Lemma getAddress_icap_value_sample :
  (exists r, getAddress sampleIcap = Return r
             /\ fromDigits 16 (skipn 2 r) = fromDigits 36 (skipn 4 sampleIcap))
  /\ getAddress sampleIcapTooLarge = Throw InvalidAddress.
Proof.
  split.
  - apply (getAddress_icap_value sampleIcap); [reflexivity|reflexivity|].
    vm_compute. reflexivity.
  - apply (getAddress_icap_value sampleIcapTooLarge); [reflexivity|reflexivity|].
    vm_compute. discriminate.
Defined.

(** ** getIcapAddress *)

Lemma upper_digitChar_not_lower (d : N) :
  (d < 36)%N -> negb (isLower (upperChar (digitChar d))) = true.
Proof.
  revert d. apply (all_below (fun d => negb (isLower (upperChar (digitChar d)))) 36).
  vm_compute. reflexivity.
Qed.

Lemma icapPayload_upper (n : N) : allUpperCase (icapPayload n) = true.
Proof.
  unfold allUpperCase, icapPayload, padZeros.
  rewrite forallb_app, (forallb_zeros (fun c => negb (isLower c))) by reflexivity.
  unfold toUpperCase. rewrite forallb_map.
  apply (toStringRadix_forallb (fun c => negb (isLower (upperChar c)))); [lia|].
  apply upper_digitChar_not_lower.
Qed.

(** X8: [getIcapAddress] fails as [getAddress] does on its argument, and
    otherwise returns "XE", two check digits and 30 or 31 digits and
    upper-case letters: a string that matches the ICAP pattern, whose check
    digits are those [ibanChecksum] computes for it, and whose last part
    denotes in base 36 the number that the 40 hex digits of the address
    denote in base 16. *)
Theorem getIcapAddress_spec (a : jsstring) :
  (forall e, getAddress a = Throw e -> getIcapAddress a = Throw e)
  /\ (forall r,
        getAddress a = Return r ->
        exists c1 c2 body,
          getIcapAddress a = Return (str "XE" ++ [c1; c2] ++ body)
          /\ matchIcap (str "XE" ++ [c1; c2] ++ body) = true
          /\ ibanChecksum (str "XE" ++ [c1; c2] ++ body) = [c1; c2]
          /\ (length body = 30 \/ length body = 31)
          /\ allUpperCase body = true
          /\ fromDigits 36 body = fromDigits 16 (skipn 2 r)).
Proof.
  split.
  - intros e G. unfold getIcapAddress. now rewrite G.
  - intros r G. destruct (getAddress_inv _ _ G) as (d & H & ->).
    pose proof (hex40_checksumChars _ H) as H'.
    rewrite (getIcapAddress_eq _ _ G).
    change (skipn 2 (str "0x" ++ checksumChars d)) with (checksumChars d).
    set (n := fromDigits 16 (checksumChars d)).
    destruct (icapPayload_spec n) as (L & A & V);
      [now apply address_number_bound|].
    destruct (ibanChecksum_digits (str "XE00" ++ icapPayload n))
      as (c1 & c2 & C & D1 & D2).
    exists c1, c2, (icapPayload n). rewrite C. splits.
    + reflexivity.
    + now apply matchIcap_intro.
    + change (str "XE" ++ [c1; c2] ++ icapPayload n)
        with ("X"%char :: "E"%char :: c1 :: c2 :: icapPayload n).
      rewrite (ibanChecksum_body _ _ c1 c2 "0" "0"). exact C.
    + exact L.
    + apply icapPayload_upper.
    + exact V.
Qed.

(** An instance of X8: the ICAP form of [sampleChecksummed]. *)
Lemma getIcapAddress_spec_sample :
  exists c1 c2 body,
    getIcapAddress sampleLower = Return (str "XE" ++ [c1; c2] ++ body)
    /\ matchIcap (str "XE" ++ [c1; c2] ++ body) = true
    /\ ibanChecksum (str "XE" ++ [c1; c2] ++ body) = [c1; c2]
    /\ (length body = 30 \/ length body = 31)
    /\ allUpperCase body = true
    /\ fromDigits 36 body = fromDigits 16 (skipn 2 sampleChecksummed).
Proof.
  destruct (getIcapAddress_spec sampleLower) as [_ R].
  apply R. vm_compute. reflexivity.
Defined.

(** ** The check digits *)






(** ** The shard table *)

Lemma existsb_filter {A} (p : A -> bool) (l : list A) :
  (if length (filter p l) =? 0 then false else true) = existsb p l.
Proof.
  induction l as [|a l IH]; [reflexivity|]. cbn [filter existsb].
  destruct (p a); [reflexivity|exact IH].
Qed.

Lemma validShard_In (ShardData : list ShardEntry) (name : jsstring) :
  validShard ShardData name = true
  <-> exists obj, In obj ShardData /\ shard obj = name.
Proof.
  unfold validShard. rewrite existsb_filter, existsb_exists.
  split; intros (obj & I & E); exists obj; (split; [exact I|]).
  - now apply eqb_str_true.
  - now apply eqb_str_true.
Qed.

(** X10: [validShard] holds of a name exactly when an entry of the table
    carries it; every shard that [getShardFromAddress] returns is such a
    name, and it returns nothing exactly when no entry of the table has
    bounds that enclose the number read from the address. *)
Theorem validShard_spec (ShardData : list ShardEntry) (name address : jsstring) :
  (validShard ShardData name = true
   <-> exists obj, In obj ShardData /\ shard obj = name)
  /\ (getShardFromAddress ShardData address = Some name ->
      validShard ShardData name = true)
  /\ (getShardFromAddress ShardData address = None
      <-> forall obj,
          In obj ShardData ->
          jsGe (Number (substring 0 4 address)) (Number (str "0x" ++ fst (byte obj)))
          && jsLe (Number (substring 0 4 address)) (Number (str "0x" ++ snd (byte obj)))
          = false).
Proof.
  splits.
  - apply validShard_In.
  - rewrite getShardFromAddress_find. intros G. apply validShard_In.
    destruct (find _ ShardData) as [obj|] eqn:F; [|discriminate G].
    apply find_some in F as [I _]. exists obj. split; [exact I|].
    cbn in G. congruence.
  - rewrite getShardFromAddress_find. split.
    + intros G obj I. destruct (find _ ShardData) as [o|] eqn:F; [discriminate G|].
      exact (find_none _ _ F obj I).
    + intros N. destruct (find _ ShardData) as [o|] eqn:F; [|reflexivity].
      apply find_some in F as [I T]. rewrite (N o I) in T. discriminate T.
Qed.

(** An instance of X10: the shard that [sampleTable] gives [sampleAddress]. *)
Lemma validShard_spec_sample : validShard sampleTable (str "cyprus1") = true.
Proof.
  destruct (validShard_spec sampleTable (str "cyprus1") sampleAddress) as (_ & V & _).
  apply V. reflexivity.
Defined.

(** ** The outcomes of grindContractAddress *)

Lemma formatBytes32String_nonce (nonce : N) :
  (nonce <= MAX_SAFE_INTEGER)%N ->
  formatBytes32String (toStringRadix 10 nonce) = Return (hexlify (nonce32 nonce)).
Proof.
  intros S. unfold formatBytes32String, nonce32. rewrite length_map.
  destruct (toStringRadix_fixed 10 nonce 16) as [L _].
  - lia.
  - lia.
  - apply N.le_lt_trans with (1 := S). vm_compute. reflexivity.
  - destruct (Nat.ltb_spec 31 (length (toStringRadix 10 nonce))); [lia|reflexivity].
Qed.

Lemma grindLoop_skips (ShardData : list ShardEntry)
      (nonceBytes matchShard sendAddress bytecode : jsstring)
      (before random : list Uint8Array) :
  Forall (skipped ShardData nonceBytes matchShard sendAddress bytecode) before ->
  grindLoop ShardData nonceBytes matchShard sendAddress bytecode (before ++ random)
  = grindLoop ShardData nonceBytes matchShard sendAddress bytecode random.
Proof.
  induction 1 as [|salt before (cb & address & C & N) _ IH]; [reflexivity|].
  cbn [app grindLoop]. rewrite C.
  destruct (getShardFromAddress ShardData address) as [shard0|]; [|exact IH].
  destruct (eqb_str shard0 matchShard) eqn:E; [|exact IH].
  apply eqb_str_true in E. congruence.
Qed.

(** X11: the three outcomes of the search.  For a safe-integer nonce and a
    shard of the table, once every salt of [before] is passed over:
    the run stops with the init code of the next salt when its candidate
    address resolves to the shard asked for; it fails with the failure of the
    next salt's candidate when there is one; and it is still searching when
    the salts are used up. *)
Theorem grindContractAddress_outcomes (ShardData : list ShardEntry)
        (nonce : N) (matchShard sendAddress bytecode : jsstring)
        (before after : list Uint8Array) (salt : Uint8Array) :
  (nonce <= MAX_SAFE_INTEGER)%N ->
  validShard ShardData matchShard = true ->
  Forall (skipped ShardData (hexlify (nonce32 nonce)) matchShard sendAddress bytecode)
         before ->
  (forall contractBytes address,
      grindCandidate (hexlify (nonce32 nonce)) sendAddress bytecode salt
      = Return (contractBytes, address) ->
      getShardFromAddress ShardData address = Some matchShard ->
      grindContractAddress ShardData (Some nonce) (Some matchShard) sendAddress
                           bytecode (before ++ salt :: after)
      = Found (toHexString contractBytes))
  /\ (forall e,
         grindCandidate (hexlify (nonce32 nonce)) sendAddress bytecode salt = Throw e ->
         grindContractAddress ShardData (Some nonce) (Some matchShard) sendAddress
                              bytecode (before ++ salt :: after)
         = Failed e)
  /\ grindContractAddress ShardData (Some nonce) (Some matchShard) sendAddress
                          bytecode before
     = Searching.
Proof.
  intros S V B. unfold grindContractAddress.
  rewrite V, (formatBytes32String_nonce _ S). cbn [negb]. splits.
  - intros cb address C G. rewrite (grindLoop_skips _ _ _ _ _ _ _ B).
    cbn [grindLoop]. now rewrite C, G, eqb_str_refl.
  - intros e C. rewrite (grindLoop_skips _ _ _ _ _ _ _ B).
    cbn [grindLoop]. now rewrite C.
  - rewrite <- (app_nil_r before), (grindLoop_skips _ _ _ _ _ _ _ B). reflexivity.
Qed.

(** An instance of X11, on [splitTable] and the shard "high": the salts 0x02
    and 0x03 give addresses of the shard "low" and are passed over, the salt
    0x01 gives an address of the shard "high" and its init code is returned;
    with the first two salts alone the run is still searching; and with a
    bytecode that starts with "0x" the first candidate fails, and so does
    the run. *)
Lemma grindContractAddress_outcomes_sample :
  grindCandidate (hexlify (nonce32 7)) sampleChecksummed (str "608000") [x02]
  = Return ([Some 96%Z; Some 128%Z; Some 2%Z],
            str "0x43025325031ef3953BaAcF20185923a26934E622")
  /\ getShardFromAddress splitTable (str "0x43025325031ef3953BaAcF20185923a26934E622")
     = Some (str "low")
  /\ grindCandidate (hexlify (nonce32 7)) sampleChecksummed (str "608000") [x03]
     = Return ([Some 96%Z; Some 128%Z; Some 3%Z],
               str "0x3aEe9c7F073726b84D1F47A80d53ba69Ea2400da")
  /\ getShardFromAddress splitTable (str "0x3aEe9c7F073726b84D1F47A80d53ba69Ea2400da")
     = Some (str "low")
  /\ grindCandidate (hexlify (nonce32 7)) sampleChecksummed (str "608000") [x01]
     = Return ([Some 96%Z; Some 128%Z; Some 1%Z],
               str "0xa464e262A24b995463C7CB190212468FDa75FaE2")
  /\ getShardFromAddress splitTable (str "0xa464e262A24b995463C7CB190212468FDa75FaE2")
     = Some (str "high")
  /\ grindContractAddress splitTable (Some 7%N) (Some (str "high")) sampleChecksummed
                          (str "608000") [[x02]; [x03]; [x01]; [x00]]
     = Found (str "608001")
  /\ grindContractAddress splitTable (Some 7%N) (Some (str "high")) sampleChecksummed
                          (str "608000") [[x02]; [x03]]
     = Searching
  /\ grindCandidate (hexlify (nonce32 7)) sampleChecksummed (str "0x6080") [x01]
     = Throw InvalidArrayify
  /\ grindContractAddress splitTable (Some 7%N) (Some (str "high")) sampleChecksummed
                          (str "0x6080") [[x01]; [x00]]
     = Failed InvalidArrayify.
Proof.
  assert (C2 : grindCandidate (hexlify (nonce32 7)) sampleChecksummed (str "608000") [x02]
               = Return ([Some 96%Z; Some 128%Z; Some 2%Z],
                         str "0x43025325031ef3953BaAcF20185923a26934E622"))
    by (vm_compute; reflexivity).
  assert (C3 : grindCandidate (hexlify (nonce32 7)) sampleChecksummed (str "608000") [x03]
               = Return ([Some 96%Z; Some 128%Z; Some 3%Z],
                         str "0x3aEe9c7F073726b84D1F47A80d53ba69Ea2400da"))
    by (vm_compute; reflexivity).
  assert (C1 : grindCandidate (hexlify (nonce32 7)) sampleChecksummed (str "608000") [x01]
               = Return ([Some 96%Z; Some 128%Z; Some 1%Z],
                         str "0xa464e262A24b995463C7CB190212468FDa75FaE2"))
    by (vm_compute; reflexivity).
  assert (C0 : grindCandidate (hexlify (nonce32 7)) sampleChecksummed (str "0x6080") [x01]
               = Throw InvalidArrayify)
    by (vm_compute; reflexivity).
  destruct (grindContractAddress_outcomes splitTable 7 (str "high") sampleChecksummed
              (str "608000") [[x02]; [x03]] [[x00]] [x01]) as (F & _ & S).
  - vm_compute. discriminate.
  - reflexivity.
  - constructor; [|constructor; [|constructor]].
    + eexists. eexists. split; [exact C2|]. vm_compute. discriminate.
    + eexists. eexists. split; [exact C3|]. vm_compute. discriminate.
  - destruct (grindContractAddress_outcomes splitTable 7 (str "high") sampleChecksummed
                (str "0x6080") [] [[x00]] [x01]) as (_ & E & _).
    + vm_compute. discriminate.
    + reflexivity.
    + constructor.
    + splits.
      * exact C2.
      * vm_compute. reflexivity.
      * exact C3.
      * vm_compute. reflexivity.
      * exact C1.
      * vm_compute. reflexivity.
      * apply (F _ _ C1). vm_compute. reflexivity.
      * exact S.
      * exact C0.
      * apply (E _ C0).
Defined.

(** X12: the failures on the arguments come first and in this order: without
    a nonce the failure is [MissingNonce], whatever the other arguments; with
    a nonce and without a shard, or with a shard that no entry of the table
    carries, it is [MissingMatchShard]; no salt is looked at in either case. *)
Theorem grindContractAddress_arguments (ShardData : list ShardEntry)
        (nonce : option N) (matchShard : option jsstring)
        (sendAddress bytecode : jsstring) (random : list Uint8Array) :
  (nonce = None ->
   grindContractAddress ShardData nonce matchShard sendAddress bytecode random
   = Failed MissingNonce)
  /\ (nonce <> None ->
      (matchShard = None
       \/ exists name, matchShard = Some name
                       /\ forall obj, In obj ShardData -> shard obj <> name) ->
      grindContractAddress ShardData nonce matchShard sendAddress bytecode random
      = Failed MissingMatchShard).
Proof.
  split.
  - intros ->. reflexivity.
  - intros N M. destruct nonce as [n|]; [|congruence]. unfold grindContractAddress.
    destruct M as [-> | (name & -> & M)]; [reflexivity|].
    destruct (validShard ShardData name) eqn:V; [|reflexivity].
    apply validShard_In in V as (obj & I & E). now apply M in I.
Qed.

(** An instance of X12: a shard that [sampleTable] does not carry. *)
Lemma grindContractAddress_arguments_sample :
  grindContractAddress sampleTable (Some 7%N) (Some (str "zone")) sampleChecksummed
                       (str "608000") [[x5f]]
  = Failed MissingMatchShard.
Proof.
  destruct (grindContractAddress_arguments sampleTable (Some 7%N) (Some (str "zone"))
              sampleChecksummed (str "608000") [[x5f]]) as [_ H].
  apply H; [discriminate|]. right. exists (str "zone"). split; [reflexivity|].
  intros obj [<- | []]. discriminate.
Defined.

Lemma firstn_prefixed (rest : jsstring) :
  2 <= length rest ->
  firstn (length (str "0x" ++ rest) - 2) (str "0x" ++ rest)
  = "0"%char :: "x"%char :: firstn (length rest - 2) rest.
Proof.
  intros L. change (str "0x" ++ rest) with ("0"%char :: "x"%char :: rest).
  cbn [length]. replace (S (S (length rest)) - 2) with (S (S (length rest - 2))) by lia.
  reflexivity.
Qed.

Lemma toByteArray_prefixed (t : jsstring) :
  exists l, toByteArray ("0"%char :: "x"%char :: t) = None :: l.
Proof.
  unfold toByteArray. cbn [length toByteArrayLoop Nat.leb].
  change (substring 0 2 ("0"%char :: "x"%char :: t)) with [ "0"%char; "x"%char ].
  change (parseInt [ "0"%char; "x"%char ] 16) with (@None Z). eauto.
Qed.

(** X13: a bytecode that starts with "0x" makes every candidate fail.  With
    at least one byte after the prefix, a sender that is a hex string and a
    nonce block, the init code keeps the prefix, [toByteArray] reads "0x" as
    [NaN], and the candidate fails with the "invalid arrayify value" of
    [concat]; so does [grindContractAddress] at its first salt. *)
Theorem grindContractAddress_prefixed_bytecode (ShardData : list ShardEntry)
        (nonce : N) (matchShard sendAddress rest : jsstring)
        (salt sendBytes : Uint8Array) (random : list Uint8Array) :
  (nonce <= MAX_SAFE_INTEGER)%N ->
  validShard ShardData matchShard = true ->
  arrayify (HexString sendAddress) = Return sendBytes ->
  2 <= length rest ->
  grindCandidate (hexlify (nonce32 nonce)) sendAddress (str "0x" ++ rest) salt
  = Throw InvalidArrayify
  /\ grindContractAddress ShardData (Some nonce) (Some matchShard) sendAddress
                          (str "0x" ++ rest) (salt :: random)
     = Failed InvalidArrayify.
Proof.
  intros S V A L.
  assert (C : grindCandidate (hexlify (nonce32 nonce)) sendAddress (str "0x" ++ rest) salt
              = Throw InvalidArrayify).
  { unfold grindCandidate. rewrite substring_0, (firstn_prefixed _ L).
    cbn [app].
    destruct (toByteArray_prefixed (firstn (length rest - 2) rest
                                      ++ toHexString (bytesAsNumbers salt)))
      as (l & ->).
    unfold concat. cbn [mapM]. rewrite A, arrayify_hexlify. cbn [bind].
    reflexivity. }
  split; [exact C|].
  unfold grindContractAddress.
  rewrite V, (formatBytes32String_nonce _ S). cbn [negb grindLoop]. now rewrite C.
Qed.

(** An instance of X13: the bytecode "0x6080". *)
Lemma grindContractAddress_prefixed_bytecode_sample :
  grindCandidate (hexlify (nonce32 7)) sampleChecksummed (str "0x" ++ str "6080") [x5f]
  = Throw InvalidArrayify
  /\ grindContractAddress wideTable (Some 7%N) (Some (str "zone")) sampleChecksummed
                          (str "0x" ++ str "6080") [[x5f]]
     = Failed InvalidArrayify.
Proof.
  apply (grindContractAddress_prefixed_bytecode wideTable 7 (str "zone")
           sampleChecksummed (str "6080") [x5f] sampleBytes []).
  - vm_compute. discriminate.
  - reflexivity.
  - vm_compute. reflexivity.
  - cbn. lia.
Defined.

(** ** toHexString and toByteArray, on any numbers *)

Lemma skipn_last_two (t : jsstring) :
  1 <= length t <= 2 ->
  length (skipn (length ("0"%char :: t) - 2) ("0"%char :: t)) = 2.
Proof. intros L. rewrite length_skipn. cbn [length]. lia. Qed.

Lemma toHexString_element (z : Z) :
  1 <= length (toStringRadix 16 (Z.to_N (Z.land z 0xFF))) <= 2.
Proof.
  assert (B : (0 <= Z.land z 0xFF < 256)%Z).
  { change 0xFF%Z with (Z.ones 8). rewrite Z.land_ones by lia.
    change (2 ^ 8)%Z with 256%Z. apply Z.mod_pos_bound. lia. }
  split.
  - pose proof (toStringRadix_nonempty 16 (Z.to_N (Z.land z 0xFF))) as NE.
    destruct (toStringRadix 16 _); [congruence|cbn; lia].
  - apply (toStringRadix_fixed 16 _ 2); [lia|lia|].
    change (16 ^ N.of_nat 2)%N with 256%N. lia.
Qed.

Lemma toHexString_length (l : list jsint) : length (toHexString l) = 2 * length l.
Proof.
  unfold toHexString. induction l as [|b l IH]; [reflexivity|].
  cbn [flat_map]. rewrite length_app, IH. cbv zeta.
  rewrite skipn_last_two; [cbn [length]; lia|].
  destruct b as [z|]; [apply toHexString_element|].
  apply (toHexString_element 0).
Qed.

(** X14: [toHexString] writes two characters for every element of its
    argument, whatever the numbers are; on bytes it writes their two hex
    digits in lower case, which [toByteArray] reads back as the same bytes;
    and on an even number of hex digits [toByteArray] followed by
    [toHexString] gives the digits back in lower case. *)
Theorem toHexString_toByteArray (l : list jsint) (bs : Uint8Array) (s : jsstring) :
  length (toHexString l) = 2 * length l
  /\ toHexString (bytesAsNumbers bs) = flat_map hexOfByte bs
  /\ toByteArray (toHexString (bytesAsNumbers bs)) = bytesAsNumbers bs
  /\ (forallb isHexDigit s = true -> Nat.even (length s) = true ->
      toHexString (toByteArray s) = toLowerCase s).
Proof.
  splits.
  - apply toHexString_length.
  - apply toHexString_bytes.
  - rewrite toHexString_bytes.
    rewrite (toByteArray_hex (length bs)) by (apply hex_length || apply hex_isHexDigit).
    now rewrite bytesOfHex_hex.
  - intros D E. apply Nat.even_spec in E as [n E].
    rewrite (toByteArray_hex n s E D), toHexString_bytes.
    now apply (hex_bytesOfHex n).
Qed.

(** An instance of X14: two upper-case bytes. *)
Lemma toHexString_toByteArray_sample :
  toHexString (toByteArray (str "ABCD")) = toLowerCase (str "ABCD").
Proof.
  destruct (toHexString_toByteArray [] [] (str "ABCD")) as (_ & _ & _ & H).
  apply H; reflexivity.
Defined.

(** ** getChecksumAddress, on any string *)

Lemma lower_upper (c : ascii) : lowerChar (upperChar c) = lowerChar c.
Proof. each_char c; reflexivity. Qed.

Lemma toLowerCase_toUpperCase (s : jsstring) :
  toLowerCase (toUpperCase s) = toLowerCase s.
Proof.
  unfold toLowerCase, toUpperCase. rewrite map_map. apply map_ext, lower_upper.
Qed.

Lemma hex40_upper (d : jsstring) : hex40 (toUpperCase d) = hex40 d.
Proof. now rewrite <- hex40_lower, toLowerCase_toUpperCase, hex40_lower. Qed.

(** X15: [getChecksumAddress] returns exactly on "0x" followed by 40 hex
    digits and fails with [InvalidAddress] on every other string.  Its
    result does not depend on the case of the digits: the digits as given,
    in lower case, in upper case, and the result itself all give the same
    result, which is the one of the 20 bytes they denote. *)
Theorem getChecksumAddress_total (s : jsstring) :
  (isHexString s (Some 20) = false -> getChecksumAddress s = Throw InvalidAddress)
  /\ (isHexString s (Some 20) = true ->
      exists d r,
        s = str "0x" ++ d
        /\ getChecksumAddress s = Return r
        /\ getChecksumAddress (str "0x" ++ toLowerCase d) = Return r
        /\ getChecksumAddress (str "0x" ++ toUpperCase d) = Return r
        /\ getChecksumAddress r = Return r
        /\ getChecksumAddress (hexlify (bytesOfHex d)) = Return r).
Proof.
  split; [apply getChecksumAddress_invalid|].
  intros I. destruct (isHexString_20_inv _ I) as (d & -> & H).
  exists d, (str "0x" ++ checksumChars d). splits.
  - reflexivity.
  - now apply getChecksumAddress_eq.
  - rewrite getChecksumAddress_eq by now rewrite hex40_lower.
    now rewrite checksumChars_lower.
  - rewrite getChecksumAddress_eq by now rewrite hex40_upper.
    rewrite <- checksumChars_lower, toLowerCase_toUpperCase.
    now rewrite checksumChars_lower.
  - rewrite getChecksumAddress_eq by now apply hex40_checksumChars.
    now rewrite checksumChars_idem by now apply hex40_length.
  - now apply getChecksumAddress_bytes.
Qed.

(** An instance of X15: the lower-case digits of [sampleBytes]. *)
Lemma getChecksumAddress_total_sample :
  exists d r,
    str "0x" ++ sampleLower = str "0x" ++ d
    /\ getChecksumAddress (str "0x" ++ sampleLower) = Return r
    /\ getChecksumAddress (str "0x" ++ toLowerCase d) = Return r
    /\ getChecksumAddress (str "0x" ++ toUpperCase d) = Return r
    /\ getChecksumAddress r = Return r
    /\ getChecksumAddress (hexlify (bytesOfHex d)) = Return r.
Proof.
  destruct (getChecksumAddress_total (str "0x" ++ sampleLower)) as [_ H].
  apply H. reflexivity.
Defined.

(** ** The addresses that the derivations return *)

Lemma addressOfDigest_fixed (bytes : Uint8Array) (r : jsstring) :
  addressOfDigest bytes = Return r -> getAddress r = Return r.
Proof.
  unfold addressOfDigest. intros G.
  destruct (getChecksumAddress_inv _ _ G) as (d & H & _ & ->).
  rewrite getAddress_prefixed by now apply hex40_checksumChars.
  now apply hexPath_checksummed.
Qed.

Lemma getContractAddress_digest (transaction : Transaction) (f : jsstring) :
  getAddress (from transaction) = Return f ->
  exists encoded, getContractAddress transaction = addressOfDigest encoded.
Proof.
  intros G.
  destruct (arrayify_address _ _ G) as (fb & F & _).
  destruct (toHexString_BigNumber_bytes (nonce transaction)) as (nb & A & _).
  exists (rlpHeader 0xc0 0xf7 (rlpItem fb ++ rlpItem (dropZeros nb))).
  unfold getContractAddress. rewrite G. cbn [catchAs bind].
  unfold stripZeros. rewrite A. cbn [bind]. unfold encode.
  rewrite (_encode_pair _ _ (rlpItem fb) (rlpItem (dropZeros nb)))
    by now apply _encode_bytes.
  cbn [bind]. rewrite keccak256_hexlify. cbn [bind]. apply digest_pipeline.
Qed.

(** X16: what [getContractAddress] and [getCreate2Address] return is a
    checksum address: [getAddress] returns it unchanged.  They differ on an
    invalid [from]: [getContractAddress] replaces the failure of
    [getAddress] by [MissingFromAddress], and [getCreate2Address], once the
    two lengths are right, fails with the failure of [getAddress] itself. *)
Theorem derived_addresses (transaction : Transaction) (a : jsstring)
        (salt initCodeHash : BytesLike) :
  (forall r, getContractAddress transaction = Return r -> getAddress r = Return r)
  /\ (forall r,
         getCreate2Address a salt initCodeHash = Return r -> getAddress r = Return r)
  /\ (forall e,
         hexDataLength salt = Some 32 ->
         hexDataLength initCodeHash = Some 32 ->
         getAddress a = Throw e ->
         getCreate2Address a salt initCodeHash = Throw e).
Proof.
  splits.
  - intros r G. destruct (getAddress (from transaction)) as [f|e] eqn:F.
    + destruct (getContractAddress_digest _ _ F) as (encoded & E).
      rewrite E in G. now apply addressOfDigest_fixed in G.
    + unfold getContractAddress in G. rewrite F in G. discriminate G.
  - intros r G.
    destruct (hexDataLength salt) as [n|] eqn:Ls;
      [|unfold getCreate2Address in G; rewrite Ls in G; discriminate G].
    destruct (Nat.eqb_spec n 32) as [->|N];
      [|unfold getCreate2Address in G; rewrite Ls in G;
        apply Nat.eqb_neq in N; rewrite N in G; discriminate G].
    destruct (hexDataLength initCodeHash) as [m|] eqn:Li;
      [|unfold getCreate2Address in G; rewrite Ls, Li in G; discriminate G].
    destruct (Nat.eqb_spec m 32) as [->|N];
      [|unfold getCreate2Address in G; rewrite Ls, Li in G;
        apply Nat.eqb_neq in N; rewrite N in G; discriminate G].
    destruct (getAddress a) as [f|e] eqn:F;
      [|unfold getCreate2Address in G; rewrite Ls, Li, F in G; discriminate G].
    destruct (arrayify_address _ _ F) as (fb & Af & _).
    destruct (hexDataLength_arrayify _ _ Ls) as (sb & As & _).
    destruct (hexDataLength_arrayify _ _ Li) as (ib & Ai & _).
    rewrite (getCreate2Address_valid _ _ _ _ _ _ _ Ls Li F Af As Ai) in G.
    now apply addressOfDigest_fixed in G.
  - intros e Ls Li F. unfold getCreate2Address. now rewrite Ls, Li, F.
Qed.

(** An instance of X16: the contract of [sampleTransaction]. *)
Lemma derived_addresses_sample :
  getAddress (str "0x082B6aC9e47d7D83ea3FaBbD1eC7DAba9D687b36")
  = Return (str "0x082B6aC9e47d7D83ea3FaBbD1eC7DAba9D687b36").
Proof.
  destruct (derived_addresses sampleTransaction sampleChecksummed (zeros 32) (zeros 32))
    as (H & _ & _).
  apply H. vm_compute. reflexivity.
Defined.

(** ** Number on decimal digits *)

Lemma isDigit_not_space (c : ascii) :
  isDigit c = true -> negb (isWhiteSpace c) = true.
Proof.
  intros H.
  assert (E : (if isDigit c then negb (isWhiteSpace c) else true) = true)
    by (revert c H; intros c _; revert c; apply all_chars; vm_compute; reflexivity).
  now rewrite H in E.
Qed.

Lemma Number_decimal (c1 c2 : ascii) (tl : jsstring) :
  isDigit c2 = true ->
  forallb (fun c => negb (isWhiteSpace c)) (c1 :: c2 :: tl) = true ->
  Number (c1 :: c2 :: tl) = decimalLiteral (c1 :: c2 :: tl).
Proof.
  intros D2 W. unfold Number. rewrite (trim_id _ W). cbv zeta.
  destruct c1 as [[] [] [] [] [] [] [] []]; try reflexivity.
  destruct c2 as [[] [] [] [] [] [] [] []]; try reflexivity; discriminate D2.
Qed.

Lemma decimalLiteral_digits (s : jsstring) :
  forallb isDigit s = true -> s <> [] ->
  decimalLiteral s = Finite (inject_Z (Z.of_N (fromDigits 10 s))).
Proof.
  intros D NE. destruct s as [|c s]; [congruence|].
  pose proof D as D'. cbn [forallb] in D'. apply andb_prop in D' as [Dc _].
  destruct (isDigit_head c s Dc) as [_ S].
  unfold decimalLiteral. rewrite S.
  destruct (eqb_str (c :: s) (str "Infinity")) eqn:E.
  - apply eqb_str_true in E. rewrite E in D. discriminate D.
  - rewrite readDigits_all by (revert D; apply forallb_impl, isDigit_validIn).
    cbn [length Nat.add]. cbv beta iota zeta. cbn [readExponent].
    rewrite Nat.sub_diag. unfold pow10, signed. cbn [Z.of_nat Z.sub Z.opp Z.add Z.leb Z.compare].
    cbv iota. unfold inject_Z. f_equal. f_equal. rewrite <- fromDigits_fold. lia.
Qed.

Lemma Number_digits (c1 c2 : ascii) (tl : jsstring) :
  forallb isDigit (c1 :: c2 :: tl) = true ->
  Number (c1 :: c2 :: tl)
  = Finite (inject_Z (Z.of_N (fromDigits 10 (c1 :: c2 :: tl)))).
Proof.
  intros D. rewrite Number_decimal.
  - apply decimalLiteral_digits; [exact D|discriminate].
  - cbn [forallb] in D. apply andb_prop in D as [_ D]. now apply andb_prop in D.
  - revert D. apply forallb_impl, isDigit_not_space.
Qed.

(** X17: without the "0x" prefix the number is read in base 10.  On a string
    that starts with four decimal digits, and a table whose bounds are hex
    numerals, [getShardFromAddress] compares the number that these four
    digits denote in base 10 with the bounds read in base 16. *)
Theorem getShardFromAddress_unprefixed (ShardData : list ShardEntry)
        (c1 c2 c3 c4 : ascii) (rest : jsstring) :
  forallb isDigit [c1; c2; c3; c4] = true ->
  forallb hexBounds ShardData = true ->
  getShardFromAddress ShardData (c1 :: c2 :: c3 :: c4 :: rest)
  = option_map shard
      (find (shardCovers (fromDigits 10 [c1; c2; c3; c4])) ShardData).
Proof.
  intros D B. rewrite getShardFromAddress_find. f_equal.
  change (substring 0 4 (c1 :: c2 :: c3 :: c4 :: rest)) with [c1; c2; c3; c4].
  rewrite (Number_digits _ _ _ D).
  apply (find_ext_on _ _ _ hexBounds B).
  intros obj O. unfold hexBounds in O. apply andb_prop in O as [O1 O2].
  rewrite (Number_hex _ O1), (Number_hex _ O2).
  unfold jsGe, shardCovers. now rewrite !jsLe_integers.
Qed.

(** An instance of X17: the digits "0025" against the entry from 0x14 to
    0x1d of [sampleTable]: 25 lies between 20 and 29. *)
Lemma getShardFromAddress_unprefixed_sample :
  getShardFromAddress sampleTable (str "0025" ++ str "abcdef")
  = option_map shard (find (shardCovers (fromDigits 10 (str "0025"))) sampleTable).
Proof.
  apply (getShardFromAddress_unprefixed sampleTable "0" "0" "2" "5" (str "abcdef"));
    reflexivity.
Defined.

(** ** ICAP strings and letter case *)

Lemma upper_lower (c : ascii) : upperChar (lowerChar c) = upperChar c.
Proof. each_char c; reflexivity. Qed.

Lemma upper_upper (c : ascii) : upperChar (upperChar c) = upperChar c.
Proof. each_char c; reflexivity. Qed.

Lemma isAlnum_lowerChar (c : ascii) : isAlnum (lowerChar c) = isAlnum c.
Proof. each_char c; reflexivity. Qed.

Lemma isAlnum_upperChar (c : ascii) : isAlnum (upperChar c) = isAlnum c.
Proof. each_char c; reflexivity. Qed.

Lemma ibanChecksum_recased (f : ascii -> ascii) (body : jsstring) :
  (forall c, upperChar (f c) = upperChar c) ->
  ibanChecksum (str "XE00" ++ map f body) = ibanChecksum (str "XE00" ++ body).
Proof.
  intros F. rewrite !ibanChecksum_eq. unfold ibanNumber, ibanRotated. cbv zeta.
  change (toUpperCase (str "XE00" ++ map f body))
    with (str "XE00" ++ toUpperCase (map f body)).
  change (toUpperCase (str "XE00" ++ body)) with (str "XE00" ++ toUpperCase body).
  replace (toUpperCase (map f body)) with (toUpperCase body); [reflexivity|].
  unfold toUpperCase. rewrite map_map. apply map_ext. intros c. now rewrite F.
Qed.

Lemma getAddress_icap_recased (f : ascii -> ascii) (c1 c2 : ascii) (body : jsstring) :
  (forall c, upperChar (f c) = upperChar c) ->
  (forall c, isAlnum (f c) = isAlnum c) ->
  (forall c, digitVal (f c) = digitVal c) ->
  matchIcap (str "XE" ++ [c1; c2] ++ body) = true ->
  getAddress (str "XE" ++ [c1; c2] ++ map f body)
  = getAddress (str "XE" ++ [c1; c2] ++ body).
Proof.
  intros U A V M.
  destruct (matchIcap_inv _ M) as (d1 & d2 & body0 & S & D1 & D2 & L & Al).
  injection S as <- <- <-.
  rewrite (getAddress_icap_checked _ _ body M).
  rewrite getAddress_icap_checked.
  - rewrite (ibanChecksum_recased f body U).
    replace (fromDigits 36 (map f body)) with (fromDigits 36 body); [reflexivity|].
    symmetry. now apply fold_digitStep_map.
  - apply matchIcap_intro; try assumption.
    + now rewrite length_map.
    + rewrite forallb_map. rewrite <- Al. clear - A.
      induction body as [|c body IH]; [reflexivity|].
      cbn [forallb]. now rewrite A, IH.
Qed.

(** X18: in an ICAP string the case of the letters after the checksum does
    not matter, and the case of "XE" does: with these letters in lower case
    or in upper case [getAddress] gives the same result, and with "xe" in
    front it fails with [InvalidAddress]. *)
Theorem getAddress_icap_case (c1 c2 : ascii) (body : jsstring) :
  matchIcap (str "XE" ++ [c1; c2] ++ body) = true ->
  getAddress (str "XE" ++ [c1; c2] ++ toLowerCase body)
  = getAddress (str "XE" ++ [c1; c2] ++ body)
  /\ getAddress (str "XE" ++ [c1; c2] ++ toUpperCase body)
     = getAddress (str "XE" ++ [c1; c2] ++ body)
  /\ getAddress (str "xe" ++ [c1; c2] ++ body) = Throw InvalidAddress.
Proof.
  intros M. splits.
  - apply (getAddress_icap_recased lowerChar);
      [apply upper_lower|apply isAlnum_lowerChar|apply digitVal_lowerChar|exact M].
  - apply (getAddress_icap_recased upperChar);
      [apply upper_upper|apply isAlnum_upperChar|apply digitVal_upperChar|exact M].
  - change (str "xe" ++ [c1; c2] ++ body)
      with ("x"%char :: "e"%char :: c1 :: c2 :: body).
    unfold getAddress, matchHexAddress, hex40. cbn [forallb].
    change (isHexDigit "x") with false. cbn [andb].
    rewrite andb_false_r. reflexivity.
Qed.

(** An instance of X18: [sampleIcap]. *)
Lemma getAddress_icap_case_sample :
  getAddress (str "XE" ++ [ "6"%char; "5"%char ]
                ++ toLowerCase (str "GB6LDNXYOFTX0NSV3FUWKOWIXAMJK36"))
  = getAddress (str "XE" ++ [ "6"%char; "5"%char ]
                  ++ str "GB6LDNXYOFTX0NSV3FUWKOWIXAMJK36")
  /\ getAddress (str "XE" ++ [ "6"%char; "5"%char ]
                   ++ toUpperCase (str "GB6LDNXYOFTX0NSV3FUWKOWIXAMJK36"))
     = getAddress (str "XE" ++ [ "6"%char; "5"%char ]
                     ++ str "GB6LDNXYOFTX0NSV3FUWKOWIXAMJK36")
  /\ getAddress (str "xe" ++ [ "6"%char; "5"%char ]
                   ++ str "GB6LDNXYOFTX0NSV3FUWKOWIXAMJK36")
     = Throw InvalidAddress.
Proof.
  apply (getAddress_icap_case "6" "5" (str "GB6LDNXYOFTX0NSV3FUWKOWIXAMJK36")).
  reflexivity.
Defined.

(** ** The numbers that ibanChecksum computes with *)


